(** * Contrastive loss engine of the MNIST classification notebooks

    A shallow embedding of [SupConLoss.forward], of the batch assembly in
    [pretraining] / [SupCon.forward] and of [calculate_accuracy]
    (notebooks/main_simclr.ipynb and the sibling classification notebook),
    together with the properties stated for them.

    Tensors are lists (rows of a matrix are lists of entries); the operations
    of the tensor library used by the notebooks are modelled one by one in
    [Module Torch], raising where the library raises.  A tensor entry is a
    [float]: an exact real number or one of the special values of IEEE-754
    arithmetic (two infinities and NaN).  Rounding, overflow and the sign of
    zero are not modelled: arithmetic on finite values is exact, except
    that the exponential underflows to 0 as it does in single precision.

    Layout: the values and the tensor operations; [SupConLoss.forward] in
    the order of its source, cut into the choice of the base mask
    ([select_mask]), the tiling and self-exclusion ([tile_mask]) and the
    loss of a similarity matrix ([loss_of_similarity]); the batch assembly
    with the log of the calls of the model; [calculate_accuracy] on rational
    scores.  The properties follow: the masks, the errors, a closed form of
    the loss on rectangular inputs, and from it the NaN of a degenerate
    mask, the invariance under a shift and the sign of the loss. *)

From Stdlib Require Import String QArith Reals ZArith Lia Lra Bool Arith List.
Import ListNotations.
Local Open Scope string_scope.
Local Open Scope nat_scope.
Local Open Scope list_scope.

Set Implicit Arguments.

(** ** Exceptions and results *)

Inductive exn : Type :=
| ValueError (msg : string)
| RuntimeError (msg : string)
| ZeroDivisionError.

Inductive result (A : Type) : Type :=
| Return (a : A)
| Raise (e : exn).

Arguments Return {A} a.
Arguments Raise {A} e.

Definition bind {A B : Type} (m : result A) (k : A -> result B) : result B :=
  match m with
  | Return a => k a
  | Raise e => Raise e
  end.

Notation "x <- m ;; k" := (bind m (fun x => k))
  (at level 61, m at next level, right associativity).
Notation "' pat <- m ;; k" := (bind m (fun x => match x with pat => k end))
  (at level 61, pat pattern, m at next level, right associativity).

Fixpoint sequence {A : Type} (l : list (result A)) : result (list A) :=
  match l with
  | [] => Return []
  | m :: l' => x <- m ;; xs <- sequence l' ;; Return (x :: xs)
  end.

Fixpoint zip_with {A B C : Type} (f : A -> B -> C) (a : list A) (b : list B)
  : list C :=
  match a, b with
  | x :: a', y :: b' => f x y :: zip_with f a' b'
  | _, _ => []
  end.

(** ** Floating-point values: exact reals with the IEEE special values *)

Module Float.

Inductive float : Type :=
| Fin (r : R)
| PInf
| NInf
| NaN.

Definition is_finite (x : float) : Prop :=
  match x with Fin _ => True | _ => False end.

(** [r * inf] for a finite [r]: the infinity of the sign of [r], NaN at 0. *)
Definition scale_inf (r : R) (pos neg : float) : float :=
  match total_order_T 0 r with
  | inleft (left _) => pos
  | inleft (right _) => NaN
  | inright _ => neg
  end.

Definition neg (x : float) : float :=
  match x with
  | Fin a => Fin (- a)
  | PInf => NInf
  | NInf => PInf
  | NaN => NaN
  end.

Definition add (x y : float) : float :=
  match x, y with
  | NaN, _ | _, NaN => NaN
  | Fin a, Fin b => Fin (a + b)
  | PInf, NInf | NInf, PInf => NaN
  | PInf, _ | _, PInf => PInf
  | NInf, _ | _, NInf => NInf
  end.

Definition sub (x y : float) : float := add x (neg y).

Definition mul (x y : float) : float :=
  match x, y with
  | NaN, _ | _, NaN => NaN
  | Fin a, Fin b => Fin (a * b)
  | Fin a, PInf | PInf, Fin a => scale_inf a PInf NInf
  | Fin a, NInf | NInf, Fin a => scale_inf a NInf PInf
  | PInf, PInf | NInf, NInf => PInf
  | PInf, NInf | NInf, PInf => NaN
  end.

Definition div (x y : float) : float :=
  match x, y with
  | NaN, _ | _, NaN => NaN
  | Fin a, Fin b =>
      if Req_dec_T b 0 then scale_inf a PInf NInf else Fin (a / b)
  | Fin _, _ => Fin 0
  | PInf, Fin b => if Rlt_dec b 0 then NInf else PInf
  | NInf, Fin b => if Rlt_dec b 0 then PInf else NInf
  | _, _ => NaN
  end.

(** The exponential of a tensor entry underflows: in single precision
    [e^a] is rounded to 0 as soon as it is at most [2^-150], half the
    smallest positive number. *)
Definition exp_underflow : R := (/ 2 ^ 150)%R.

Definition exp (x : float) : float :=
  match x with
  | Fin a =>
      if Rle_dec (Rtrigo_def.exp a) exp_underflow then Fin 0
      else Fin (Rtrigo_def.exp a)
  | PInf => PInf
  | NInf => Fin 0
  | NaN => NaN
  end.

Definition log (x : float) : float :=
  match x with
  | Fin a =>
      match total_order_T 0 a with
      | inleft (left _) => Fin (ln a)
      | inleft (right _) => NInf
      | inright _ => NaN
      end
  | PInf => PInf
  | _ => NaN
  end.

Definition sqrt (x : float) : float :=
  match x with
  | Fin a => if Rlt_dec a 0 then NaN else Fin (R_sqrt.sqrt a)
  | PInf => PInf
  | _ => NaN
  end.

(** Maximum as the reductions of the tensor library compute it: NaN wins. *)
Definition max (x y : float) : float :=
  match x, y with
  | NaN, _ | _, NaN => NaN
  | PInf, _ | _, PInf => PInf
  | NInf, z | z, NInf => z
  | Fin a, Fin b => Fin (Rmax a b)
  end.

Definition zero : float := Fin 0.
Definition one : float := Fin 1.

End Float.

Import Float.

Definition matrix : Type := list (list float).

(** A tensor of any rank: its shape and its entries in row-major order. *)
Record Tensor : Type := mkTensor {
  shape : list nat;
  data : list float
}.

Definition numel (s : list nat) : nat := fold_right Nat.mul 1 s.

(** ** The tensor operations used by the notebooks *)

Module Torch.

(** [torch.eye(n)] *)
Definition eye (n : nat) : matrix :=
  map (fun i => map (fun j => if i =? j then one else zero) (seq 0 n))
      (seq 0 n).

(** [torch.eq(labels, labels.T).float()] for [labels] of shape (n, 1) *)
Definition eq_T (labels : list Z) : matrix :=
  map (fun a => map (fun b => if Z.eqb a b then one else zero) labels) labels.

(** [m.repeat(a, c)]: [a] copies of [m] downwards, [c] copies rightwards *)
Definition repeat2 (a c : nat) (m : matrix) : matrix :=
  concat (repeat (map (fun row => concat (repeat row c)) m) a).

(** [torch.ones_like(m)] *)
Definition ones_like (m : matrix) : matrix := map (map (fun _ => one)) m.

(** [torch.arange(n)] *)
Definition arange (n : nat) : list nat := seq 0 n.

Fixpoint set_nth {A : Type} (j : nat) (v : A) (l : list A) : list A :=
  match l, j with
  | [], _ => []
  | _ :: l', O => v :: l'
  | x :: l', S j' => x :: set_nth j' v l'
  end.

(** [torch.scatter(src, 1, index, value)] for [index] of shape (k, 1):
    row [i] of the result has [value] at column [index[i]], for [i < k].
    The library raises when [index] has more rows than [src] or names a
    column that [src] does not have. *)
Fixpoint scatter (src : matrix) (index : list nat) (value : float)
  {struct index} : result matrix :=
  match index with
  | [] => Return src
  | j :: index' =>
      match src with
      | [] => Raise (RuntimeError "scatter: index larger than src")
      | row :: src' =>
          if j <? length row then
            rest <- scatter src' index' value ;;
            Return (set_nth j value row :: rest)
          else Raise (RuntimeError "scatter: index out of bounds")
      end
  end.

(** Broadcasting of one dimension: equal sizes, or one of them is 1. *)
Definition bcast_len (n m : nat) : option nat :=
  if n =? m then Some n
  else if n =? 1 then Some m
  else if m =? 1 then Some n
  else None.

Definition expand {A : Type} (k : nat) (l : list A) : list A :=
  if length l =? k then l
  else match l with
       | x :: _ => repeat x k
       | [] => []
       end.

Definition broadcast1 {A B C : Type} (f : A -> B -> C)
  (a : list A) (b : list B) : result (list C) :=
  match bcast_len (length a) (length b) with
  | Some k => Return (zip_with f (expand k a) (expand k b))
  | None => Raise (RuntimeError "size mismatch")
  end.

Definition broadcast2 (f : float -> float -> float) (a b : matrix)
  : result matrix :=
  match bcast_len (length a) (length b) with
  | Some k => sequence (zip_with (broadcast1 f) (expand k a) (expand k b))
  | None => Raise (RuntimeError "size mismatch")
  end.

(** Element-wise [a * b], [a - b] on matrices and [a / b] on vectors *)
Definition mul_t (a b : matrix) : result matrix := broadcast2 mul a b.
Definition sub_t (a b : matrix) : result matrix := broadcast2 sub a b.
Definition div_v (a b : list float) : result (list float) :=
  broadcast1 div a b.

(** [x.sum()] of a vector *)
Definition sum (l : list float) : float := fold_right add zero l.

(** [m.sum(1)] and [m.sum(1, keepdim=True)] *)
Definition sum1 (m : matrix) : list float := map sum m.
Definition sum1_keepdim (m : matrix) : matrix := map (fun r => [sum r]) m.

(** The number of columns; a matrix without rows is taken to have none
    (in [forward] the similarity matrix has no rows only for an empty batch,
    and then it has no columns either). *)
Definition ncols (m : matrix) : nat :=
  match m with
  | [] => 0
  | r :: _ => length r
  end.

Definition max_row (r : list float) : float :=
  match r with
  | [] => NaN
  | x :: r' => fold_left max r' x
  end.

(** [torch.max(m, dim=1, keepdim=True)[0]]; the library raises on an empty
    reduction dimension. *)
Definition max1_keepdim (m : matrix) : result matrix :=
  if ncols m =? 0 then
    Raise (RuntimeError "max(): Expected reduction dim 1 to have non-zero size")
  else Return (map (fun r => [max_row r]) m).

Definition exp_t (m : matrix) : matrix := map (map exp) m.
Definition log_t (m : matrix) : matrix := map (map log) m.

(** [torch.div(m, t)] for a number [t] *)
Definition div_scalar (m : matrix) (t : float) : matrix :=
  map (map (fun x => div x t)) m.

(** [s * v] for a number [s] *)
Definition scale (s : float) (v : list float) : list float := map (mul s) v.

Definition dot (x y : list float) : float := sum (zip_with mul x y).

(** [torch.matmul(a, b.T)] *)
Definition matmul_T (a b : matrix) : matrix :=
  map (fun x => map (fun y => dot x y) b) a.

(** [n] consecutive chunks of [k] entries *)
Fixpoint chunks {A : Type} (k n : nat) (l : list A) : list (list A) :=
  match n with
  | O => []
  | S n' => firstn k l :: chunks k n' (skipn k l)
  end.

(** [t.view(t.shape[0], t.shape[1], -1)] of a tensor of rank 3 or more,
    as nested lists. *)
Definition view3 (t : Tensor) : list matrix :=
  let N := nth 0 (shape t) 0 in
  let V := nth 1 (shape t) 0 in
  let D := numel (skipn 2 (shape t)) in
  map (chunks D V) (chunks (V * D) N (data t)).

(** [torch.unbind(f, dim=1)] of an (N, V, D) tensor: V matrices (N, D) *)
Definition unbind1 (V : nat) (f : list matrix) : list matrix :=
  map (fun v => map (fun sample => nth v sample []) f) (seq 0 V).

(** [torch.cat(ts, dim=0)]; the library refuses an empty list. *)
Definition cat0 (ts : list matrix) : result matrix :=
  match ts with
  | [] => Raise (RuntimeError "torch.cat(): expected a non-empty list of Tensors")
  | _ => Return (concat ts)
  end.

(** [x.view(a, b).mean()] of a vector: the view needs [a * b] entries. *)
Definition view_mean (a b : nat) (v : list float) : result float :=
  if length v =? a * b then Return (div (sum v) (Fin (INR (length v))))
  else Raise (RuntimeError "view: shape is invalid for input size").

End Torch.

Import Torch.

(** ** [SupConLoss] *)

Record SupConLoss : Type := mkSupConLoss {
  temperature : R;
  contrast_mode : string;
  base_temperature : R
}.

(** [SupConLoss()] with the default arguments of [__init__] *)
Definition SupConLoss_default : SupConLoss :=
  mkSupConLoss (7 / 100)%R "all" (7 / 100)%R.

(** Python's [a / b] on two numbers *)
Definition py_div (a b : R) : result R :=
  if Req_dec_T b 0%R then Raise ZeroDivisionError else Return (a / b)%R.

Definition msg_dims : string :=
  "`features` needs to be [bsz, n_views, ...],at least 3 dimensions are required".
Definition msg_both : string := "Cannot define both `labels` and `mask`".
Definition msg_labels : string := "Num of labels does not match num of features".
Definition msg_mode (mode : string) : string := "Unknown mode: " ++ mode.

(** The [if len(features.shape) > 3] branch: [view(.., .., -1)] cannot infer
    the last dimension of a tensor without entries. *)
Definition flatten_trailing (features : Tensor) : result (list matrix) :=
  if (3 <? length (shape features))
     && (nth 0 (shape features) 0 * nth 1 (shape features) 0 =? 0)
  then Raise (RuntimeError "view: cannot infer the unspecified dimension")
  else Return (view3 features).

(** The choice of the base mask: [labels] and [mask] are the optional
    arguments of [forward]; [labels] is taken after [.view(-1, 1)]. *)
Definition select_mask (batch_size : nat) (labels : option (list Z))
  (mask : option matrix) : result matrix :=
  match labels, mask with
  | Some _, Some _ => Raise (ValueError msg_both)
  | None, None => Return (eye batch_size)
  | Some labels, None =>
      if negb (length labels =? batch_size) then Raise (ValueError msg_labels)
      else Return (eq_T labels)
  | None, Some mask => Return mask
  end.

(** "tile mask" and "mask-out self-contrast cases": the tiled mask with the
    self-contrast entries removed, and [logits_mask]. *)
Definition tile_mask (batch_size anchor_count contrast_count : nat)
  (mask : matrix) : result (matrix * matrix) :=
  let mask := repeat2 anchor_count contrast_count mask in
  logits_mask <-
    scatter (ones_like mask) (arange (batch_size * anchor_count)) zero ;;
  mask <- mul_t mask logits_mask ;;
  Return (mask, logits_mask).

(** From "for numerical stability" to the end of [forward]: the loss as a
    function of the scaled similarity matrix [anchor_dot_contrast]. *)
Definition loss_of_similarity (self : SupConLoss)
  (batch_size anchor_count contrast_count : nat) (mask : matrix)
  (anchor_dot_contrast : matrix) : result float :=
  logits_max <- max1_keepdim anchor_dot_contrast ;;
  logits <- sub_t anchor_dot_contrast logits_max ;;
  '(mask, logits_mask) <-
    tile_mask batch_size anchor_count contrast_count mask ;;
  exp_logits <- mul_t (exp_t logits) logits_mask ;;
  log_prob <- sub_t logits (log_t (sum1_keepdim exp_logits)) ;;
  mask_log_prob <- mul_t mask log_prob ;;
  mean_log_prob_pos <- div_v (sum1 mask_log_prob) (sum1 mask) ;;
  ratio <- py_div (temperature self) (base_temperature self) ;;
  let loss := scale (Fin (- ratio)) mean_log_prob_pos in
  view_mean anchor_count batch_size loss.

(** [anchor_dot_contrast] of [forward] *)
Definition similarity (self : SupConLoss) (anchor_feature contrast_feature : matrix)
  : matrix :=
  div_scalar (matmul_T anchor_feature contrast_feature)
             (Fin (temperature self)).

(** [SupConLoss.forward(features, labels=None, mask=None)].  [labels] holds
    the entries of the label tensor, [mask] the rows of the mask tensor.
    [.to(device)], [.float()], [.contiguous()] and [.detach()] do not change
    the values and are left out. *)
Definition forward (self : SupConLoss) (features : Tensor)
  (labels : option (list Z)) (mask : option matrix) : result float :=
  if length (shape features) <? 3 then Raise (ValueError msg_dims)
  else
    features3 <- flatten_trailing features ;;
    let batch_size := nth 0 (shape features) 0 in
    mask <- select_mask batch_size labels mask ;;
    let contrast_count := nth 1 (shape features) 0 in
    contrast_feature <- cat0 (unbind1 contrast_count features3) ;;
    '(anchor_feature, anchor_count) <-
      (if String.eqb (contrast_mode self) "one" then
         Return (map (fun sample => nth 0 sample []) features3, 1)
       else if String.eqb (contrast_mode self) "all" then
         Return (contrast_feature, contrast_count)
       else Raise (ValueError (msg_mode (contrast_mode self)))) ;;
    let anchor_dot_contrast :=
      similarity self anchor_feature contrast_feature in
    loss_of_similarity self batch_size anchor_count contrast_count mask
      anchor_dot_contrast.

(** MaskBuilder of the specification: the base mask chosen from the labels,
    tiled and with the diagonal zeroed, as [forward] computes it in the
    contrast mode "all" ([anchor_count = contrast_count = view_count]). *)
Definition build_mask (n view_count : nat) (labels : option (list Z))
  : result matrix :=
  base <- select_mask n labels None ;;
  '(mask, _) <- tile_mask n view_count view_count base ;;
  Return mask.

Definition entry (m : matrix) (p q : nat) : float := nth q (nth p m []) NaN.

(** ** Batch assembly: [SupCon.forward] and the body of the loop of
    [pretraining] *)

Section BatchViewAssembler.

Variable Image : Type.

(** [SupCon]: the encoder and the projection head are functions of the
    whole batch. *)
Record SupCon : Type := mkSupCon {
  encoder : list Image -> matrix;
  head : matrix -> matrix
}.

Definition eps_normalize : R := (/ 10 ^ 12)%R.

(** [F.normalize(x, dim=1)]: every row divided by the larger of its
    Euclidean norm and [eps = 1e-12]. *)
Definition norm2 (v : list float) : float :=
  Float.sqrt (sum (map (fun x => mul x x) v)).

Definition normalize_row (v : list float) : list float :=
  let denom := Float.max (norm2 v) (Fin eps_normalize) in
  map (fun x => div x denom) v.

Definition F_normalize (x : matrix) : matrix := map normalize_row x.

Definition SupCon_forward (model : SupCon) (x : list Image) : matrix :=
  let feat := encoder model x in
  let feat := F_normalize (head model feat) in
  feat.

(** The calls of [model(...)] made so far, oldest first, are the state of a
    training step; a step may also raise. *)
Definition trace : Type := list (list Image).
Definition Step (A : Type) : Type := trace -> result A * trace.

Definition ret {A : Type} (a : A) : Step A := fun tr => (Return a, tr).

Definition lift {A : Type} (r : result A) : Step A := fun tr => (r, tr).

Definition bind_step {A B : Type} (m : Step A) (k : A -> Step B) : Step B :=
  fun tr =>
    match m tr with
    | (Return a, tr') => k a tr'
    | (Raise e, tr') => (Raise e, tr')
    end.

(** [model(data)] *)
Definition call_model (model : SupCon) (x : list Image) : Step matrix :=
  fun tr => (Return (SupCon_forward model x), tr ++ [x]).

(** [torch.split(t, [a, b], dim=0)] *)
Definition split2 (t : matrix) (a b : nat) : result (matrix * matrix) :=
  if length t =? a + b then Return (firstn a t, skipn a t)
  else Raise (RuntimeError "split_with_sizes: sizes do not sum to the dimension").

(** [torch.cat([f1.unsqueeze(1), f2.unsqueeze(1)], dim=1)] *)
Definition cat_views (f1 f2 : matrix) : result (list matrix) :=
  if length f1 =? length f2 then Return (zip_with (fun a b => [a; b]) f1 f2)
  else Raise (RuntimeError "torch.cat(): sizes of tensors must match").

(** From [data = torch.cat(...)] to [features = torch.cat(...)] in the loop
    of [pretraining]; [data0] and [data1] are [data[0]] and [data[1]]. *)
Definition assemble (model : SupCon) (data0 data1 : list Image)
  (labels : list Z) : Step (list matrix) :=
  let data := data0 ++ data1 in
  let bsz := length labels in
  bind_step (call_model model data) (fun features =>
  bind_step (lift (split2 features bsz bsz)) (fun '(f1, f2) =>
  lift (cat_views f1 f2))).

(** The (N, 2, D) tensor assembled above, with its shape; [D] is read off
    the first embedding. *)
Definition to_tensor (f : list matrix) : Tensor :=
  mkTensor [length f; 2; ncols (concat f)] (concat (concat f)).

(** One iteration of the loop of [pretraining], up to the loss. *)
Definition pretraining_step (model : SupCon) (criterion : SupConLoss)
  (method : string) (data0 data1 : list Image) (labels : list Z)
  : Step float :=
  bind_step (assemble model data0 data1 labels) (fun features =>
  if String.eqb method "SupCon" then
    lift (forward criterion (to_tensor features) (Some labels) None)
  else if String.eqb method "SimCLR" then
    lift (forward criterion (to_tensor features) None None)
  else
    lift (Raise (ValueError ("contrastive method not supported: " ++ method)))).

End BatchViewAssembler.

(** ** [calculate_accuracy] *)

Module Accuracy.

(** The value of [.item()]: a number, or NaN for the quotient 0 / 0. *)
Inductive ratio : Type :=
| Ratio (q : Q)
| NotANumber.

(** Index of the first largest entry, scanning from index [i]. *)
Fixpoint argmax_from (best : Q) (besti i : nat) (l : list Q) : nat :=
  match l with
  | [] => besti
  | x :: l' =>
      if Qle_bool x best then argmax_from best besti (S i) l'
      else argmax_from x i (S i) l'
  end.

(** [row.max(dim=0)[1]]; the library raises on an empty row. *)
Definition argmax (row : list Q) : result nat :=
  match row with
  | [] =>
      Raise (RuntimeError "max(): Expected reduction dim 1 to have non-zero size")
  | x :: l => Return (argmax_from x 0 1 l)
  end.

Definition count_true (l : list bool) : nat :=
  List.length (filter (fun b => b) l).

(** [torch.true_divide(count, size).item()] *)
Definition true_divide (count size : nat) : ratio :=
  match size with
  | O => NotANumber
  | S _ => Ratio (Z.of_nat count # Pos.of_nat size)
  end.

(** [output] is the (B, C) matrix of class scores, [target] the entries of
    the target tensor in row-major order. *)
Definition calculate_accuracy (output : list (list Q)) (target : list Z)
  : result ratio :=
  idx <- sequence (map argmax output) ;;
  let output' := map (fun i => Nat.eqb i 1) idx in
  let target' := map (fun t => Z.eqb t 1) target in
  same <- broadcast1 Bool.eqb target' output' ;;
  Return (true_divide (count_true same) (List.length output')).

(** Top-1 accuracy as the specification words it: the fraction of samples
    whose argmax equals the target class. *)
Definition top1_accuracy (output : list (list Q)) (target : list Z)
  : result ratio :=
  idx <- sequence (map argmax output) ;;
  same <- broadcast1 (fun t i => Z.eqb t (Z.of_nat i)) target idx ;;
  Return (true_divide (count_true same) (List.length idx)).

End Accuracy.

(** * Properties *)

(** ** Lists and tabulated matrices *)

Section ListFacts.

Context {A : Type}.

Lemma nth_map_seq (g : nat -> A) (d : A) (n s p : nat) :
  p < n -> nth p (map g (seq s n)) d = g (s + p).
Proof.
  revert s p; induction n as [|n IH]; intros s p Hp; [lia|].
  destruct p as [|p]; simpl.
  - now rewrite Nat.add_0_r.
  - rewrite IH by lia. f_equal; lia.
Qed.

Lemma list_eq_map_seq (l : list A) (d : A) :
  l = map (fun i => nth i l d) (seq 0 (length l)).
Proof.
  apply nth_ext with (d := d) (d' := d).
  - now rewrite length_map, length_seq.
  - intros n Hn. now rewrite nth_map_seq.
Qed.

Lemma length_concat_repeat (l : list A) (a : nat) :
  length (concat (repeat l a)) = a * length l.
Proof.
  induction a as [|a IH]; simpl; [reflexivity|].
  now rewrite length_app, IH.
Qed.

Lemma nth_concat_repeat (l : list A) (d : A) (a p : nat) :
  p < a * length l ->
  nth p (concat (repeat l a)) d = nth (p mod length l) l d.
Proof.
  revert p; induction a as [|a IH]; intros p Hp; [simpl in Hp; lia|].
  simpl. destruct (Nat.lt_ge_cases p (length l)) as [Hlt|Hge].
  - rewrite app_nth1 by assumption. now rewrite Nat.mod_small.
  - rewrite app_nth2 by assumption.
    rewrite IH by (simpl in Hp; lia).
    f_equal.
    replace p with ((p - length l) + 1 * length l) at 2 by lia.
    now rewrite Nat.Div0.mod_add.
Qed.

End ListFacts.

(** The matrix with [R] rows and [C] columns whose entry [(p, q)] is
    [f p q]. *)
Definition tab (R C : nat) (f : nat -> nat -> float) : matrix :=
  map (fun p => map (fun q => f p q) (seq 0 C)) (seq 0 R).

Definition rect (R C : nat) (m : matrix) : Prop :=
  length m = R /\ Forall (fun r => length r = C) m.

Lemma tab_rect R C f : rect R C (tab R C f).
Proof.
  split.
  - unfold tab. now rewrite length_map, length_seq.
  - unfold tab. apply Forall_forall. intros r Hr.
    apply in_map_iff in Hr as [p [<- _]].
    now rewrite length_map, length_seq.
Qed.

Lemma entry_tab R C f p q :
  p < R -> q < C -> entry (tab R C f) p q = f p q.
Proof.
  intros Hp Hq. unfold entry, tab.
  rewrite (nth_map_seq _ [] 0 Hp). simpl.
  now rewrite (nth_map_seq _ NaN 0 Hq).
Qed.

Lemma row_tab R C f p :
  p < R -> nth p (tab R C f) [] = map (fun q => f p q) (seq 0 C).
Proof.
  intros Hp. unfold tab. now rewrite (nth_map_seq _ [] 0 Hp).
Qed.

Lemma tab_ext R C f g :
  (forall p q, p < R -> q < C -> f p q = g p q) -> tab R C f = tab R C g.
Proof.
  intros H. unfold tab. apply map_ext_in. intros p Hp.
  apply in_seq in Hp. apply map_ext_in. intros q Hq. apply in_seq in Hq.
  apply H; lia.
Qed.

Lemma rect_eq_tab R C m : rect R C m -> m = tab R C (entry m).
Proof.
  intros [Hlen Hrows]. unfold tab.
  rewrite (list_eq_map_seq m []) at 1. rewrite Hlen.
  apply map_ext_in. intros p Hp. apply in_seq in Hp.
  assert (Hr : length (nth p m []) = C).
  { rewrite Forall_forall in Hrows. apply Hrows. apply nth_In. lia. }
  rewrite (list_eq_map_seq (nth p m []) NaN) at 1. rewrite Hr.
  reflexivity.
Qed.

Lemma eye_tab n : eye n = tab n n (fun i j => if i =? j then one else zero).
Proof. reflexivity. Qed.

Lemma eq_T_tab labels :
  eq_T labels =
  tab (length labels) (length labels)
      (fun i j => if Z.eqb (nth i labels 0%Z) (nth j labels 0%Z)
                  then one else zero).
Proof.
  unfold eq_T, tab.
  rewrite (list_eq_map_seq labels 0%Z) at 1. rewrite map_map.
  apply map_ext. intros i.
  rewrite (list_eq_map_seq labels 0%Z) at 1. rewrite map_map.
  reflexivity.
Qed.

Lemma repeat2_tab a c R C f :
  repeat2 a c (tab R C f) =
  tab (a * R) (c * C) (fun p q => f (p mod R) (q mod C)).
Proof.
  unfold repeat2.
  set (m := map (fun row => concat (repeat row c)) (tab R C f)).
  assert (Hm : length m = R).
  { unfold m, tab. now rewrite !length_map, length_seq. }
  apply nth_ext with (d := []) (d' := []).
  - rewrite length_concat_repeat, Hm. unfold tab.
    now rewrite length_map, length_seq.
  - intros p Hp. rewrite length_concat_repeat, Hm in Hp.
    rewrite nth_concat_repeat by (rewrite Hm; exact Hp).
    rewrite Hm. rewrite row_tab by exact Hp.
    assert (HR : p mod R < R) by (apply Nat.mod_upper_bound; lia).
    unfold m. 
    rewrite (nth_indep _ [] (concat (repeat [] c)))
      by (rewrite length_map; destruct (tab_rect R C f) as [-> _]; exact HR).
    rewrite (map_nth (fun row => concat (repeat row c))).
    rewrite row_tab by exact HR.
    set (row := map (fun q => f (p mod R) q) (seq 0 C)).
    assert (Hrow : length row = C).
    { unfold row. now rewrite length_map, length_seq. }
    apply nth_ext with (d := NaN) (d' := NaN).
    + now rewrite length_concat_repeat, Hrow, length_map, length_seq.
    + intros q Hq. rewrite length_concat_repeat, Hrow in Hq.
      rewrite nth_concat_repeat by (rewrite Hrow; exact Hq).
      rewrite Hrow. rewrite (nth_map_seq _ NaN 0 Hq). simpl.
      unfold row. rewrite nth_map_seq by (apply Nat.mod_upper_bound; lia).
      reflexivity.
Qed.

Lemma set_nth_map_seq (g : nat -> float) (v : float) (j s n : nat) :
  j < n ->
  set_nth j v (map g (seq s n)) =
  map (fun q => if q =? s + j then v else g q) (seq s n).
Proof.
  revert j s; induction n as [|n IH]; intros j s Hj; [lia|].
  destruct j as [|j]; simpl.
  - rewrite Nat.add_0_r, Nat.eqb_refl. f_equal.
    apply map_ext_in. intros q Hq. apply in_seq in Hq.
    destruct (Nat.eqb_spec q s); [lia|reflexivity].
  - destruct (Nat.eqb_spec s (s + S j)); [lia|]. f_equal.
    rewrite IH by lia. apply map_ext. intros q.
    now replace (S s + j) with (s + S j) by lia.
Qed.

Lemma scatter_rows (f : nat -> nat -> float) (v : float) (C k s n : nat) :
  k <= n -> s + k <= C ->
  scatter (map (fun p => map (fun q => f p q) (seq 0 C)) (seq s n))
          (seq s k) v =
  Return (map (fun p => map (fun q => if (p <? s + k) && (q =? p)
                                      then v else f p q) (seq 0 C))
              (seq s n)).
Proof.
  revert s n; induction k as [|k IH]; intros s n Hk HC.
  - simpl. f_equal. apply map_ext_in. intros p Hp. apply in_seq in Hp.
    apply map_ext. intros q.
    destruct (Nat.ltb_spec p (s + 0)); [lia|reflexivity].
  - destruct n as [|n]; [lia|]. simpl.
    rewrite length_map, length_seq.
    destruct (Nat.ltb_spec s C) as [_|]; [|lia].
    rewrite IH by lia. simpl. f_equal. f_equal.
    + rewrite (set_nth_map_seq _ _ 0) by lia.
      apply map_ext. intros q. simpl.
      destruct (Nat.ltb_spec s (s + S k)); [|lia].
      simpl. now rewrite Nat.eqb_sym.
    + apply map_ext. intros p. apply map_ext. intros q.
      now replace (S (s + k)) with (s + S k) by lia.
Qed.

Lemma scatter_tab R C f K v :
  K <= R -> K <= C ->
  scatter (tab R C f) (arange K) v =
  Return (tab R C (fun p q => if (p <? K) && (q =? p) then v else f p q)).
Proof.
  intros HR HC. unfold tab, arange.
  now rewrite scatter_rows by lia.
Qed.

Lemma ones_like_tab R C f : ones_like (tab R C f) = tab R C (fun _ _ => one).
Proof. unfold ones_like, tab. rewrite map_map. apply map_ext. intros p.
  now rewrite map_map. Qed.

Lemma bcast_len_same n : bcast_len n n = Some n.
Proof. unfold bcast_len. now rewrite Nat.eqb_refl. Qed.

Lemma expand_same {A : Type} (l : list A) k : length l = k -> expand k l = l.
Proof. intros <-. unfold expand. now rewrite Nat.eqb_refl. Qed.

Lemma broadcast1_same {A B C : Type} (f : A -> B -> C) a b :
  length a = length b -> broadcast1 f a b = Return (zip_with f a b).
Proof.
  intros H. unfold broadcast1. rewrite H, bcast_len_same.
  now rewrite !expand_same by congruence.
Qed.

Lemma zip_with_map_seq {A B C : Type} (h : A -> B -> C) f g s n :
  zip_with h (map f (seq s n)) (map g (seq s n)) =
  map (fun i => h (f i) (g i)) (seq s n).
Proof.
  revert s; induction n as [|n IH]; intros s; simpl; [reflexivity|].
  now rewrite IH.
Qed.

Lemma sequence_map_Return {A B : Type} (g : A -> B) (l : list A) :
  sequence (map (fun x => Return (g x)) l) = Return (map g l).
Proof.
  induction l as [|x l IH]; simpl; [reflexivity|]. now rewrite IH.
Qed.

Lemma broadcast2_tab h R C f g :
  broadcast2 h (tab R C f) (tab R C g) =
  Return (tab R C (fun p q => h (f p q) (g p q))).
Proof.
  unfold broadcast2.
  destruct (tab_rect R C f) as [Hf _]. destruct (tab_rect R C g) as [Hg _].
  rewrite Hf, Hg, bcast_len_same.
  rewrite !expand_same by assumption.
  unfold tab. rewrite zip_with_map_seq.
  erewrite map_ext.
  2:{ intros p. rewrite broadcast1_same by now rewrite !length_map.
      rewrite zip_with_map_seq. reflexivity. }
  now rewrite (sequence_map_Return
    (fun p => map (fun q => h (f p q) (g p q)) (seq 0 C))).
Qed.

(** Closed form of the tiled mask and of [logits_mask] for a base mask with
    [N] rows and [N] columns. *)
Definition self_mask (p q : nat) : float := if q =? p then zero else one.

Lemma tile_mask_tab N ac cc f :
  ac <= cc ->
  tile_mask N ac cc (tab N N f) =
  Return (tab (ac * N) (cc * N)
              (fun p q => mul (f (p mod N) (q mod N)) (self_mask p q)),
          tab (ac * N) (cc * N) self_mask).
Proof.
  intros Hle. unfold tile_mask.
  rewrite repeat2_tab, ones_like_tab.
  rewrite scatter_tab by nia. simpl.
  assert (E : tab (ac * N) (cc * N)
                (fun p q => if (p <? N * ac) && (q =? p) then zero else one) =
              tab (ac * N) (cc * N) self_mask).
  { apply tab_ext. intros p q Hp Hq. unfold self_mask.
    destruct (Nat.ltb_spec p (N * ac)); [reflexivity|lia]. }
  rewrite E. unfold mul_t. rewrite broadcast2_tab. reflexivity.
Qed.

(** ** Sums of finite entries *)

Definition Rsum (l : list R) : R := fold_right Rplus 0%R l.

Definition indicator (b : bool) : R := if b then 1%R else 0%R.

Lemma sum_Fin (g : nat -> R) (l : list nat) :
  sum (map (fun q => Fin (g q)) l) = Fin (Rsum (map g l)).
Proof.
  unfold sum. induction l as [|x l IH]; simpl; [reflexivity|].
  now rewrite IH.
Qed.

Lemma Rsum_nonneg (g : nat -> R) (l : list nat) :
  (forall x, In x l -> (0 <= g x)%R) -> (0 <= Rsum (map g l))%R.
Proof.
  induction l as [|x l IH]; intros H; simpl; [lra|].
  assert (0 <= g x)%R by (apply H; now left).
  assert (0 <= Rsum (map g l))%R by (apply IH; intros; apply H; now right).
  lra.
Qed.

Lemma Rsum_ge_member (g : nat -> R) (l : list nat) (k : nat) :
  (forall x, In x l -> (0 <= g x)%R) -> In k l ->
  (g k <= Rsum (map g l))%R.
Proof.
  induction l as [|x l IH]; intros H Hk; [contradiction|]. simpl.
  assert (0 <= g x)%R by (apply H; now left).
  assert (0 <= Rsum (map g l))%R
    by (apply Rsum_nonneg; intros; apply H; now right).
  destruct Hk as [->|Hk]; [lra|].
  assert (g k <= Rsum (map g l))%R by (apply IH; auto; intros; apply H; now right).
  lra.
Qed.

Lemma Rsum_single (k s n : nat) :
  Rsum (map (fun q => indicator (q =? k)) (seq s n)) =
  indicator ((s <=? k) && (k <? s + n)).
Proof.
  revert s; induction n as [|n IH]; intros s; simpl.
  - destruct (Nat.leb_spec s k), (Nat.ltb_spec k (s + 0)); simpl; auto; lia.
  - rewrite IH.
    destruct (Nat.eqb_spec s k), (Nat.leb_spec (S s) k),
      (Nat.ltb_spec k (S s + n)), (Nat.leb_spec s k),
      (Nat.ltb_spec k (s + S n)); simpl; try lia; lra.
Qed.

Lemma indicator_nonneg b : (0 <= indicator b)%R.
Proof. destruct b; simpl; lra. Qed.

(** ** The mask built from a 0/1 base mask *)

Definition partner (N p : nat) : nat := if p <? N then p + N else p - N.

Lemma mod_two_blocks N x :
  x < 2 * N -> x mod N = if x <? N then x else x - N.
Proof.
  intros Hx. destruct (Nat.ltb_spec x N) as [Hlt|Hge].
  - now apply Nat.mod_small.
  - replace x with ((x - N) + 1 * N) at 1 by lia.
    rewrite Nat.Div0.mod_add. apply Nat.mod_small. lia.
Qed.

Lemma same_origin_partner N p q :
  p < 2 * N -> q < 2 * N ->
  (p mod N =? q mod N) && negb (q =? p) = (q =? partner N p).
Proof.
  intros Hp Hq. rewrite !mod_two_blocks by assumption. unfold partner.
  destruct (Nat.ltb_spec p N), (Nat.ltb_spec q N);
    destruct (Nat.eqb_spec q p); simpl;
    repeat match goal with
           | |- context [?a =? ?b] => destruct (Nat.eqb_spec a b)
           end; simpl; try reflexivity; lia.
Qed.

Lemma tile_mask_bool N ac cc (b : nat -> nat -> bool) :
  ac <= cc ->
  tile_mask N ac cc (tab N N (fun i j => if b i j then one else zero)) =
  Return (tab (ac * N) (cc * N)
              (fun p q => Fin (indicator (b (p mod N) (q mod N)
                                          && negb (q =? p)))),
          tab (ac * N) (cc * N) self_mask).
Proof.
  intros Hle. rewrite tile_mask_tab by assumption.
  f_equal. f_equal. apply tab_ext. intros p q _ _. unfold self_mask.
  destruct (b (p mod N) (q mod N)), (q =? p); simpl; f_equal; lra.
Qed.

Lemma build_mask_identity N V :
  build_mask N V None =
  Return (tab (V * N) (V * N)
              (fun p q => Fin (indicator ((p mod N =? q mod N)
                                          && negb (q =? p))))).
Proof.
  unfold build_mask. simpl. rewrite eye_tab.
  rewrite (tile_mask_bool N (fun i j => i =? j) (Nat.le_refl V)).
  reflexivity.
Qed.

Lemma build_mask_labels labels V :
  build_mask (length labels) V (Some labels) =
  Return (tab (V * length labels) (V * length labels)
              (fun p q =>
                 Fin (indicator
                        (Z.eqb (nth (p mod length labels) labels 0%Z)
                               (nth (q mod length labels) labels 0%Z)
                         && negb (q =? p))))).
Proof.
  unfold build_mask. simpl. rewrite Nat.eqb_refl. simpl.
  rewrite eq_T_tab.
  rewrite (tile_mask_bool (length labels)
             (fun i j => Z.eqb (nth i labels 0%Z) (nth j labels 0%Z))
             (Nat.le_refl V)).
  reflexivity.
Qed.

(** C1. Without labels and with two views, the mask of a batch of [N >= 1]
    samples has [2N] rows and columns; every row sums to 1, its only
    non-zero entry is in the column of the other view of the same sample,
    so rows [i] and [i + N] mark each other as their sole positive. *)
Theorem identity_mask_sole_positive (N : nat) :
  1 <= N ->
  exists mask,
    build_mask N 2 None = Return mask /\
    rect (2 * N) (2 * N) mask /\
    (forall p, p < 2 * N ->
       sum (nth p mask []) = one /\
       forall q, q < 2 * N ->
         entry mask p q = if q =? partner N p then one else zero) /\
    (forall i, i < N ->
       entry mask i (i + N) = one /\ entry mask (i + N) i = one).
Proof.
  intros HN. rewrite build_mask_identity.
  eexists; split; [reflexivity|]. split; [apply tab_rect|].
  assert (Hentry : forall p q, p < 2 * N -> q < 2 * N ->
    entry (tab (2 * N) (2 * N)
             (fun p q => Fin (indicator ((p mod N =? q mod N)
                                         && negb (q =? p))))) p q =
    if q =? partner N p then one else zero).
  { intros p q Hp Hq. rewrite entry_tab by assumption.
    rewrite same_origin_partner by assumption.
    now destruct (q =? partner N p). }
  split.
  - intros p Hp. split; [|intros q Hq; now apply Hentry].
    rewrite row_tab by assumption.
    rewrite (sum_Fin (fun q => indicator ((p mod N =? q mod N)
                                          && negb (q =? p)))).
    unfold one. f_equal.
    erewrite map_ext_in.
    2:{ intros q Hq. apply in_seq in Hq.
        rewrite same_origin_partner by lia. reflexivity. }
    rewrite Rsum_single. unfold partner.
    destruct (Nat.ltb_spec p N);
      match goal with
      | |- context [?a <? ?b] => destruct (Nat.ltb_spec a b)
      end; simpl; try reflexivity; lia.
  - intros i Hi. rewrite !Hentry by lia. unfold partner.
    destruct (Nat.ltb_spec i N); [|lia].
    destruct (Nat.ltb_spec (i + N) N); [lia|].
    rewrite Nat.eqb_refl.
    destruct (Nat.eqb_spec i (i + N - N)); [auto|lia].
Qed.

(** C4. With two views and one label per sample of a batch of [N >= 1]
    samples, the mask is symmetric and every row sums to at least 1. *)
Theorem label_mask_symmetric_row_sum (N : nat) (labels : list Z) :
  1 <= N -> length labels = N ->
  exists mask,
    build_mask N 2 (Some labels) = Return mask /\
    rect (2 * N) (2 * N) mask /\
    (forall p q, p < 2 * N -> q < 2 * N -> entry mask p q = entry mask q p) /\
    (forall p, p < 2 * N ->
       exists s, sum (nth p mask []) = Fin s /\ (1 <= s)%R).
Proof.
  intros HN Hlen. subst N. rewrite build_mask_labels.
  set (N := length labels) in *.
  eexists; split; [reflexivity|]. split; [apply tab_rect|]. split.
  - intros p q Hp Hq. rewrite !entry_tab by assumption.
    rewrite Z.eqb_sym. rewrite (Nat.eqb_sym q p). reflexivity.
  - intros p Hp. rewrite row_tab by assumption.
    set (g := fun q => indicator
                (Z.eqb (nth (p mod N) labels 0%Z) (nth (q mod N) labels 0%Z)
                 && negb (q =? p))).
    exists (Rsum (map g (seq 0 (2 * N)))). split; [apply (sum_Fin g)|].
    assert (Hk : partner N p < 2 * N).
    { unfold partner. destruct (Nat.ltb_spec p N); lia. }
    assert (Hg : g (partner N p) = 1%R).
    { unfold g.
      assert (E : (partner N p) mod N = p mod N).
      { pose proof (same_origin_partner N Hp Hk) as E.
        rewrite Nat.eqb_refl in E.
        apply andb_true_iff in E as [E _]. apply Nat.eqb_eq in E. auto. }
      rewrite E, Z.eqb_refl.
      pose proof (same_origin_partner N Hp Hk) as E'.
      rewrite Nat.eqb_refl in E'. apply andb_true_iff in E' as [_ E'].
      rewrite E'. reflexivity. }
    rewrite <- Hg. apply Rsum_ge_member.
    + intros x _. apply indicator_nonneg.
    + apply in_seq. lia.
Qed.

(** Two samples of one class, two views: each of the four views has the
    three others as positives. *)
Example same_class_row_sums :
  exists mask,
    build_mask 2 2 (Some [0; 0]%Z) = Return mask /\
    Forall (fun row => sum row = Fin 3) mask.
Proof.
  eexists. split; [reflexivity|].
  repeat constructor; unfold sum; simpl; f_equal; lra.
Qed.

Lemma label_mask_symmetric_row_sum_witness :
  exists mask,
    build_mask 3 2 (Some [3; 3; 5]%Z) = Return mask /\
    rect (2 * 3) (2 * 3) mask /\
    (forall p q, p < 2 * 3 -> q < 2 * 3 -> entry mask p q = entry mask q p) /\
    (forall p, p < 2 * 3 ->
       exists s, sum (nth p mask []) = Fin s /\ (1 <= s)%R).
Proof.
  apply (@label_mask_symmetric_row_sum 3 [3; 3; 5]%Z); [lia | reflexivity].
Defined.

Lemma identity_mask_sole_positive_witness :
  exists mask,
    build_mask 2 2 None = Return mask /\
    rect (2 * 2) (2 * 2) mask /\
    (forall p, p < 2 * 2 ->
       sum (nth p mask []) = one /\
       forall q, q < 2 * 2 ->
         entry mask p q = if q =? partner 2 p then one else zero) /\
    (forall i, i < 2 ->
       entry mask i (i + 2) = one /\ entry mask (i + 2) i = one).
Proof.
  apply (@identity_mask_sole_positive 2); lia.
Defined.

(** ** Errors of [forward] *)

(** The stages after the choice of the contrast mode raise no
    [ValueError]. *)
Definition no_value_error {A : Type} (r : result A) : Prop :=
  match r with
  | Raise (ValueError _) => False
  | _ => True
  end.

Lemma no_value_error_bind {A B : Type} (m : result A) (k : A -> result B) :
  no_value_error m -> (forall a, no_value_error (k a)) ->
  no_value_error (bind m k).
Proof. destruct m as [a|e]; simpl; auto. Qed.

Lemma no_value_error_sequence {A : Type} (l : list (result A)) :
  Forall no_value_error l -> no_value_error (sequence l).
Proof.
  induction 1 as [|m l Hm _ IH]; simpl; [exact I|].
  apply no_value_error_bind; [assumption|]. intros a.
  apply no_value_error_bind; [assumption|]. intros; exact I.
Qed.

Lemma no_value_error_broadcast1 {A B C : Type} (f : A -> B -> C) a b :
  no_value_error (broadcast1 f a b).
Proof. unfold broadcast1. now destruct (bcast_len _ _). Qed.

Lemma Forall_zip_with {A B C : Type} (P : C -> Prop) (f : A -> B -> C) :
  (forall x y, P (f x y)) -> forall a b, Forall P (zip_with f a b).
Proof.
  intros H a. induction a as [|x a IH]; intros [|y b]; simpl; auto.
Qed.

Lemma no_value_error_broadcast2 f a b : no_value_error (broadcast2 f a b).
Proof.
  unfold broadcast2. destruct (bcast_len _ _); [|exact I].
  apply no_value_error_sequence. apply Forall_zip_with.
  intros; apply no_value_error_broadcast1.
Qed.

Lemma no_value_error_scatter src index v :
  no_value_error (scatter src index v).
Proof.
  revert src; induction index as [|j index IH]; intros src; simpl; [exact I|].
  destruct src as [|row src]; [exact I|].
  destruct (j <? length row); [|exact I].
  apply no_value_error_bind; [apply IH|]. intros; exact I.
Qed.

Lemma no_value_error_tile_mask N ac cc m :
  no_value_error (tile_mask N ac cc m).
Proof.
  unfold tile_mask.
  apply no_value_error_bind; [apply no_value_error_scatter|]. intros lm.
  apply no_value_error_bind; [apply no_value_error_broadcast2|].
  intros; exact I.
Qed.

Lemma no_value_error_loss_of_similarity self N ac cc m adc :
  no_value_error (loss_of_similarity self N ac cc m adc).
Proof.
  unfold loss_of_similarity.
  apply no_value_error_bind.
  { unfold max1_keepdim. now destruct (ncols adc =? 0). }
  intros ?. apply no_value_error_bind; [apply no_value_error_broadcast2|].
  intros ?. apply no_value_error_bind; [apply no_value_error_tile_mask|].
  intros [? ?]. apply no_value_error_bind; [apply no_value_error_broadcast2|].
  intros ?. apply no_value_error_bind; [apply no_value_error_broadcast2|].
  intros ?. apply no_value_error_bind; [apply no_value_error_broadcast2|].
  intros ?. apply no_value_error_bind; [apply no_value_error_broadcast1|].
  intros ?. apply no_value_error_bind.
  { unfold py_div. now destruct (Req_dec_T _ _). }
  intros ?. unfold view_mean. now destruct (_ =? _).
Qed.

(** The tensors that [forward] accepts up to the choice of the mask: rank 3,
    or a higher rank whose trailing dimensions can be flattened. *)
Definition viewable (features : Tensor) : Prop :=
  length (shape features) = 3 \/
  (3 < length (shape features) /\
   nth 0 (shape features) 0 * nth 1 (shape features) 0 <> 0).

Lemma flatten_trailing_viewable features :
  viewable features -> flatten_trailing features = Return (view3 features).
Proof.
  unfold viewable, flatten_trailing. intros [H|[H1 H2]].
  - rewrite H. reflexivity.
  - destruct (Nat.eqb_spec (nth 0 (shape features) 0 * nth 1 (shape features) 0) 0);
      [contradiction|]. now rewrite andb_false_r.
Qed.

Lemma forward_low_rank self features labels mask :
  length (shape features) < 3 ->
  forward self features labels mask = Raise (ValueError msg_dims).
Proof.
  intros H. unfold forward.
  destruct (Nat.ltb_spec (length (shape features)) 3); [reflexivity|lia].
Qed.

(** What [forward] does once the base mask is chosen. *)
Definition forward_with_mask (self : SupConLoss) (features : Tensor)
  (features3 : list matrix) (mask : matrix) : result float :=
  let batch_size := nth 0 (shape features) 0 in
  let contrast_count := nth 1 (shape features) 0 in
  contrast_feature <- cat0 (unbind1 contrast_count features3) ;;
  '(anchor_feature, anchor_count) <-
    (if String.eqb (contrast_mode self) "one" then
       Return (map (fun sample => nth 0 sample []) features3, 1)
     else if String.eqb (contrast_mode self) "all" then
       Return (contrast_feature, contrast_count)
     else Raise (ValueError (msg_mode (contrast_mode self)))) ;;
  loss_of_similarity self batch_size anchor_count contrast_count mask
    (similarity self anchor_feature contrast_feature).

Lemma forward_unfold self features labels mask :
  forward self features labels mask =
  if length (shape features) <? 3 then Raise (ValueError msg_dims)
  else
    features3 <- flatten_trailing features ;;
    mask <- select_mask (nth 0 (shape features) 0) labels mask ;;
    forward_with_mask self features features3 mask.
Proof. reflexivity. Qed.

Lemma forward_with_mask_errors self features f3 m msg :
  forward_with_mask self features f3 m = Raise (ValueError msg) ->
  msg = msg_mode (contrast_mode self).
Proof.
  unfold forward_with_mask.
  destruct (cat0 _) as [cf|e] eqn:Hcat; simpl.
  2:{ unfold cat0 in Hcat. destruct (unbind1 _ _); inversion Hcat.
      intros H; inversion H. }
  destruct (String.eqb (contrast_mode self) "one"); simpl.
  { intros H.
    pose proof (no_value_error_loss_of_similarity self
      (nth 0 (shape features) 0) 1 (nth 1 (shape features) 0) m
      (similarity self (map (fun sample => nth 0 sample []) f3) cf)) as N.
    rewrite H in N. contradiction. }
  destruct (String.eqb (contrast_mode self) "all"); simpl.
  { intros H.
    pose proof (no_value_error_loss_of_similarity self
      (nth 0 (shape features) 0) (nth 1 (shape features) 0)
      (nth 1 (shape features) 0) m (similarity self cf cf)) as N.
    rewrite H in N. contradiction. }
  intros H; now inversion H.
Qed.

Lemma msg_mode_neq_dims mode : msg_mode mode <> msg_dims.
Proof. discriminate. Qed.

Lemma msg_mode_neq_labels mode : msg_mode mode <> msg_labels.
Proof. discriminate. Qed.

(** With both [labels] and [mask], features of rank 2 do not reach the
    check of the two arguments: the error is the one on the dimensions,
    not "Cannot define both `labels` and `mask`". *)
Lemma labels_and_mask_on_low_rank :
  forward SupConLoss_default (mkTensor [2; 1] [Fin 1; Fin 1])
          (Some [0%Z; 1%Z]) (Some [[Fin 1; Fin 0]; [Fin 0; Fin 1]]) =
  Raise (ValueError msg_dims) /\
  forward SupConLoss_default (mkTensor [2; 1] [Fin 1; Fin 1])
          (Some [0%Z; 1%Z]) (Some [[Fin 1; Fin 0]; [Fin 0; Fin 1]]) <>
  Raise (ValueError msg_both).
Proof. split; [reflexivity|discriminate]. Qed.

(** C10, as the code behaves.  Whatever the features, [forward] called with
    both [labels] and [mask] raises and returns no loss.  On features that
    it can view as (N, V, D) the error is the [ValueError] "Cannot define
    both `labels` and `mask`"; on features with fewer than 3 dimensions it
    is the [ValueError] on the dimensions, raised first. *)
Theorem labels_and_mask_exclusive (self : SupConLoss) (features : Tensor)
  (labels : list Z) (mask : matrix) :
  (exists e, forward self features (Some labels) (Some mask) = Raise e) /\
  (viewable features ->
   forward self features (Some labels) (Some mask) =
   Raise (ValueError msg_both)) /\
  (length (shape features) < 3 ->
   forward self features (Some labels) (Some mask) =
   Raise (ValueError msg_dims)).
Proof.
  split; [|split].
  - rewrite forward_unfold. destruct (_ <? 3); [eauto|].
    destruct (flatten_trailing features); simpl; eauto.
  - intros Hv. rewrite forward_unfold.
    rewrite (flatten_trailing_viewable Hv).
    destruct (Nat.ltb_spec (length (shape features)) 3) as [Hlt|_];
      [|reflexivity].
    destruct Hv as [Hv|[Hv _]]; lia.
  - apply forward_low_rank.
Qed.

Lemma labels_and_mask_exclusive_witness :
  forward SupConLoss_default (mkTensor [1; 2; 1] [Fin 1; Fin 1])
          (Some [0%Z]) (Some [[Fin 1]]) =
  Raise (ValueError msg_both) /\
  forward SupConLoss_default (mkTensor [2; 1] [Fin 1; Fin 1])
          (Some [0%Z]) (Some [[Fin 1]]) =
  Raise (ValueError msg_dims).
Proof.
  split.
  - destruct (labels_and_mask_exclusive SupConLoss_default
                (mkTensor [1; 2; 1] [Fin 1; Fin 1]) [0%Z] [[Fin 1]])
      as [_ [H _]].
    apply H. left. reflexivity.
  - destruct (labels_and_mask_exclusive SupConLoss_default
                (mkTensor [2; 1] [Fin 1; Fin 1]) [0%Z] [[Fin 1]])
      as [_ [_ H]].
    apply H. simpl. lia.
Defined.

(** With a mask, labels whose number differs from the batch size do not
    raise the error on the number of labels: the check of the two
    arguments comes first. *)
Lemma label_mismatch_with_mask :
  length [0%Z; 1%Z] <> nth 0 (shape (mkTensor [1; 2; 1] [Fin 1; Fin 1])) 0 /\
  forward SupConLoss_default (mkTensor [1; 2; 1] [Fin 1; Fin 1])
          (Some [0%Z; 1%Z]) (Some [[Fin 1]]) =
  Raise (ValueError msg_both) /\
  forward SupConLoss_default (mkTensor [1; 2; 1] [Fin 1; Fin 1])
          (Some [0%Z; 1%Z]) (Some [[Fin 1]]) <>
  Raise (ValueError msg_labels).
Proof. split; [simpl; lia|]. split; [reflexivity|discriminate]. Qed.

(** C8, as the code behaves.  [forward] raises the [ValueError] on the
    dimensions exactly when the features have fewer than 3 dimensions.  On
    features that it can view as (N, V, D) it raises the [ValueError] on the
    number of labels exactly when labels are given without a mask and
    their number differs from the batch size.  In every case in which the
    number of labels differs from the batch size, or the rank is below 3,
    some error is raised and no loss is returned. *)
Theorem shape_mismatch_errors (self : SupConLoss) (features : Tensor)
  (labels : option (list Z)) (mask : option matrix) :
  (forward self features labels mask = Raise (ValueError msg_dims) <->
   length (shape features) < 3) /\
  (viewable features ->
   (forward self features labels mask = Raise (ValueError msg_labels) <->
    exists l, labels = Some l /\ mask = None /\
              length l <> nth 0 (shape features) 0)) /\
  (forall l, labels = Some l -> length l <> nth 0 (shape features) 0 ->
             exists e, forward self features labels mask = Raise e).
Proof.
  split; [|split].
  - split; [|apply forward_low_rank].
    rewrite forward_unfold.
    destruct (Nat.ltb_spec (length (shape features)) 3) as [|Hge]; [auto|].
    intros H. exfalso.
    destruct (flatten_trailing features) as [f3|e] eqn:Hf; simpl in H.
    2:{ unfold flatten_trailing in Hf. destruct (_ && _); inversion Hf.
        subst e. inversion H. }
    destruct labels as [l|], mask as [m|]; simpl in H; try discriminate.
    + destruct (negb _); simpl in H; [discriminate|].
      apply forward_with_mask_errors in H. discriminate.
    + apply forward_with_mask_errors in H. discriminate.
    + apply forward_with_mask_errors in H. discriminate.
  - intros Hv. rewrite forward_unfold.
    rewrite (flatten_trailing_viewable Hv).
    destruct (Nat.ltb_spec (length (shape features)) 3) as [Hlt|_].
    { destruct Hv as [Hv|[Hv _]]; lia. }
    simpl. split.
    + intros H. destruct labels as [l|], mask as [m|]; simpl in H;
        try discriminate.
      * destruct (Nat.eqb_spec (length l) (nth 0 (shape features) 0));
          simpl in H.
        -- apply forward_with_mask_errors in H. discriminate.
        -- exists l. auto.
      * apply forward_with_mask_errors in H. discriminate.
      * apply forward_with_mask_errors in H. discriminate.
    + intros [l [-> [-> Hne]]]. simpl.
      destruct (Nat.eqb_spec (length l) (nth 0 (shape features) 0));
        [contradiction|reflexivity].
  - intros l -> Hne. rewrite forward_unfold.
    destruct (_ <? 3); [eauto|].
    destruct (flatten_trailing features); simpl; [|eauto].
    destruct mask; simpl; [eauto|].
    destruct (Nat.eqb_spec (length l) (nth 0 (shape features) 0));
      [contradiction|simpl; eauto].
Qed.

Lemma shape_mismatch_errors_witness :
  (forward SupConLoss_default (mkTensor [2; 1] [Fin 1; Fin 1]) None None =
   Raise (ValueError msg_dims))
  /\
  (forward SupConLoss_default (mkTensor [1; 2; 1] [Fin 1; Fin 1])
           (Some [0%Z; 1%Z]) None = Raise (ValueError msg_labels))
  /\
  (exists e,
     forward SupConLoss_default (mkTensor [1; 2; 1] [Fin 1; Fin 1])
             (Some [0%Z; 1%Z]) (Some [[Fin 1]]) = Raise e).
Proof.
  split; [|split].
  - apply (shape_mismatch_errors SupConLoss_default
             (mkTensor [2; 1] [Fin 1; Fin 1]) None None).
    simpl; lia.
  - apply (shape_mismatch_errors SupConLoss_default
             (mkTensor [1; 2; 1] [Fin 1; Fin 1]) (Some [0%Z; 1%Z]) None).
    + left; reflexivity.
    + exists [0%Z; 1%Z]. simpl. repeat split; lia.
  - destruct (shape_mismatch_errors SupConLoss_default
                (mkTensor [1; 2; 1] [Fin 1; Fin 1]) (Some [0%Z; 1%Z])
                (Some [[Fin 1]])) as [_ [_ H]].
    apply (H [0%Z; 1%Z]); simpl; [reflexivity | lia].
Defined.

(** ** Closed form of the loss on tabulated matrices *)

Lemma broadcast1_singleton {A B C : Type} (f : A -> B -> C) (a : list A)
  (m : B) :
  broadcast1 f a [m] = Return (map (fun x => f x m) a).
Proof.
  unfold broadcast1, bcast_len. simpl length.
  assert (Hrep : forall l : list A,
             zip_with f l (repeat m (length l)) = map (fun x => f x m) l).
  { induction l as [|x l IH]; simpl; [reflexivity|]. now rewrite IH. }
  destruct (Nat.eqb_spec (length a) 1) as [H1|H1].
  - rewrite !expand_same by (auto; reflexivity).
    destruct a as [|x [|y a]]; simpl in H1; try lia. reflexivity.
  - simpl. rewrite expand_same by reflexivity.
    unfold expand. simpl length.
    destruct (Nat.eqb_spec 1 (length a)); [lia|]. now rewrite Hrep.
Qed.

Lemma broadcast2_col h R C f g :
  broadcast2 h (tab R C f) (tab R 1 g) =
  Return (tab R C (fun p q => h (f p q) (g p 0))).
Proof.
  unfold broadcast2.
  destruct (tab_rect R C f) as [Hf _]. destruct (tab_rect R 1 g) as [Hg _].
  rewrite Hf, Hg, bcast_len_same.
  rewrite !expand_same by assumption.
  unfold tab. rewrite zip_with_map_seq.
  erewrite map_ext.
  2:{ intros p. simpl. rewrite broadcast1_singleton.
      rewrite map_map. reflexivity. }
  now rewrite (sequence_map_Return
    (fun p => map (fun q => h (f p q) (g p 0)) (seq 0 C))).
Qed.

Lemma map_tab (h : float -> float) R C f :
  map (map h) (tab R C f) = tab R C (fun p q => h (f p q)).
Proof.
  unfold tab. rewrite map_map. apply map_ext. intros p. now rewrite map_map.
Qed.

Lemma sum1_tab R C f :
  sum1 (tab R C f) = map (fun p => sum (map (f p) (seq 0 C))) (seq 0 R).
Proof. unfold sum1, tab. now rewrite map_map. Qed.

Lemma sum1_keepdim_tab R C f :
  sum1_keepdim (tab R C f) =
  tab R 1 (fun p _ => sum (map (f p) (seq 0 C))).
Proof. unfold sum1_keepdim, tab. now rewrite map_map. Qed.

Lemma max1_keepdim_tab R C f :
  1 <= R -> 1 <= C ->
  max1_keepdim (tab R C f) =
  Return (tab R 1 (fun p _ => max_row (map (f p) (seq 0 C)))).
Proof.
  intros HR HC. unfold max1_keepdim.
  assert (E : ncols (tab R C f) = C).
  { destruct R as [|R]; [lia|]. unfold tab. simpl.
    now rewrite length_map, length_seq. }
  rewrite E. destruct (Nat.eqb_spec C 0); [lia|].
  unfold tab. now rewrite map_map.
Qed.

Section ClosedForm.

Variable self : SupConLoss.
Variables A M : nat.
(** the scaled similarities and the tiled mask with self-contrast removed *)
Variables a mk : nat -> nat -> float.

Definition row_max (p : nat) : float := max_row (map (a p) (seq 0 M)).

Definition logit (p q : nat) : float := sub (a p q) (row_max p).

Definition exp_logit (p q : nat) : float :=
  mul (exp (logit p q)) (self_mask p q).

Definition log_prob (p q : nat) : float :=
  sub (logit p q) (log (sum (map (exp_logit p) (seq 0 M)))).

Definition mean_log_prob_pos (p : nat) : float :=
  div (sum (map (fun q => mul (mk p q) (log_prob p q)) (seq 0 M)))
      (sum (map (mk p) (seq 0 M))).

Definition row_loss (p : nat) : float :=
  mul (Fin (- (temperature self / base_temperature self)))
      (mean_log_prob_pos p).

Definition mean_loss : float :=
  div (sum (map row_loss (seq 0 A))) (Fin (INR A)).

End ClosedForm.

Definition tiled (N : nat) (f : nat -> nat -> float) (p q : nat) : float :=
  mul (f (p mod N) (q mod N)) (self_mask p q).

Lemma loss_of_similarity_tab self N ac cc f a :
  1 <= ac * N -> ac <= cc -> base_temperature self <> 0%R ->
  loss_of_similarity self N ac cc (tab N N f) (tab (ac * N) (cc * N) a) =
  Return (mean_loss self (ac * N) (cc * N) a (tiled N f)).
Proof.
  intros HA Hle HbT. unfold loss_of_similarity.
  assert (HM : 1 <= cc * N) by nia.
  rewrite max1_keepdim_tab by assumption. simpl.
  unfold sub_t. rewrite broadcast2_col. simpl.
  rewrite tile_mask_tab by assumption. simpl.
  unfold exp_t. rewrite map_tab. unfold mul_t. rewrite broadcast2_tab. simpl.
  rewrite sum1_keepdim_tab. unfold log_t. rewrite map_tab.
  rewrite broadcast2_col. simpl.
  rewrite broadcast2_tab. simpl.
  rewrite !sum1_tab. unfold div_v.
  rewrite broadcast1_same by now rewrite !length_map.
  rewrite zip_with_map_seq. simpl.
  unfold py_div. destruct (Req_dec_T (base_temperature self) 0);
    [contradiction|]. simpl.
  unfold view_mean, scale. rewrite !length_map, length_seq.
  rewrite (Nat.mul_comm ac N) at 1.
  rewrite Nat.mul_comm, Nat.eqb_refl.
  rewrite map_map. reflexivity.
Qed.

(** ** Labels that are pairwise distinct *)

Lemma eq_T_distinct labels :
  NoDup labels -> eq_T labels = eye (length labels).
Proof.
  intros Hnd. rewrite eq_T_tab, eye_tab. apply tab_ext.
  intros i j Hi Hj.
  destruct (Nat.eqb_spec i j) as [->|Hne].
  - now rewrite Z.eqb_refl.
  - destruct (Z.eqb_spec (nth i labels 0%Z) (nth j labels 0%Z)) as [E|];
      [|reflexivity].
    exfalso. apply Hne.
    exact (proj1 (NoDup_nth labels 0%Z) Hnd i j Hi Hj E).
Qed.

Lemma forward_distinct_labels self features labels :
  NoDup labels -> length labels = nth 0 (shape features) 0 ->
  forward self features (Some labels) None = forward self features None None.
Proof.
  intros Hnd Hlen. rewrite !forward_unfold.
  destruct (_ <? 3); [reflexivity|].
  destruct (flatten_trailing features); simpl; [|reflexivity].
  rewrite Hlen, Nat.eqb_refl. simpl.
  rewrite eq_T_distinct by assumption. now rewrite Hlen.
Qed.

(** C6. For a batch of two samples with two views each, [labels = [0, 1]]
    gives exactly the result of the call without labels. *)
Theorem labels_0_1_reproduce_identity (self : SupConLoss) (D : nat)
  (entries : list float) :
  forward self (mkTensor [2; 2; D] entries) (Some [0; 1]%Z) None =
  forward self (mkTensor [2; 2; D] entries) None None.
Proof.
  apply forward_distinct_labels; [|reflexivity].
  repeat constructor; simpl; intuition discriminate.
Qed.

(** ** [calculate_accuracy] *)

Module AccuracyFacts.
Import Accuracy.

Lemma calculate_accuracy_single (x : Q) (row : list Q) (t : Z) :
  calculate_accuracy [x :: row] [t] =
  Return (Ratio (if Bool.eqb (Z.eqb t 1) (Nat.eqb (argmax_from x 0 1 row) 1)
                 then 1 # 1 else 0 # 1)).
Proof.
  unfold calculate_accuracy. simpl.
  unfold broadcast1, bcast_len, expand. simpl.
  now destruct (Bool.eqb _ _).
Qed.

(** C9. On one sample, [calculate_accuracy] reports whether "the target is
    class 1" agrees with "the argmax is class 1"; on the scores (1, 0, 0)
    with target class 2 it returns 1 where the top-1 accuracy is 0. *)
Theorem accuracy_is_not_top1 :
  (forall x row t,
     calculate_accuracy [x :: row] [t] =
     Return (Ratio (if Bool.eqb (Z.eqb t 1)
                                (Nat.eqb (argmax_from x 0 1 row) 1)
                    then 1 # 1 else 0 # 1))) /\
  exists output target a b,
    calculate_accuracy output target = Return (Ratio a) /\
    top1_accuracy output target = Return (Ratio b) /\
    ~ (a == b)%Q.
Proof.
  split; [exact calculate_accuracy_single|].
  exists [[1 # 1; 0 # 1; 0 # 1]], [2%Z], (1 # 1), (0 # 1).
  repeat split; discriminate.
Qed.

End AccuracyFacts.

(** ** Closed form of [forward] *)

Definition known_mode (self : SupConLoss) : Prop :=
  contrast_mode self = "all" \/ contrast_mode self = "one".

Definition anchor_count_of (self : SupConLoss) (V : nat) : nat :=
  if String.eqb (contrast_mode self) "one" then 1 else V.

Definition contrast_of (features : Tensor) : matrix :=
  concat (unbind1 (nth 1 (shape features) 0) (view3 features)).

Definition anchor_of (self : SupConLoss) (features : Tensor) : matrix :=
  if String.eqb (contrast_mode self) "one"
  then map (fun sample => nth 0 sample []) (view3 features)
  else contrast_of features.

Definition similarity_of (self : SupConLoss) (features : Tensor) : matrix :=
  similarity self (anchor_of self features) (contrast_of features).

Lemma length_chunks {A : Type} (k n : nat) (l : list A) :
  length (chunks k n l) = n.
Proof.
  revert l; induction n as [|n IH]; intros l; simpl; [reflexivity|].
  now rewrite IH.
Qed.

Lemma length_view3 features :
  length (view3 features) = nth 0 (shape features) 0.
Proof. unfold view3. now rewrite length_map, length_chunks. Qed.

Lemma length_concat_map_seq {A : Type} (g : nat -> list A) (n s V : nat) :
  (forall v, length (g v) = n) ->
  length (concat (map g (seq s V))) = V * n.
Proof.
  intros Hg. revert s; induction V as [|V IH]; intros s; simpl; [reflexivity|].
  now rewrite length_app, Hg, IH.
Qed.

Lemma length_contrast_of features :
  length (contrast_of features) =
  nth 1 (shape features) 0 * nth 0 (shape features) 0.
Proof.
  unfold contrast_of, unbind1. apply length_concat_map_seq.
  intros v. now rewrite length_map, length_view3.
Qed.

Lemma length_anchor_of self features :
  length (anchor_of self features) =
  anchor_count_of self (nth 1 (shape features) 0) * nth 0 (shape features) 0.
Proof.
  unfold anchor_of, anchor_count_of.
  destruct (String.eqb (contrast_mode self) "one").
  - rewrite length_map, length_view3. lia.
  - apply length_contrast_of.
Qed.

Lemma similarity_rect self x y : rect (length x) (length y) (similarity self x y).
Proof.
  unfold similarity, div_scalar, matmul_T. split.
  - now rewrite !length_map.
  - apply Forall_forall. intros r Hr. rewrite map_map in Hr.
    apply in_map_iff in Hr as [u [<- _]]. now rewrite !length_map.
Qed.

Lemma anchor_count_le self V : 1 <= V -> anchor_count_of self V <= V.
Proof. unfold anchor_count_of. destruct (String.eqb _ _); lia. Qed.

Lemma anchor_count_pos self V : 1 <= V -> 1 <= anchor_count_of self V.
Proof. unfold anchor_count_of. destruct (String.eqb _ _); lia. Qed.

Lemma forward_closed_form self features labels mask B :
  let N := nth 0 (shape features) 0 in
  let V := nth 1 (shape features) 0 in
  viewable features -> 1 <= N -> 1 <= V -> known_mode self ->
  base_temperature self <> 0%R ->
  select_mask N labels mask = Return B -> rect N N B ->
  forward self features labels mask =
  Return (mean_loss self (anchor_count_of self V * N) (V * N)
            (entry (similarity_of self features)) (tiled N (entry B))).
Proof.
  intros N V Hv HN HV Hmode HbT Hsel HB.
  rewrite forward_unfold, (flatten_trailing_viewable Hv).
  destruct (Nat.ltb_spec (length (shape features)) 3) as [Hlt|_].
  { destruct Hv as [Hv|[Hv _]]; lia. }
  simpl. fold N. rewrite Hsel. simpl.
  unfold forward_with_mask. fold N V.
  assert (Hcat : cat0 (unbind1 V (view3 features)) =
                 Return (contrast_of features)).
  { unfold contrast_of, unbind1. fold V.
    destruct V as [|V']; [lia|]. reflexivity. }
  rewrite Hcat. simpl.
  pose proof (length_anchor_of self features) as HlenA.
  pose proof (length_contrast_of features) as HlenC.
  fold N V in HlenA, HlenC.
  pose proof (similarity_rect self (anchor_of self features)
                (contrast_of features)) as Hrect.
  rewrite HlenA, HlenC in Hrect. fold (similarity_of self features) in Hrect.
  assert (Hgoal :
    loss_of_similarity self N (anchor_count_of self V) V B
      (similarity_of self features) =
    Return (mean_loss self (anchor_count_of self V * N) (V * N)
              (entry (similarity_of self features)) (tiled N (entry B)))).
  { rewrite (rect_eq_tab HB) at 1. rewrite (rect_eq_tab Hrect) at 1.
    apply loss_of_similarity_tab.
    - pose proof (anchor_count_pos self HV). nia.
    - now apply anchor_count_le.
    - assumption. }
  unfold similarity_of, anchor_of, anchor_count_of in *.
  destruct Hmode as [Hm|Hm]; rewrite Hm in *; simpl in *; exact Hgoal.
Qed.

(** ** A mask row without positives *)

Lemma add_NaN_r x : add x NaN = NaN.
Proof. now destruct x. Qed.

Lemma sum_NaN_member (l : list float) : In NaN l -> sum l = NaN.
Proof.
  unfold sum. induction l as [|x l IH]; intros H; [contradiction|]. simpl.
  destruct H as [->|H]; [reflexivity|]. rewrite IH by assumption.
  apply add_NaN_r.
Qed.

Lemma mul_zero_cases x : mul (Fin 0) x = Fin 0 \/ mul (Fin 0) x = NaN.
Proof.
  destruct x as [r| | |]; simpl; auto.
  - left. f_equal. lra.
  - unfold scale_inf. destruct (total_order_T 0 0) as [[H|H]|H]; auto; lra.
  - unfold scale_inf. destruct (total_order_T 0 0) as [[H|H]|H]; auto; lra.
Qed.

Lemma sum_zero_products (g : nat -> float) (l : list nat) :
  sum (map (fun q => mul (Fin 0) (g q)) l) = Fin 0 \/
  sum (map (fun q => mul (Fin 0) (g q)) l) = NaN.
Proof.
  unfold sum. induction l as [|x l IH]; cbn [map fold_right]; [now left|].
  destruct IH as [-> | ->]; [|right; apply add_NaN_r].
  destruct (mul_zero_cases (g x)) as [-> | ->]; simpl; [left|right]; auto.
  f_equal. lra.
Qed.

Lemma div_zero_zero x : x = Fin 0 \/ x = NaN -> div x (Fin 0) = NaN.
Proof.
  intros [-> | ->]; [|reflexivity]. simpl.
  destruct (Req_dec_T 0 0) as [_|H]; [|contradiction].
  unfold scale_inf. destruct (total_order_T 0 0) as [[H|H]|H]; auto; lra.
Qed.

(** A row of zeros and ones has a finite, non-negative sum; if the sum is
    zero the row holds zeros only. *)
Lemma binary_row_sum (g : nat -> float) (l : list nat) :
  (forall q, In q l -> g q = zero \/ g q = one) ->
  exists s, sum (map g l) = Fin s /\ (0 <= s)%R /\
            (forall q, In q l -> g q = one -> (1 <= s)%R).
Proof.
  unfold sum. induction l as [|x l IH]; intros Hb; cbn [map fold_right].
  - exists 0%R. repeat split; [lra|contradiction].
  - destruct IH as [s [Hs [Hpos Hone]]].
    { intros q Hq. apply Hb. now right. }
    rewrite Hs.
    destruct (Hb x (or_introl eq_refl)) as [Hx|Hx]; rewrite Hx.
    + exists (0 + s)%R. repeat split; [lra|].
      intros q [<-|Hq] Hq1.
      * rewrite Hx in Hq1. unfold zero, one in Hq1. injection Hq1. lra.
      * specialize (Hone q Hq Hq1). lra.
    + exists (1 + s)%R. repeat split; [lra|]. intros; lra.
Qed.

Lemma zero_sum_row (g : nat -> float) (l : list nat) :
  (forall q, In q l -> g q = zero \/ g q = one) ->
  sum (map g l) = zero ->
  forall q, In q l -> g q = zero.
Proof.
  intros Hb Hsum q Hq.
  destruct (binary_row_sum g l Hb) as [s [Hs [_ Hone]]].
  destruct (Hb q Hq) as [H0|H1]; [assumption|].
  specialize (Hone q Hq H1). rewrite Hs in Hsum.
  unfold zero in Hsum. injection Hsum. lra.
Qed.

Definition binary_mask (N : nat) (B : matrix) : Prop :=
  rect N N B /\
  forall i j, i < N -> j < N -> entry B i j = zero \/ entry B i j = one.

(** Some row of the tiled mask sums to zero once self-contrast is removed. *)
Definition degenerate (N anchor_count contrast_count : nat) (B : matrix)
  : Prop :=
  exists mask' logits_mask p,
    tile_mask N anchor_count contrast_count B = Return (mask', logits_mask) /\
    p < length mask' /\ sum (nth p mask' []) = zero.

Lemma tiled_binary N f p q :
  1 <= N ->
  (forall i j, i < N -> j < N -> f i j = zero \/ f i j = one) ->
  tiled N f p q = zero \/ tiled N f p q = one.
Proof.
  intros HN Hf. unfold tiled, self_mask.
  assert (Hp : p mod N < N) by (apply Nat.mod_upper_bound; lia).
  assert (Hq : q mod N < N) by (apply Nat.mod_upper_bound; lia).
  destruct (Hf _ _ Hp Hq) as [-> | ->], (q =? p); unfold zero, one; simpl;
    [left|left|left|right]; f_equal; lra.
Qed.

Lemma tile_mask_rect N ac cc B :
  rect N N B -> ac <= cc ->
  tile_mask N ac cc B =
  Return (tab (ac * N) (cc * N) (tiled N (entry B)),
          tab (ac * N) (cc * N) self_mask).
Proof.
  intros HB Hle. rewrite (rect_eq_tab HB) at 1.
  now rewrite tile_mask_tab.
Qed.

Lemma row_loss_degenerate self M a mk p :
  (forall q, q < M -> mk p q = zero \/ mk p q = one) ->
  sum (map (mk p) (seq 0 M)) = zero ->
  row_loss self M a mk p = NaN.
Proof.
  intros Hb Hsum. unfold row_loss, mean_log_prob_pos. rewrite Hsum.
  assert (Hz : forall q, In q (seq 0 M) -> mk p q = zero).
  { apply zero_sum_row; [|assumption].
    intros q Hq. apply in_seq in Hq. apply Hb. lia. }
  erewrite map_ext_in.
  2:{ intros q Hq. rewrite (Hz q Hq). reflexivity. }
  unfold zero. rewrite div_zero_zero by apply sum_zero_products.
  reflexivity.
Qed.

Lemma forward_degenerate_nan self features labels mask B :
  let N := nth 0 (shape features) 0 in
  let V := nth 1 (shape features) 0 in
  viewable features -> 1 <= N -> 1 <= V -> known_mode self ->
  base_temperature self <> 0%R ->
  select_mask N labels mask = Return B -> binary_mask N B ->
  degenerate N (anchor_count_of self V) V B ->
  forward self features labels mask = Return NaN.
Proof.
  intros N V Hv HN HV Hmode HbT Hsel [HB Hbin] Hdeg.
  rewrite (@forward_closed_form self features labels mask B Hv HN HV Hmode
             HbT Hsel HB).
  fold N V. f_equal. unfold mean_loss.
  destruct Hdeg as [mask' [lm [p [Htile [Hp Hsum]]]]].
  rewrite (tile_mask_rect HB (anchor_count_le self HV)) in Htile.
  injection Htile as <- _.
  destruct (tab_rect (anchor_count_of self V * N) (V * N)
              (tiled N (entry B))) as [Hlen _].
  rewrite Hlen in Hp. rewrite row_tab in Hsum by assumption.
  rewrite sum_NaN_member; [reflexivity|].
  apply in_map_iff. exists p. split; [|apply in_seq; lia].
  apply row_loss_degenerate; [|exact Hsum].
  intros q _. now apply tiled_binary.
Qed.

(** C3 (as the code behaves). When some row of the tiled 0/1 mask sums to
    zero after self-exclusion, [forward] raises nothing: it returns NaN.
    (The batch and the views are non-empty, the contrast mode is known and
    [base_temperature] is not zero, so that no other error is raised.) *)
Theorem degenerate_mask_returns_nan (self : SupConLoss) (features : Tensor)
  (labels : option (list Z)) (mask : option matrix) (B : matrix) :
  let N := nth 0 (shape features) 0 in
  let V := nth 1 (shape features) 0 in
  viewable features -> 1 <= N -> 1 <= V -> known_mode self ->
  base_temperature self <> 0%R ->
  select_mask N labels mask = Return B -> binary_mask N B ->
  degenerate N (anchor_count_of self V) V B ->
  forward self features labels mask = Return NaN /\
  forall e, forward self features labels mask <> Raise e.
Proof.
  intros N V Hv HN HV Hmode HbT Hsel HB Hdeg.
  rewrite (@forward_degenerate_nan self features labels mask B
             Hv HN HV Hmode HbT Hsel HB Hdeg).
  split; [reflexivity|discriminate].
Qed.

Lemma default_base_temperature_nonzero :
  base_temperature SupConLoss_default <> 0%R.
Proof. simpl. lra. Qed.

Lemma binary_mask_eye N : binary_mask N (eye N).
Proof.
  split; [rewrite eye_tab; apply tab_rect|].
  intros i j Hi Hj. rewrite eye_tab, entry_tab by assumption.
  destruct (i =? j); auto.
Qed.

Lemma binary_mask_eq_T labels : binary_mask (length labels) (eq_T labels).
Proof.
  split; [rewrite eq_T_tab; apply tab_rect|].
  intros i j Hi Hj. rewrite eq_T_tab, entry_tab by assumption.
  destruct (Z.eqb _ _); auto.
Qed.

Lemma degenerate_single_view : degenerate 2 1 1 (eye 2).
Proof.
  unfold degenerate. do 2 eexists. exists 0.
  split; [reflexivity|]. split; [simpl; lia|].
  unfold sum, zero. simpl. f_equal. lra.
Qed.

Lemma degenerate_zero_mask : degenerate 1 2 2 [[zero]].
Proof.
  unfold degenerate. do 2 eexists. exists 0.
  split; [reflexivity|]. split; [simpl; lia|].
  unfold sum, zero. simpl. f_equal. lra.
Qed.

Lemma binary_mask_zero : binary_mask 1 [[zero]].
Proof.
  split; [split; [reflexivity|repeat constructor]|].
  intros [|i] [|j] Hi Hj; try lia. now left.
Qed.

(** With one view per sample and no labels, every row of the mask is zero
    after self-exclusion, and the loss of the default [SupConLoss()] is NaN:
    no error is raised. *)
Lemma degenerate_mask_silent_nan :
  select_mask 2 None None = Return (eye 2) /\
  degenerate 2 1 1 (eye 2) /\
  forward SupConLoss_default (mkTensor [2; 1; 1] [Fin 1; Fin 1]) None None =
  Return NaN /\
  ~ (exists e,
       forward SupConLoss_default (mkTensor [2; 1; 1] [Fin 1; Fin 1])
               None None = Raise e).
Proof.
  assert (H : forward SupConLoss_default (mkTensor [2; 1; 1] [Fin 1; Fin 1])
                None None = Return NaN).
  { apply (@forward_degenerate_nan SupConLoss_default
             (mkTensor [2; 1; 1] [Fin 1; Fin 1]) None None (eye 2)).
    - left; reflexivity.
    - simpl; lia.
    - simpl; lia.
    - left; reflexivity.
    - apply default_base_temperature_nonzero.
    - reflexivity.
    - apply binary_mask_eye.
    - apply degenerate_single_view. }
  split; [reflexivity|]. split; [apply degenerate_single_view|].
  split; [exact H|]. intros [e He]. rewrite H in He. discriminate.
Qed.

Lemma degenerate_mask_returns_nan_witness :
  forward SupConLoss_default (mkTensor [1; 2; 1] [Fin 1; Fin 1]) None
          (Some [[zero]]) = Return NaN /\
  forall e,
    forward SupConLoss_default (mkTensor [1; 2; 1] [Fin 1; Fin 1]) None
            (Some [[zero]]) <> Raise e.
Proof.
  apply (@degenerate_mask_returns_nan SupConLoss_default
           (mkTensor [1; 2; 1] [Fin 1; Fin 1]) None (Some [[zero]]) [[zero]]).
  - left; reflexivity.
  - simpl; lia.
  - simpl; lia.
  - left; reflexivity.
  - apply default_base_temperature_nonzero.
  - reflexivity.
  - apply binary_mask_zero.
  - apply degenerate_zero_mask.
Defined.

(** ** The stability shift *)

(** "for numerical stability": the logits of [forward]. *)
Definition stable_logits (anchor_dot_contrast : matrix) : result matrix :=
  logits_max <- max1_keepdim anchor_dot_contrast ;;
  sub_t anchor_dot_contrast logits_max.

(** The rest of [forward], from "tile mask" on. *)
Definition loss_of_logits (self : SupConLoss)
  (batch_size anchor_count contrast_count : nat) (mask : matrix)
  (logits : matrix) : result float :=
  '(mask, logits_mask) <-
    tile_mask batch_size anchor_count contrast_count mask ;;
  exp_logits <- mul_t (exp_t logits) logits_mask ;;
  log_prob <- sub_t logits (log_t (sum1_keepdim exp_logits)) ;;
  mask_log_prob <- mul_t mask log_prob ;;
  mean_log_prob_pos <- div_v (sum1 mask_log_prob) (sum1 mask) ;;
  ratio <- py_div (temperature self) (base_temperature self) ;;
  let loss := scale (Fin (- ratio)) mean_log_prob_pos in
  view_mean anchor_count batch_size loss.

Lemma loss_of_similarity_logits self N ac cc mask adc :
  loss_of_similarity self N ac cc mask adc =
  logits <- stable_logits adc ;; loss_of_logits self N ac cc mask logits.
Proof.
  unfold loss_of_similarity, stable_logits.
  destruct (max1_keepdim adc); reflexivity.
Qed.

Lemma zip_with_map_r {A B C : Type} (f : A -> B -> C) (g : A -> B) l :
  zip_with f l (map g l) = map (fun x => f x (g x)) l.
Proof. induction l as [|x l IH]; simpl; [reflexivity|]. now rewrite IH. Qed.

Lemma stable_logits_rows (X : matrix) :
  ncols X <> 0 ->
  stable_logits X =
  Return (map (fun r => map (fun x => sub x (max_row r)) r) X).
Proof.
  intros Hc. unfold stable_logits, max1_keepdim.
  destruct (Nat.eqb_spec (ncols X) 0); [contradiction|]. simpl.
  unfold sub_t, broadcast2. rewrite length_map, bcast_len_same.
  rewrite !expand_same by (now rewrite ?length_map).
  rewrite zip_with_map_r.
  erewrite map_ext.
  2:{ intros r. rewrite broadcast1_singleton. reflexivity. }
  now rewrite (sequence_map_Return
                 (fun r => map (fun x => sub x (max_row r)) r)).
Qed.

Definition Rmax_row (x : R) (r : list R) : R := fold_left Rmax r x.

Lemma max_row_Fin (f : R -> R) (x : R) (r : list R) :
  (forall u v, f (Rmax u v) = Rmax (f u) (f v)) ->
  max_row (map (fun y => Fin (f y)) (x :: r)) = Fin (f (Rmax_row x r)).
Proof.
  intros Hf. unfold Rmax_row. simpl. revert x.
  induction r as [|y r IH]; intros x; simpl; [reflexivity|].
  rewrite <- Hf. apply IH.
Qed.

Lemma Rmax_shift (u v c : R) : (Rmax u v + c = Rmax (u + c) (v + c))%R.
Proof.
  unfold Rmax. destruct (Rle_dec u v), (Rle_dec (u + c) (v + c)); lra.
Qed.

Lemma ncols_map (f g : R -> float) (S : list (list R)) :
  ncols (map (map f) S) = ncols (map (map g) S).
Proof. destruct S as [|r S]; simpl; [reflexivity|]. now rewrite !length_map. Qed.

Lemma stable_logits_shift (S : list (list R)) (c : R) :
  stable_logits (map (map (fun x => Fin (x + c))) S) =
  stable_logits (map (map Fin) S).
Proof.
  destruct (Nat.eq_dec (ncols (map (map Fin) S)) 0) as [Hz|Hnz].
  - unfold stable_logits, max1_keepdim.
    rewrite (ncols_map (fun x => Fin (x + c)) Fin), Hz. reflexivity.
  - rewrite !stable_logits_rows
      by (try rewrite (ncols_map (fun x => Fin (x + c)) Fin); assumption).
    f_equal. rewrite !map_map. apply map_ext. intros r.
    rewrite !map_map. destruct r as [|x r]; [reflexivity|].
    rewrite (max_row_Fin (fun y => (y + c)%R)).
    2:{ intros u v. apply Rmax_shift. }
    rewrite (max_row_Fin (fun y => y)) by reflexivity.
    apply map_ext. intros y. simpl. f_equal. lra.
Qed.

(** C2. Adding one constant [c] to every entry of the (finite) similarity
    matrix before the row maximum is subtracted changes neither the loss
    nor an error: the engine returns the same result. *)
Theorem loss_invariant_under_shift (self : SupConLoss)
  (batch_size anchor_count contrast_count : nat) (mask : matrix)
  (S : list (list R)) (c : R) :
  loss_of_similarity self batch_size anchor_count contrast_count mask
    (map (map (fun x => Fin (x + c))) S) =
  loss_of_similarity self batch_size anchor_count contrast_count mask
    (map (map Fin) S).
Proof.
  rewrite !loss_of_similarity_logits. now rewrite stable_logits_shift.
Qed.

(** ** Sign of the loss *)

Abbreviation Rexp := Rtrigo_def.exp.

Definition to_R (x : float) : R :=
  match x with
  | Fin r => r
  | _ => 0%R
  end.

Lemma finite_to_R x : is_finite x -> x = Fin (to_R x).
Proof. destruct x; simpl; intros H; [reflexivity|contradiction..]. Qed.

Lemma max_row_finite (l : list float) :
  l <> [] -> Forall is_finite l -> is_finite (max_row l).
Proof.
  destruct l as [|x l]; [congruence|]. intros _ H. simpl.
  inversion H as [|? ? Hx Hl]; subst. clear H. revert x Hx.
  induction Hl as [|y l Hy _ IH]; intros x Hx; simpl; [assumption|].
  apply IH. destruct x, y; simpl in *; auto.
Qed.

Lemma sum_signed (nonneg : bool) (g : nat -> float) (l : list nat) :
  (forall q, In q l ->
     exists t, g q = Fin t /\ if nonneg then (0 <= t)%R else (t <= 0)%R) ->
  exists s, sum (map g l) = Fin s /\
            if nonneg then (0 <= s)%R else (s <= 0)%R.
Proof.
  unfold sum. induction l as [|x l IH]; intros H; cbn [map fold_right].
  - exists 0%R. split; [reflexivity|]. destruct nonneg; lra.
  - destruct IH as [s [Hs Hsign]]. { intros q Hq. apply H. now right. }
    destruct (H x (or_introl eq_refl)) as [t [Ht Htsign]].
    rewrite Hs, Ht. exists (t + s)%R. split; [reflexivity|].
    destruct nonneg; lra.
Qed.

Lemma exp_le_ln (x s : R) : (0 < s)%R -> (Rexp x <= s)%R -> (x <= ln s)%R.
Proof.
  intros Hs Hle. destruct (Rle_or_lt x (ln s)) as [|Hlt]; [assumption|].
  apply exp_increasing in Hlt. rewrite exp_ln in Hlt by assumption. lra.
Qed.

Lemma log_positive s : (0 < s)%R -> log (Fin s) = Fin (ln s).
Proof.
  intros Hs. simpl. destruct (total_order_T 0 s) as [[H|H]|H];
    [reflexivity|lra|lra].
Qed.

Lemma div_Fin x y : y <> 0%R -> div (Fin x) (Fin y) = Fin (x / y).
Proof. intros Hy. simpl. destruct (Req_dec_T y 0); [contradiction|reflexivity]. Qed.

(** The real value of the exponential of a finite entry: 0 as soon as
    [e^v] is at most [exp_underflow]. *)
Definition exp32 (v : R) : R :=
  if Rle_dec (Rexp v) exp_underflow then 0%R else Rexp v.

Lemma exp_Fin v : exp (Fin v) = Fin (exp32 v).
Proof. unfold exp32. simpl. destruct (Rle_dec _ _); reflexivity. Qed.

Lemma exp_underflow_pos : (0 < exp_underflow)%R.
Proof. unfold exp_underflow. apply Rinv_0_lt_compat, pow_lt. lra. Qed.

Lemma exp32_cases v :
  (exp32 v = 0 /\ Rexp v <= exp_underflow)%R \/
  (exp32 v = Rexp v /\ exp_underflow < Rexp v)%R.
Proof. unfold exp32. destruct (Rle_dec _ _); [left|right]; split; lra. Qed.

Lemma exp_nonzero v : exp (Fin v) <> zero <-> (exp_underflow < Rexp v)%R.
Proof.
  rewrite exp_Fin. pose proof exp_underflow_pos as Hu.
  destruct (exp32_cases v) as [[E H]|[E H]]; rewrite E; split.
  - intros Hne. exfalso. now apply Hne.
  - lra.
  - intros _. assumption.
  - intros _ Heq. unfold zero in Heq. injection Heq. lra.
Qed.


(** A sum of numbers that are 0 or above [u] is 0 or above [u]. *)
Lemma Rsum_gap (u : R) (g : nat -> R) (l : list nat) :
  (0 < u)%R ->
  (forall q, In q l -> g q = 0%R \/ (u < g q)%R) ->
  Rsum (map g l) = 0%R \/ (u < Rsum (map g l))%R.
Proof.
  intros Hu. induction l as [|x l IH]; intros H; simpl; [now left|].
  destruct IH as [E|E]. { intros q Hq. apply H. now right. }
  - destruct (H x (or_introl eq_refl)) as [Hx|Hx]; [left|right]; lra.
  - destruct (H x (or_introl eq_refl)) as [Hx|Hx]; right; lra.
Qed.

Lemma Rsum_zero (g : nat -> R) (l : list nat) :
  (forall q, In q l -> g q = 0%R) -> Rsum (map g l) = 0%R.
Proof.
  induction l as [|x l IH]; intros H; simpl; [reflexivity|].
  rewrite IH by (intros q Hq; apply H; now right).
  rewrite (H x (or_introl eq_refl)). lra.
Qed.

(** A sum of terms that are NaN or finite and non-negative is NaN or finite
    and non-negative. *)
Lemma sum_nan_or_nonneg (g : nat -> float) (l : list nat) :
  (forall q, In q l -> g q = NaN \/ exists t, g q = Fin t /\ (0 <= t)%R) ->
  sum (map g l) = NaN \/ exists s, sum (map g l) = Fin s /\ (0 <= s)%R.
Proof.
  unfold sum. induction l as [|x l IH]; intros H; cbn [map fold_right].
  - right. exists 0%R. split; [reflexivity|lra].
  - destruct IH as [E|[s [E Hs]]]. { intros q Hq. apply H. now right. }
    + left. rewrite E. apply add_NaN_r.
    + rewrite E. destruct (H x (or_introl eq_refl)) as [Hx|[t [Hx Ht]]];
        rewrite Hx; [now left|].
      right. exists (t + s)%R. split; [reflexivity|lra].
Qed.

Lemma bounded_dichotomy (P Q : nat -> Prop) (M : nat) :
  (forall q, q < M -> P q \/ Q q) ->
  (exists q, q < M /\ P q) \/ (forall q, q < M -> Q q).
Proof.
  induction M as [|M IH]; intros H; [right; intros q Hq; lia|].
  destruct IH as [[q [Hq HP]]|HQ]. { intros q Hq. apply H. lia. }
  - left. exists q. split; [lia|assumption].
  - destruct (H M) as [HP|HQM]; [lia| |].
    + left. exists M. split; [lia|assumption].
    + right. intros q Hq. destruct (Nat.eq_dec q M) as [->|]; [assumption|].
      apply HQ. lia.
Qed.

(** Row [p] survives when the exponential of the logit of some other column
    is not rounded to 0; it underflows when all of them are. *)
Definition row_survives (M : nat) (a : nat -> nat -> float) (p : nat)
  : Prop :=
  exists q, q < M /\ q <> p /\ exp (logit M a p q) <> zero.

Definition row_underflows (M : nat) (a : nat -> nat -> float) (p : nat)
  : Prop :=
  forall q, q < M -> q <> p -> exp (logit M a p q) = zero.

Section RowSign.

Variable self : SupConLoss.
Variable M : nat.
Variables a mk : nat -> nat -> float.
Variable p : nat.

Hypothesis ratio_nonneg :
  (0 <= temperature self / base_temperature self)%R.
Hypothesis p_column : p < M.
Hypothesis a_finite : forall q, q < M -> is_finite (a p q).
Hypothesis mk_binary : forall q, q < M -> mk p q = zero \/ mk p q = one.
Hypothesis mk_not_self : forall q, q < M -> mk p q = one -> q <> p.
Hypothesis mk_positive : exists q, q < M /\ mk p q = one.

Lemma row_max_finite : exists mx, row_max M a p = Fin mx.
Proof.
  assert (H : is_finite (row_max M a p)).
  { unfold row_max. apply max_row_finite.
    - destruct M; [lia|]. discriminate.
    - apply Forall_forall. intros x Hx. apply in_map_iff in Hx as [q [<- Hq]].
      apply in_seq in Hq. apply a_finite. lia. }
  exists (to_R (row_max M a p)). now apply finite_to_R.
Qed.

Lemma logit_finite :
  exists l : nat -> R, forall q, q < M -> logit M a p q = Fin (l q).
Proof.
  destruct row_max_finite as [mx Hmx].
  exists (fun q => (to_R (a p q) + - mx)%R). intros q Hq.
  unfold logit. rewrite Hmx, (finite_to_R _ (a_finite Hq)). reflexivity.
Qed.

Lemma row_survives_or_underflows :
  row_survives M a p \/ row_underflows M a p.
Proof.
  destruct logit_finite as [l Hl].
  destruct (@bounded_dichotomy
              (fun q => q <> p /\ exp (logit M a p q) <> zero)
              (fun q => q <> p -> exp (logit M a p q) = zero) M)
    as [[q [Hq [Hne Hx]]]|H].
  - intros q Hq. rewrite (Hl q Hq), exp_Fin.
    destruct (Nat.eq_dec q p) as [->|Hne]; [right; congruence|].
    destruct (exp32_cases (l q)) as [[E _]|[E Hu]]; rewrite E.
    + right. reflexivity.
    + left. split; [assumption|]. pose proof exp_underflow_pos.
      intros Heq. unfold zero in Heq. injection Heq. lra.
  - left. exists q. auto.
  - right. exact H.
Qed.

(** The sum of the exponentials of a row over the columns other than [p]. *)
Lemma row_exp_sum :
  exists (l : nat -> R) (S : R),
    (forall q, q < M -> logit M a p q = Fin (l q)) /\
    sum (map (exp_logit M a p) (seq 0 M)) = Fin S /\
    (S = 0 \/ exp_underflow < S)%R /\
    (forall q, q < M -> q <> p -> (exp32 (l q) <= S)%R) /\
    ((forall q, q < M -> q <> p -> exp32 (l q) = 0%R) -> S = 0%R).
Proof.
  destruct logit_finite as [l Hl].
  set (e := fun q => (exp32 (l q) * (if q =? p then 0 else 1))%R).
  assert (He : forall q, q < M -> exp_logit M a p q = Fin (e q)).
  { intros q Hq. unfold exp_logit. rewrite (Hl q Hq), exp_Fin.
    unfold self_mask, e. destruct (q =? p); reflexivity. }
  assert (Hsum : sum (map (exp_logit M a p) (seq 0 M)) =
                 Fin (Rsum (map e (seq 0 M)))).
  { rewrite <- (sum_Fin e). f_equal. apply map_ext_in. intros q Hq.
    apply in_seq in Hq. apply He. lia. }
  assert (Hcases : forall q, e q = 0%R \/ (exp_underflow < e q)%R).
  { intros q. unfold e. destruct (q =? p); [left; lra|].
    destruct (exp32_cases (l q)) as [[E _]|[E Hu]]; rewrite E;
      [left|right]; lra. }
  assert (Hepos : forall q, In q (seq 0 M) -> (0 <= e q)%R).
  { intros q _. pose proof exp_underflow_pos.
    destruct (Hcases q); lra. }
  exists l, (Rsum (map e (seq 0 M))). repeat split.
  - exact Hl.
  - exact Hsum.
  - apply Rsum_gap; [apply exp_underflow_pos|]. intros q _. apply Hcases.
  - intros q Hq Hne.
    pose proof (@Rsum_ge_member e (seq 0 M) q Hepos) as H.
    unfold e at 1 in H. destruct (Nat.eqb_spec q p); [contradiction|].
    rewrite Rmult_1_r in H. apply H. apply in_seq. lia.
  - intros Hz. apply Rsum_zero. intros q Hq. apply in_seq in Hq. unfold e.
    destruct (Nat.eqb_spec q p); [lra|]. rewrite Hz by (auto; lia). lra.
Qed.

Lemma log_prob_nonpos :
  row_survives M a p ->
  exists lp : nat -> R,
    (forall q, q < M -> log_prob M a p q = Fin (lp q)) /\
    (forall q, q < M -> q <> p -> (lp q <= 0)%R).
Proof.
  intros [q0 [Hq0 [Hne0 Hx0]]].
  destruct row_exp_sum as [l [S [Hl [Hsum [Hgap [Hmember _]]]]]].
  pose proof exp_underflow_pos as Hu.
  assert (HS : (exp_underflow < S)%R).
  { rewrite (Hl q0 Hq0) in Hx0. apply exp_nonzero in Hx0.
    pose proof (Hmember q0 Hq0 Hne0).
    destruct (exp32_cases (l q0)) as [[E H']|[E H']]; lra. }
  assert (HS0 : (0 < S)%R) by lra.
  exists (fun q => (l q + - ln S)%R). split.
  - intros q Hq. unfold log_prob. rewrite Hsum, (log_positive HS0), (Hl q Hq).
    reflexivity.
  - intros q Hq Hne.
    assert (Hle : (Rexp (l q) <= S)%R).
    { pose proof (Hmember q Hq Hne).
      destruct (exp32_cases (l q)) as [[E H']|[E H']]; lra. }
    pose proof (exp_le_ln (l q) HS0 Hle). lra.
Qed.

Lemma log_prob_underflows :
  row_underflows M a p -> forall q, q < M -> log_prob M a p q = PInf.
Proof.
  intros Hunder q Hq.
  destruct row_exp_sum as [l [S [Hl [Hsum [_ [_ Hzero]]]]]].
  assert (HS : S = 0%R).
  { apply Hzero. intros k Hk Hne. specialize (Hunder k Hk Hne).
    rewrite (Hl k Hk), exp_Fin in Hunder. unfold zero in Hunder.
    now injection Hunder. }
  unfold log_prob. rewrite Hsum, HS, (Hl q Hq). simpl.
  destruct (total_order_T 0 0) as [[H|H]|H]; [lra|reflexivity|lra].
Qed.

Lemma row_loss_nonneg :
  row_survives M a p ->
  exists r, row_loss self M a mk p = Fin r /\ (0 <= r)%R.
Proof.
  intros Hs. destruct (log_prob_nonpos Hs) as [lp [Hlp Hneg]].
  destruct (@sum_signed false (fun q => mul (mk p q) (log_prob M a p q))
              (seq 0 M)) as [num [Hnum Hnumneg]].
  { intros q Hq. apply in_seq in Hq. assert (HqM : q < M) by lia.
    rewrite (Hlp q HqM).
    destruct (mk_binary HqM) as [Hz|Ho].
    - rewrite Hz. exists (0 * lp q)%R. split; [reflexivity|]. lra.
    - rewrite Ho. exists (1 * lp q)%R. split; [reflexivity|].
      pose proof (Hneg q HqM (mk_not_self HqM Ho)). lra. }
  destruct (@binary_row_sum (mk p) (seq 0 M)) as [den [Hden [_ Hone]]].
  { intros q Hq. apply in_seq in Hq. apply mk_binary. lia. }
  assert (Hd : (1 <= den)%R).
  { destruct mk_positive as [q0 [Hq0 Ho]].
    apply (Hone q0); [apply in_seq; lia|assumption]. }
  unfold row_loss, mean_log_prob_pos. rewrite Hnum, Hden.
  rewrite div_Fin by lra. simpl.
  eexists. split; [reflexivity|].
  assert (num / den <= 0)%R.
  { unfold Rdiv. assert (0 < / den)%R by (apply Rinv_0_lt_compat; lra). nra. }
  nra.
Qed.

(** When every exponential of a row underflows, the logarithm of their sum
    is minus infinity and the product with the mask entry 0 of column [p]
    is NaN. *)
Lemma row_loss_nan : row_underflows M a p -> row_loss self M a mk p = NaN.
Proof.
  intros Hunder.
  assert (Hself : mk p p = zero).
  { destruct (mk_binary p_column) as [Hz|Ho]; [assumption|].
    now destruct (mk_not_self p_column Ho). }
  assert (Hnum : sum (map (fun q => mul (mk p q) (log_prob M a p q))
                          (seq 0 M)) = NaN).
  { apply sum_NaN_member. apply in_map_iff. exists p. split.
    - rewrite Hself, (log_prob_underflows Hunder p_column). simpl.
      unfold scale_inf.
      destruct (total_order_T 0 0) as [[H|H]|H]; [lra|reflexivity|lra].
    - apply in_seq. lia. }
  unfold row_loss, mean_log_prob_pos. rewrite Hnum. reflexivity.
Qed.

Lemma row_loss_sign :
  row_loss self M a mk p = NaN \/
  exists r, row_loss self M a mk p = Fin r /\ (0 <= r)%R.
Proof.
  destruct row_survives_or_underflows as [H|H].
  - right. now apply row_loss_nonneg.
  - left. now apply row_loss_nan.
Qed.

End RowSign.

(** The mean of the row losses is NaN or finite and non-negative; it is
    finite when every row survives, and NaN when a row underflows. *)
Lemma mean_loss_sign self A M a mk :
  1 <= A -> A <= M ->
  (0 <= temperature self / base_temperature self)%R ->
  (forall p q, p < A -> q < M -> is_finite (a p q)) ->
  (forall p q, p < A -> q < M -> mk p q = zero \/ mk p q = one) ->
  (forall p q, p < A -> q < M -> mk p q = one -> q <> p) ->
  (forall p, p < A -> exists q, q < M /\ mk p q = one) ->
  (mean_loss self A M a mk = NaN \/
   exists r, mean_loss self A M a mk = Fin r /\ (0 <= r)%R) /\
  ((forall p, p < A -> row_survives M a p) ->
   exists r, mean_loss self A M a mk = Fin r /\ (0 <= r)%R) /\
  ((exists p, p < A /\ row_underflows M a p) ->
   mean_loss self A M a mk = NaN).
Proof.
  intros HA HAM Hratio Hfin Hbin Hself Hpos.
  assert (HINR : (0 < INR A)%R) by (apply lt_0_INR; lia).
  assert (Hmean : forall s, (0 <= s)%R ->
            exists r, div (Fin s) (Fin (INR A)) = Fin r /\ (0 <= r)%R).
  { intros s Hs. rewrite div_Fin by lra. eexists. split; [reflexivity|].
    unfold Rdiv. assert (0 < / INR A)%R by (apply Rinv_0_lt_compat; lra).
    nra. }
  unfold mean_loss. split; [|split].
  - destruct (@sum_nan_or_nonneg (row_loss self M a mk) (seq 0 A))
      as [E|[s [E Hs]]].
    + intros p Hp. apply in_seq in Hp. assert (HpA : p < A) by lia.
      apply row_loss_sign; auto; lia.
    + left. now rewrite E.
    + right. rewrite E. now apply Hmean.
  - intros Hsurv.
    destruct (@sum_signed true (row_loss self M a mk) (seq 0 A))
      as [s [E Hs]].
    + intros p Hp. apply in_seq in Hp. assert (HpA : p < A) by lia.
      apply row_loss_nonneg; auto; lia.
    + rewrite E. now apply Hmean.
  - intros [p [Hp Hunder]].
    rewrite (@sum_NaN_member (map (row_loss self M a mk) (seq 0 A)));
      [reflexivity|].
    apply in_map_iff. exists p. split; [|apply in_seq; lia].
    apply row_loss_nan; auto; lia.
Qed.

(** ** Finite features give finite similarities *)

Definition finite_tensor (t : Tensor) : Prop := Forall is_finite (data t).

Lemma Forall_firstn {A : Type} (P : A -> Prop) (k : nat) (l : list A) :
  Forall P l -> Forall P (firstn k l).
Proof.
  intros H. revert k. induction H as [|x l Hx _ IH]; intros [|k]; simpl; auto.
Qed.

Lemma Forall_skipn {A : Type} (P : A -> Prop) (k : nat) (l : list A) :
  Forall P l -> Forall P (skipn k l).
Proof.
  intros H. revert k. induction H as [|x l Hx Hl IH]; intros [|k]; simpl; auto.
Qed.

Lemma Forall_chunks {A : Type} (P : A -> Prop) (k n : nat) (l : list A) :
  Forall P l -> Forall (Forall P) (chunks k n l).
Proof.
  revert l. induction n as [|n IH]; intros l H; simpl; constructor.
  - now apply Forall_firstn.
  - apply IH. now apply Forall_skipn.
Qed.

Lemma Forall_nth_default {A : Type} (P : A -> Prop) (l : list A) (d : A) n :
  Forall P l -> P d -> P (nth n l d).
Proof.
  intros H Hd. revert n. induction H as [|x l Hx _ IH]; intros [|n]; simpl; auto.
Qed.

Lemma view3_finite features :
  finite_tensor features ->
  Forall (Forall (Forall is_finite)) (view3 features).
Proof.
  intros H. unfold view3. apply Forall_forall. intros s Hs.
  apply in_map_iff in Hs as [c [<- Hc]]. apply Forall_chunks.
  pose proof (Forall_chunks (nth 1 (shape features) 0 *
                             numel (skipn 2 (shape features)))
                            (nth 0 (shape features) 0) H) as Hall.
  rewrite Forall_forall in Hall. now apply Hall.
Qed.

Lemma view_rows_finite features v :
  finite_tensor features ->
  Forall (Forall is_finite)
         (map (fun sample => nth v sample []) (view3 features)).
Proof.
  intros H. pose proof (view3_finite H) as H3.
  apply Forall_forall. intros r Hr. apply in_map_iff in Hr as [s [<- Hs]].
  rewrite Forall_forall in H3. apply Forall_nth_default; [now apply H3|].
  constructor.
Qed.

Lemma contrast_of_finite features :
  finite_tensor features -> Forall (Forall is_finite) (contrast_of features).
Proof.
  intros H. unfold contrast_of, unbind1. apply Forall_concat.
  apply Forall_forall. intros m Hm. apply in_map_iff in Hm as [v [<- _]].
  now apply view_rows_finite.
Qed.

Lemma anchor_of_finite self features :
  finite_tensor features ->
  Forall (Forall is_finite) (anchor_of self features).
Proof.
  intros H. unfold anchor_of. destruct (String.eqb _ _).
  - now apply view_rows_finite.
  - now apply contrast_of_finite.
Qed.

Lemma dot_finite x y :
  Forall is_finite x -> Forall is_finite y -> is_finite (dot x y).
Proof.
  intros Hx. revert y. unfold dot, sum.
  induction Hx as [|u x Hu _ IH]; intros y Hy; [exact I|].
  destruct Hy as [|w y Hw Hy]; [exact I|]. cbn [zip_with fold_right].
  specialize (IH y Hy).
  destruct u, w; try contradiction.
  destruct (fold_right add zero (zip_with mul x y)); try contradiction.
  exact I.
Qed.

Lemma similarity_finite self x y :
  temperature self <> 0%R ->
  Forall (Forall is_finite) x -> Forall (Forall is_finite) y ->
  Forall (Forall is_finite) (similarity self x y).
Proof.
  intros HT Hx Hy. unfold similarity, div_scalar, matmul_T.
  rewrite map_map. apply Forall_forall. intros r Hr.
  apply in_map_iff in Hr as [u [<- Hu]]. rewrite map_map.
  apply Forall_forall. intros e He. apply in_map_iff in He as [w [<- Hw]].
  rewrite Forall_forall in Hx, Hy.
  pose proof (dot_finite (Hx u Hu) (Hy w Hw)) as Hd.
  destruct (dot u w); try contradiction.
  rewrite div_Fin by assumption. exact I.
Qed.

Lemma entry_finite R C m p q :
  rect R C m -> Forall (Forall is_finite) m -> p < R -> q < C ->
  is_finite (entry m p q).
Proof.
  intros [Hlen Hrows] Hfin Hp Hq. unfold entry.
  rewrite Forall_forall in Hrows, Hfin.
  assert (Hin : In (nth p m []) m) by (apply nth_In; lia).
  specialize (Hrows _ Hin). specialize (Hfin _ Hin).
  rewrite Forall_forall in Hfin. apply Hfin. apply nth_In. lia.
Qed.

(** ** Non-negativity of the loss *)

(** Every row of the tiled mask keeps a positive after self-exclusion. *)
Definition valid_mask (N anchor_count contrast_count : nat) (B : matrix)
  : Prop :=
  exists mask' logits_mask,
    tile_mask N anchor_count contrast_count B = Return (mask', logits_mask) /\
    Forall (fun row => In one row) mask'.

Lemma tiled_one_not_self N f p q :
  1 <= N ->
  (forall i j, i < N -> j < N -> f i j = zero \/ f i j = one) ->
  tiled N f p q = one -> q <> p.
Proof.
  intros HN Hf H ->. unfold tiled, self_mask in H.
  rewrite Nat.eqb_refl in H.
  assert (Hp : p mod N < N) by (apply Nat.mod_upper_bound; lia).
  destruct (Hf _ _ Hp Hp) as [E|E]; rewrite E in H;
    unfold zero, one in H; simpl in H; injection H; lra.
Qed.

(** The facts about the similarities and the tiled mask of a valid input. *)
Lemma forward_valid_input self features B :
  let N := nth 0 (shape features) 0 in
  let V := nth 1 (shape features) 0 in
  let A := anchor_count_of self V * N in
  let a := entry (similarity_of self features) in
  let mk := tiled N (entry B) in
  viewable features -> 1 <= N -> 1 <= V -> known_mode self ->
  finite_tensor features -> temperature self <> 0%R ->
  binary_mask N B -> valid_mask N (anchor_count_of self V) V B ->
  1 <= A /\ A <= V * N /\
  (forall p q, p < A -> q < V * N -> is_finite (a p q)) /\
  (forall p q, p < A -> q < V * N -> mk p q = zero \/ mk p q = one) /\
  (forall p q, p < A -> q < V * N -> mk p q = one -> q <> p) /\
  (forall p, p < A -> exists q, q < V * N /\ mk p q = one).
Proof.
  intros N V A a mk Hv HN HV Hmode Hfin HT [HB Hbin] Hvalid.
  pose proof (anchor_count_pos self HV) as Hac.
  pose proof (anchor_count_le self HV) as Hle.
  split; [unfold A; nia|]. split; [unfold A; nia|].
  split; [|split; [|split]].
  - intros p q Hp Hq.
    apply entry_finite with (R := A) (C := V * N); try assumption.
    + pose proof (similarity_rect self (anchor_of self features)
                    (contrast_of features)) as Hrect.
      rewrite length_anchor_of, length_contrast_of in Hrect. exact Hrect.
    + apply similarity_finite; [assumption| |].
      * now apply anchor_of_finite.
      * now apply contrast_of_finite.
  - intros p q _ _. now apply tiled_binary.
  - intros p q _ _. now apply tiled_one_not_self.
  - intros p Hp. destruct Hvalid as [mask' [lm [Htile Hrows]]].
    rewrite (tile_mask_rect HB (anchor_count_le self HV)) in Htile.
    injection Htile as <- _. rewrite Forall_forall in Hrows.
    set (T := tab (anchor_count_of self V * N) (V * N) (tiled N (entry B)))
      in *.
    assert (Hin : In (nth p T []) T).
    { apply nth_In. unfold T. destruct (tab_rect (anchor_count_of self V * N)
        (V * N) (tiled N (entry B))) as [-> _]. exact Hp. }
    specialize (Hrows _ Hin). unfold T in Hrows.
    rewrite row_tab in Hrows by assumption.
    apply in_map_iff in Hrows as [q [Hq Hin']].
    apply in_seq in Hin'. exists q. split; [lia|assumption].
Qed.


(** With two or more views, a 0/1 base mask with ones on its diagonal (the
    identity mask and every mask made from labels) keeps the other view of
    the same sample as a positive in every row. *)
Lemma valid_mask_views N ac V B :
  1 <= N -> ac <= V -> 2 <= V -> binary_mask N B ->
  (forall i, i < N -> entry B i i = one) ->
  valid_mask N ac V B.
Proof.
  intros HN Hac HV [HB Hbin] Hdiag. unfold valid_mask.
  rewrite (tile_mask_rect HB Hac). do 2 eexists. split; [reflexivity|].
  apply Forall_forall. intros row Hrow.
  unfold tab in Hrow. apply in_map_iff in Hrow as [p [<- Hp]].
  apply in_seq in Hp. apply in_map_iff.
  set (q := if p <? N then p + N else p - N).
  assert (Hq : q < V * N) by (unfold q; destruct (Nat.ltb_spec p N); nia).
  assert (Hne : q <> p) by (unfold q; destruct (Nat.ltb_spec p N); lia).
  assert (Hmod : q mod N = p mod N).
  { unfold q. destruct (Nat.ltb_spec p N).
    - replace (p + N) with (p + 1 * N) by lia. apply Nat.Div0.mod_add.
    - replace p with ((p - N) + 1 * N) at 2 by lia.
      now rewrite Nat.Div0.mod_add. }
  exists q. split; [|apply in_seq; lia].
  unfold tiled, self_mask. rewrite Hmod.
  rewrite Hdiag by (apply Nat.mod_upper_bound; lia).
  destruct (Nat.eqb_spec q p); [contradiction|].
  unfold one. simpl. f_equal. lra.
Qed.

(** *** An exponential that underflows *)







(** ** Batch assembly *)

Lemma sum_map_Fin {A : Type} (g : A -> R) (l : list A) :
  sum (map (fun x => Fin (g x)) l) = Fin (fold_right Rplus 0%R (map g l)).
Proof.
  unfold sum. induction l as [|x l IH]; simpl; [reflexivity|].
  now rewrite IH.
Qed.

Lemma finite_row_reals (v : list float) :
  Forall is_finite v -> v = map Fin (map to_R v).
Proof.
  induction 1 as [|x v Hx _ IH]; simpl; [reflexivity|].
  now rewrite <- IH, <- (finite_to_R x Hx).
Qed.

Lemma squares_nonneg (l : list R) :
  (0 <= fold_right Rplus 0 (map (fun x => x * x) l))%R.
Proof. induction l as [|x l IH]; simpl; [lra|]. nra. Qed.

Lemma squares_scaled (l : list R) (n : R) :
  n <> 0%R ->
  fold_right Rplus 0%R (map (fun x => (x / n) * (x / n))%R l) =
  (fold_right Rplus 0 (map (fun x => x * x) l) / (n * n))%R.
Proof.
  intros Hn. induction l as [|x l IH]; simpl.
  - unfold Rdiv. lra.
  - rewrite IH. field. assumption.
Qed.

Lemma norm2_reals (l : list R) :
  norm2 (map Fin l) =
  Fin (R_sqrt.sqrt (fold_right Rplus 0%R (map (fun x => x * x)%R l))).
Proof.
  unfold norm2. rewrite map_map. simpl.
  rewrite (sum_map_Fin (fun x => (x * x)%R)). simpl.
  destruct (Rlt_dec _ 0) as [H|_]; [|reflexivity].
  pose proof (squares_nonneg l). lra.
Qed.

Lemma eps_normalize_pos : (0 < eps_normalize)%R.
Proof. unfold eps_normalize. apply Rinv_0_lt_compat. apply pow_lt. lra. Qed.

(** [F.normalize] gives a row of Euclidean norm 1 when the row is finite and
    its norm is at least [eps]. *)
Lemma normalize_row_unit (v : list float) (n : R) :
  Forall is_finite v -> norm2 v = Fin n -> (eps_normalize <= n)%R ->
  norm2 (normalize_row v) = Fin 1.
Proof.
  intros Hfin Hn Heps. pose proof eps_normalize_pos as Hpos.
  rewrite (finite_row_reals Hfin) in *. set (l := map to_R v) in *.
  unfold normalize_row. rewrite Hn. simpl Float.max.
  rewrite Rmax_left by assumption.
  rewrite map_map.
  erewrite map_ext.
  2:{ intros x. rewrite div_Fin by lra. reflexivity. }
  rewrite <- (map_map (fun x => (x / n)%R) Fin).
  rewrite norm2_reals. rewrite map_map.
  rewrite norm2_reals in Hn. injection Hn as Hn.
  rewrite squares_scaled by lra.
  pose proof (squares_nonneg l) as HS.
  set (S := fold_right Rplus 0%R (map (fun x => (x * x)%R) l)) in *.
  assert (Hnn : (n * n = S)%R) by (rewrite <- Hn; now apply sqrt_sqrt).
  rewrite Hnn. replace (S / S)%R with 1%R by (field; nra).
  now rewrite sqrt_1.
Qed.

Lemma nth_zip_with {A B C : Type} (f : A -> B -> C) (a : list A) (b : list B)
  (da : A) (db : B) (dc : C) (i : nat) :
  i < length a -> i < length b ->
  nth i (zip_with f a b) dc = f (nth i a da) (nth i b db).
Proof.
  revert b i. induction a as [|x a IH]; intros [|y b] [|i] Ha Hb;
    simpl in *; try lia; [reflexivity|]. apply IH; lia.
Qed.

Lemma length_zip_with_same {A B C : Type} (f : A -> B -> C) a b :
  length a = length b -> length (zip_with f a b) = length a.
Proof.
  revert b. induction a as [|x a IH]; intros [|y b] H; simpl in *;
    try lia. now rewrite IH by lia.
Qed.

Section AssemblerFacts.

Variable Image : Type.
Variable model : SupCon Image.
Variables data0 data1 : list Image.
Variable labels : list Z.

Let N := length labels.
Let raw := head model (encoder model (data0 ++ data1)).
Let flat := SupCon_forward model (data0 ++ data1).

(** The encoder and the head keep one row per image of the batch. *)
Hypothesis rows_kept : length raw = length (data0 ++ data1).
Hypothesis batch0 : length data0 = N.
Hypothesis batch1 : length data1 = N.

Lemma length_flat : length flat = 2 * N.
Proof.
  unfold flat, SupCon_forward, F_normalize. rewrite length_map.
  fold raw. rewrite rows_kept, length_app. lia.
Qed.

Lemma assemble_result (tr : trace Image) :
  assemble model data0 data1 labels tr =
  (Return (zip_with (fun a b => [a; b]) (firstn N flat) (skipn N flat)),
   tr ++ [data0 ++ data1]).
Proof.
  unfold assemble, bind_step, call_model, lift. fold flat. fold N.
  unfold split2. rewrite length_flat.
  destruct (Nat.eqb_spec (2 * N) (N + N)); [|lia].
  unfold cat_views.
  rewrite length_firstn, length_skipn, length_flat.
  destruct (Nat.eqb_spec (Nat.min N (2 * N)) (2 * N - N)); [|lia].
  reflexivity.
Qed.

(** C7. One step concatenates the two view batches as [batch_0 ; batch_1],
    calls the model exactly once, on that concatenation of [2N] images;
    the model L2-normalizes every row of its output, and the assembled
    tensor holds for sample [i] the rows [i] and [i + N] of that output.
    The rest of the step makes no further call. *)
Theorem assemble_pairs_views (tr : trace Image) :
  exists result,
    assemble model data0 data1 labels tr =
      (Return result, tr ++ [data0 ++ data1]) /\
    length (data0 ++ data1) = 2 * N /\
    length result = N /\
    shape (to_tensor result) = [N; 2; ncols (concat result)] /\
    (forall i, i < N ->
       nth i result [] = [nth i flat []; nth (i + N) flat []]) /\
    (forall j, j < 2 * N ->
       nth j flat [] = normalize_row (nth j raw [])) /\
    (forall j n, j < 2 * N -> Forall is_finite (nth j raw []) ->
       norm2 (nth j raw []) = Fin n -> (eps_normalize <= n)%R ->
       norm2 (nth j flat []) = Fin 1) /\
    (forall criterion method,
       snd (pretraining_step model criterion method data0 data1 labels tr) =
       tr ++ [data0 ++ data1]).
Proof.
  pose proof length_flat as Hflat.
  assert (Hnorm : forall j, j < 2 * N ->
                    nth j flat [] = normalize_row (nth j raw [])).
  { intros j Hj. unfold flat, SupCon_forward, F_normalize. fold raw.
    rewrite (nth_indep _ [] (normalize_row [])).
    - apply map_nth.
    - rewrite length_map. fold raw. rewrite rows_kept, length_app. lia. }
  eexists. split; [apply assemble_result|].
  split; [rewrite length_app; lia|].
  assert (Hlen : length (zip_with (fun a b : list float => [a; b])
                           (firstn N flat) (skipn N flat)) = N).
  { rewrite length_zip_with_same; rewrite length_firstn, ?length_skipn; lia. }
  split; [exact Hlen|]. split; [unfold to_tensor; cbn [shape]; f_equal; exact Hlen|].
  split; [|split; [exact Hnorm|split]].
  - intros i Hi.
    etransitivity.
    { apply nth_zip_with with (da := []) (db := []);
        rewrite ?length_firstn, ?length_skipn; lia. }
    rewrite nth_firstn, nth_skipn.
    destruct (Nat.ltb_spec i N); [|lia].
    now rewrite (Nat.add_comm N i).
  - intros j n Hj Hfin Hn Heps. rewrite Hnorm by assumption.
    now apply normalize_row_unit with (n := n).
  - intros criterion method. unfold pretraining_step, bind_step.
    rewrite assemble_result.
    destruct (String.eqb method "SupCon"); [reflexivity|].
    destruct (String.eqb method "SimCLR"); reflexivity.
Qed.

End AssemblerFacts.

(** A model on images that are numbers: the encoder maps every image to the
    embedding (3, 4); the head is the identity. *)
Definition constant_model : SupCon nat :=
  mkSupCon (fun x => map (fun _ => [Fin 3; Fin 4]) x) (fun feat => feat).

Lemma assemble_pairs_views_witness :
  exists result,
    assemble constant_model [10] [11] [7%Z] [] =
      (Return result, [[10; 11]]) /\
    length result = 1.
Proof.
  destruct (@assemble_pairs_views nat constant_model [10] [11] [7%Z]
              eq_refl eq_refl eq_refl [])
    as [result [Hrun [_ [Hlen _]]]].
  exists result. split; [exact Hrun | exact Hlen].
Defined.

(** ** The row maximum cancels *)

Lemma Rsum_scale (c : R) (g : nat -> R) (l : list nat) :
  Rsum (map (fun k => (c * g k)%R) l) = (c * Rsum (map g l))%R.
Proof. induction l as [|x l IH]; simpl; [lra|]. rewrite IH. lra. Qed.

(** For a finite row [p] with another column than [p] in which no
    exponential underflows, the log-probability computed from the shifted
    logits is the log-softmax of the unshifted similarities over the columns
    other than [p]: subtracting the row maximum has no mathematical
    effect. *)
Lemma log_prob_log_softmax (M : nat) (a : nat -> nat -> float) (p q0 : nat) :
  (forall q, q < M -> is_finite (a p q)) -> q0 < M -> q0 <> p ->
  (forall k, k < M -> k <> p -> exp (logit M a p k) <> zero) ->
  forall q, q < M ->
    log_prob M a p q =
    Fin (to_R (a p q) -
         ln (Rsum (map (fun k => Rexp (to_R (a p k))
                                 * (if k =? p then 0 else 1))%R
                       (seq 0 M)))).
Proof.
  intros Hfin Hq0 Hne Hexact q Hq.
  assert (Hmx : is_finite (row_max M a p)).
  { unfold row_max. apply max_row_finite.
    - destruct M; [lia|]. discriminate.
    - apply Forall_forall. intros x Hx. apply in_map_iff in Hx as [k [<- Hk]].
      apply in_seq in Hk. apply Hfin. lia. }
  apply finite_to_R in Hmx. set (mx := to_R (row_max M a p)) in *.
  set (e0 := fun k => (Rexp (to_R (a p k)) * (if k =? p then 0 else 1))%R).
  set (e := fun k => (Rexp (- mx) * e0 k)%R).
  assert (He : forall k, k < M -> exp_logit M a p k = Fin (e k)).
  { intros k Hk. specialize (Hexact k Hk). unfold exp_logit.
    unfold logit in *. rewrite Hmx in *.
    rewrite (finite_to_R _ (Hfin k Hk)) in *. unfold self_mask, e, e0.
    cbn [sub neg add] in *. rewrite exp_Fin.
    destruct (Nat.eqb_spec k p) as [Heq|Hk'].
    - simpl. f_equal. lra.
    - apply Hexact, exp_nonzero in Hk'.
      destruct (exp32_cases (to_R (a p k) + - mx)) as [[E H]|[E H]];
        [lra|]. rewrite E. simpl. rewrite exp_plus. f_equal. lra. }
  assert (Hsum : sum (map (exp_logit M a p) (seq 0 M)) =
                 Fin (Rexp (- mx) * Rsum (map e0 (seq 0 M)))).
  { rewrite <- Rsum_scale. rewrite <- (sum_Fin e). f_equal.
    apply map_ext_in. intros k Hk. apply in_seq in Hk. apply He. lia. }
  assert (HT : (0 < Rsum (map e0 (seq 0 M)))%R).
  { assert (Hpos : forall k, In k (seq 0 M) -> (0 <= e0 k)%R).
    { intros k _. unfold e0. pose proof (exp_pos (to_R (a p k))).
      destruct (k =? p); lra. }
    pose proof (@Rsum_ge_member e0 (seq 0 M) q0 Hpos) as H.
    unfold e0 at 1 in H. destruct (Nat.eqb_spec q0 p); [contradiction|].
    pose proof (exp_pos (to_R (a p q0))).
    assert (In q0 (seq 0 M)) by (apply in_seq; lia). specialize (H H1). lra. }
  pose proof (exp_pos (- mx)) as Hexp.
  unfold log_prob. rewrite Hsum.
  rewrite log_positive by (apply Rmult_lt_0_compat; assumption).
  unfold logit. rewrite Hmx, (finite_to_R _ (Hfin q Hq)). simpl. f_equal.
  rewrite ln_mult by assumption. rewrite ln_exp. fold e0. lra.
Qed.

(** * Further properties of [SupConLoss.forward] *)

(** ** Trailing dimensions, labels, errors *)

(** A feature tensor of rank above 3 gives the loss of the tensor with its
    trailing dimensions flattened into one ([features.view(N, V, -1)]). *)
Theorem forward_flattens_trailing (self : SupConLoss) (N V d : nat)
  (rest : list nat) (entries : list float) (labels : option (list Z))
  (mask : option matrix) :
  N * V <> 0 ->
  forward self (mkTensor (N :: V :: d :: rest) entries) labels mask =
  forward self (mkTensor [N; V; numel (d :: rest)] entries) labels mask.
Proof.
  intros HNV. rewrite !forward_unfold.
  assert (Hv1 : viewable (mkTensor (N :: V :: d :: rest) entries)).
  { unfold viewable. cbn [shape length nth]. destruct rest; [now left|].
    right. split; [simpl; lia|assumption]. }
  assert (Hv2 : viewable (mkTensor [N; V; numel (d :: rest)] entries)).
  { now left. }
  rewrite (flatten_trailing_viewable Hv1), (flatten_trailing_viewable Hv2).
  assert (Hview : view3 (mkTensor (N :: V :: d :: rest) entries) =
                  view3 (mkTensor [N; V; numel (d :: rest)] entries)).
  { unfold view3. cbn [shape nth skipn data].
    replace (numel [numel (d :: rest)]) with (numel (d :: rest))
      by (unfold numel at 2; cbn [fold_right]; lia).
    reflexivity. }
  rewrite Hview. reflexivity.
Qed.

Lemma forward_flattens_trailing_witness :
  forward SupConLoss_default
          (mkTensor [1; 2; 1; 2] [Fin 1; Fin 0; Fin 0; Fin 1]) None None =
  forward SupConLoss_default
          (mkTensor [1; 2; numel [1; 2]] [Fin 1; Fin 0; Fin 0; Fin 1])
          None None.
Proof.
  apply (@forward_flattens_trailing SupConLoss_default 1 2 1 [2]). simpl; lia.
Defined.

Lemma eq_T_map (f : Z -> Z) (labels : list Z) :
  (forall a b, f a = f b -> a = b) -> eq_T (map f labels) = eq_T labels.
Proof.
  intros Hinj. unfold eq_T. rewrite map_map. apply map_ext. intros a.
  rewrite map_map. apply map_ext. intros b.
  destruct (Z.eqb_spec (f a) (f b)) as [E|E], (Z.eqb_spec a b) as [E'|E'];
    try reflexivity.
  - elim E'. now apply Hinj.
  - elim E. now rewrite E'.
Qed.

(** The loss depends on the labels only through which samples share a
    label: renaming the classes one-to-one changes nothing. *)
Theorem forward_label_renaming (self : SupConLoss) (features : Tensor)
  (labels : list Z) (f : Z -> Z) :
  (forall a b, f a = f b -> a = b) ->
  forward self features (Some (map f labels)) None =
  forward self features (Some labels) None.
Proof.
  intros Hinj. rewrite !forward_unfold.
  destruct (_ <? 3); [reflexivity|].
  destruct (flatten_trailing features); [|reflexivity].
  cbn [bind select_mask]. rewrite length_map.
  destruct (negb _); [reflexivity|]. now rewrite eq_T_map.
Qed.

Lemma forward_label_renaming_witness :
  forward SupConLoss_default
          (mkTensor [2; 2; 1] [Fin 1; Fin 1; Fin (-1); Fin (-1)])
          (Some (map (fun z => (z + 10)%Z) [4; 9]%Z)) None =
  forward SupConLoss_default
          (mkTensor [2; 2; 1] [Fin 1; Fin 1; Fin (-1); Fin (-1)])
          (Some [4; 9]%Z) None.
Proof.
  apply (@forward_label_renaming SupConLoss_default
           (mkTensor [2; 2; 1] [Fin 1; Fin 1; Fin (-1); Fin (-1)])
           [4; 9]%Z (fun z => (z + 10)%Z)).
  intros a b H. lia.
Defined.

(** One label per sample and no label given twice: the supervised call is
    the call without labels, whatever the batch size. *)
Theorem distinct_labels_reproduce_unsupervised (self : SupConLoss)
  (features : Tensor) (labels : list Z) :
  NoDup labels -> length labels = nth 0 (shape features) 0 ->
  forward self features (Some labels) None = forward self features None None.
Proof.
  intros Hnd Hlen. rewrite !forward_unfold.
  destruct (_ <? 3); [reflexivity|].
  destruct (flatten_trailing features); [|reflexivity].
  cbn [bind select_mask]. rewrite Hlen, Nat.eqb_refl. cbn [negb].
  rewrite <- Hlen. now rewrite eq_T_distinct.
Qed.

Lemma distinct_labels_reproduce_unsupervised_witness :
  forward SupConLoss_default
          (mkTensor [3; 2; 1] [Fin 1; Fin 1; Fin 0; Fin 0; Fin 2; Fin 2])
          (Some [7; 2; 5]%Z) None =
  forward SupConLoss_default
          (mkTensor [3; 2; 1] [Fin 1; Fin 1; Fin 0; Fin 0; Fin 2; Fin 2])
          None None.
Proof.
  apply (@distinct_labels_reproduce_unsupervised SupConLoss_default
           (mkTensor [3; 2; 1] [Fin 1; Fin 1; Fin 0; Fin 0; Fin 2; Fin 2])
           [7; 2; 5]%Z); [|reflexivity].
  repeat constructor; simpl; intuition discriminate.
Defined.

Lemma cat0_views features :
  1 <= nth 1 (shape features) 0 ->
  cat0 (unbind1 (nth 1 (shape features) 0) (view3 features)) =
  Return (contrast_of features).
Proof.
  intros HV. unfold contrast_of, unbind1.
  destruct (nth 1 (shape features) 0) as [|V']; [lia|]. reflexivity.
Qed.

(** A contrast mode other than 'one' and 'all' is refused with its own
    [ValueError], once the features and the mask arguments are accepted. *)
Theorem unknown_mode_raises (self : SupConLoss) (features : Tensor)
  (labels : option (list Z)) (mask : option matrix) (B : matrix) :
  viewable features -> 1 <= nth 1 (shape features) 0 ->
  select_mask (nth 0 (shape features) 0) labels mask = Return B ->
  contrast_mode self <> "one" -> contrast_mode self <> "all" ->
  forward self features labels mask =
  Raise (ValueError (msg_mode (contrast_mode self))).
Proof.
  intros Hv HV Hsel Hone Hall.
  rewrite forward_unfold, (flatten_trailing_viewable Hv).
  destruct (Nat.ltb_spec (length (shape features)) 3) as [Hlt|_].
  { destruct Hv as [Hv|[Hv _]]; lia. }
  cbn [bind]. rewrite Hsel. cbn [bind]. unfold forward_with_mask.
  rewrite (cat0_views features HV). cbn [bind].
  destruct (String.eqb_spec (contrast_mode self) "one"); [contradiction|].
  destruct (String.eqb_spec (contrast_mode self) "all"); [contradiction|].
  reflexivity.
Qed.

Lemma unknown_mode_raises_witness :
  forward (mkSupConLoss 1 "two" 1)
          (mkTensor [1; 2; 1] [Fin 1; Fin 1]) None None =
  Raise (ValueError (msg_mode "two")).
Proof.
  apply (@unknown_mode_raises (mkSupConLoss 1 "two" 1)
           (mkTensor [1; 2; 1] [Fin 1; Fin 1]) None None (eye 1)).
  - left; reflexivity.
  - simpl; lia.
  - reflexivity.
  - discriminate.
  - discriminate.
Defined.

Lemma ncols_similarity_empty self x y :
  length y = 0 -> ncols (similarity self x y) = 0.
Proof.
  intros Hy. unfold similarity, div_scalar, matmul_T.
  destruct x as [|a x]; [reflexivity|]. simpl. now rewrite !length_map.
Qed.

(** An empty batch never yields a loss: whatever the other arguments,
    [forward] raises. *)
Theorem empty_batch_raises (self : SupConLoss) (features : Tensor)
  (labels : option (list Z)) (mask : option matrix) :
  nth 0 (shape features) 0 = 0 ->
  exists e, forward self features labels mask = Raise e.
Proof.
  intros HN. rewrite forward_unfold.
  destruct (_ <? 3); [eauto|].
  destruct (flatten_trailing features) as [f3|e] eqn:Hf; [|simpl; eauto].
  assert (Hf3 : f3 = view3 features).
  { unfold flatten_trailing in Hf. destruct (_ && _); now inversion Hf. }
  subst f3. cbn [bind].
  destruct (select_mask _ labels mask) as [B|e]; [|simpl; eauto].
  cbn [bind]. unfold forward_with_mask.
  destruct (Nat.eq_dec (nth 1 (shape features) 0) 0) as [HV|HV].
  { rewrite HV. simpl. eauto. }
  rewrite (cat0_views features) by lia. cbn [bind].
  assert (Hc : length (contrast_of features) = 0)
    by (rewrite length_contrast_of, HN; lia).
  assert (Hmax : forall x N ac cc,
            loss_of_similarity self N ac cc B
              (similarity self x (contrast_of features)) =
            Raise (RuntimeError
              "max(): Expected reduction dim 1 to have non-zero size")).
  { intros x N ac cc. unfold loss_of_similarity, max1_keepdim.
    now rewrite (ncols_similarity_empty self x _ Hc). }
  destruct (String.eqb _ "one"); cbn [bind].
  { rewrite Hmax. eauto. }
  destruct (String.eqb _ "all"); cbn [bind]; [rewrite Hmax|]; eauto.
Qed.

Lemma empty_batch_raises_witness :
  exists e,
    forward SupConLoss_default (mkTensor [0; 2; 3] []) None None = Raise e.
Proof.
  apply (@empty_batch_raises SupConLoss_default (mkTensor [0; 2; 3] [])
           None None).
  reflexivity.
Defined.

(** ** The division by [base_temperature] *)

Lemma forward_loss_of_similarity self features labels mask B :
  let N := nth 0 (shape features) 0 in
  let V := nth 1 (shape features) 0 in
  viewable features -> 1 <= V -> known_mode self ->
  select_mask N labels mask = Return B ->
  forward self features labels mask =
  loss_of_similarity self N (anchor_count_of self V) V B
    (similarity_of self features).
Proof.
  intros N V Hv HV Hmode Hsel.
  rewrite forward_unfold, (flatten_trailing_viewable Hv).
  destruct (Nat.ltb_spec (length (shape features)) 3) as [Hlt|_].
  { destruct Hv as [Hv|[Hv _]]; lia. }
  cbn [bind]. fold N. rewrite Hsel. cbn [bind].
  unfold forward_with_mask. rewrite (cat0_views features HV). cbn [bind].
  fold N V. unfold similarity_of, anchor_of, anchor_count_of.
  destruct Hmode as [Hm|Hm]; rewrite Hm; reflexivity.
Qed.

Lemma loss_of_similarity_tab_zero self N ac cc f a :
  1 <= ac * N -> ac <= cc -> base_temperature self = 0%R ->
  loss_of_similarity self N ac cc (tab N N f) (tab (ac * N) (cc * N) a) =
  Raise ZeroDivisionError.
Proof.
  intros HA Hle HbT. unfold loss_of_similarity.
  assert (HM : 1 <= cc * N) by nia.
  rewrite max1_keepdim_tab by assumption. cbn [bind].
  unfold sub_t. rewrite broadcast2_col. cbn [bind].
  rewrite tile_mask_tab by assumption. cbn [bind].
  unfold exp_t. rewrite map_tab. unfold mul_t. rewrite broadcast2_tab.
  cbn [bind].
  rewrite sum1_keepdim_tab. unfold log_t. rewrite map_tab.
  rewrite broadcast2_col. cbn [bind].
  rewrite broadcast2_tab. cbn [bind].
  rewrite !sum1_tab. unfold div_v.
  rewrite broadcast1_same by now rewrite !length_map.
  cbn [bind]. unfold py_div.
  destruct (Req_dec_T (base_temperature self) 0); [reflexivity|contradiction].
Qed.

(** [base_temperature = 0] makes the division [temperature /
    base_temperature] fail: on an input that passes every earlier step,
    [forward] raises [ZeroDivisionError] and returns no loss. *)
Theorem zero_base_temperature_raises (self : SupConLoss) (features : Tensor)
  (labels : option (list Z)) (mask : option matrix) (B : matrix) :
  let N := nth 0 (shape features) 0 in
  let V := nth 1 (shape features) 0 in
  viewable features -> 1 <= N -> 1 <= V -> known_mode self ->
  select_mask N labels mask = Return B -> rect N N B ->
  base_temperature self = 0%R ->
  forward self features labels mask = Raise ZeroDivisionError.
Proof.
  intros N V Hv HN HV Hmode Hsel HB HbT.
  rewrite (@forward_loss_of_similarity self features labels mask B
             Hv HV Hmode Hsel). fold N V.
  pose proof (similarity_rect self (anchor_of self features)
                (contrast_of features)) as Hrect.
  rewrite length_anchor_of, length_contrast_of in Hrect.
  fold (similarity_of self features) in Hrect. fold N V in Hrect.
  rewrite (rect_eq_tab HB) at 1. rewrite (rect_eq_tab Hrect) at 1.
  apply loss_of_similarity_tab_zero; [|now apply anchor_count_le|assumption].
  pose proof (anchor_count_pos self HV). nia.
Qed.

Lemma zero_base_temperature_raises_witness :
  forward (mkSupConLoss (7 / 100) "all" 0)
          (mkTensor [1; 2; 1] [Fin 1; Fin 1]) None None =
  Raise ZeroDivisionError.
Proof.
  apply (@zero_base_temperature_raises (mkSupConLoss (7 / 100) "all" 0)
           (mkTensor [1; 2; 1] [Fin 1; Fin 1]) None None (eye 1)).
  - left; reflexivity.
  - simpl; lia.
  - simpl; lia.
  - left; reflexivity.
  - reflexivity.
  - apply binary_mask_eye.
  - reflexivity.
Defined.

Lemma eye_diagonal N i : i < N -> entry (eye N) i i = one.
Proof.
  intros Hi. rewrite eye_tab, entry_tab by assumption.
  now rewrite Nat.eqb_refl.
Qed.

Lemma eq_T_diagonal labels i :
  i < length labels -> entry (eq_T labels) i i = one.
Proof.
  intros Hi. rewrite eq_T_tab, entry_tab by assumption.
  now rewrite Z.eqb_refl.
Qed.

(** ** Embeddings of bounded norm *)

Lemma exp_le_pow3 (n : nat) : (Rexp (INR n) <= 3 ^ n)%R.
Proof.
  induction n as [|n IH]; [simpl; rewrite exp_0; lra|].
  rewrite S_INR, exp_plus. simpl pow.
  pose proof exp_le_3 as H3.
  pose proof (exp_pos (INR n)). pose proof (exp_pos 1). nra.
Qed.

(** The exponential of a logit of at least -80 is not rounded to 0. *)
Lemma exp_survives_above (v : R) : (-80 <= v)%R -> exp (Fin v) <> zero.
Proof.
  intros Hv. apply exp_nonzero. unfold exp_underflow.
  assert (H80 : (Rexp 80 <= 3 ^ 80)%R).
  { pose proof (exp_le_pow3 80) as H. rewrite INR_IZR_INZ in H. exact H. }
  assert (Hpow : (3 ^ 80 < 2 ^ 150)%R).
  { rewrite !pow_IZR. apply IZR_lt. reflexivity. }
  assert (Hle : (Rexp (- (80)) <= Rexp v)%R).
  { replace (- (80))%R with (-80)%R by lra.
    destruct (Rle_lt_or_eq_dec _ _ Hv) as [Hlt| <-]; [|lra].
    apply Rlt_le. now apply exp_increasing. }
  rewrite exp_Ropp in Hle.
  pose proof (exp_pos 80) as Hpos.
  assert (/ 2 ^ 150 < / Rexp 80)%R
    by (apply Rinv_lt_contravar; [apply Rmult_lt_0_compat|]; lra).
  lra.
Qed.

Lemma dot_reals (x y : list R) :
  dot (map Fin x) (map Fin y) = Fin (Rsum (zip_with Rmult x y)).
Proof.
  unfold dot, sum. revert y.
  induction x as [|u x IH]; intros [|w y]; simpl; try reflexivity.
  now rewrite IH.
Qed.

(** Twice the dot product of two rows is at most the sum of their squared
    norms, in absolute value. *)
Lemma dot_bound (x y : list R) :
  (- (Rsum (map (fun u => u * u) x) + Rsum (map (fun u => u * u) y))
   <= 2 * Rsum (zip_with Rmult x y)
   <= Rsum (map (fun u => u * u) x) + Rsum (map (fun u => u * u) y))%R.
Proof.
  revert y. induction x as [|u x IH]; intros y; simpl.
  - pose proof (squares_nonneg y). unfold Rsum. lra.
  - destruct y as [|w y]; simpl.
    + pose proof (squares_nonneg x). unfold Rsum in *. nra.
    + specialize (IH y).
      pose proof (Rle_0_sqr (u - w)) as H1.
      pose proof (Rle_0_sqr (u + w)) as H2. unfold Rsqr in H1, H2.
      split; nra.
Qed.

Lemma norm2_bound (v : list float) (n c : R) :
  Forall is_finite v -> norm2 v = Fin n -> (n <= c)%R ->
  exists l, v = map Fin l /\
            (Rsum (map (fun u => u * u) l) <= c * c)%R.
Proof.
  intros Hfin Hn Hc. exists (map to_R v).
  split; [now apply finite_row_reals|].
  rewrite (finite_row_reals Hfin), norm2_reals in Hn. injection Hn as Hn.
  pose proof (squares_nonneg (map to_R v)) as HS.
  unfold Rsum.
  set (S := fold_right Rplus 0%R (map (fun x => (x * x)%R) (map to_R v)))
    in *.
  assert (Hnn : (n * n = S)%R) by (rewrite <- Hn; now apply sqrt_sqrt).
  assert (H0 : (0 <= n)%R) by (rewrite <- Hn; apply sqrt_pos).
  nra.
Qed.

(** Every row has a Euclidean norm of at most [c]. *)
Definition bounded_rows (c : R) (m : matrix) : Prop :=
  Forall (fun v => exists n, norm2 v = Fin n /\ (n <= c)%R) m.

Lemma dot_bounded (x y : list float) (c : R) :
  Forall is_finite x -> Forall is_finite y ->
  (exists n, norm2 x = Fin n /\ (n <= c)%R) ->
  (exists n, norm2 y = Fin n /\ (n <= c)%R) ->
  exists d, dot x y = Fin d /\ (- (c * c) <= d <= c * c)%R.
Proof.
  intros Hx Hy [n [Hn Hnc]] [m [Hm Hmc]].
  destruct (norm2_bound Hx Hn Hnc) as [lx [-> Hlx]].
  destruct (norm2_bound Hy Hm Hmc) as [ly [-> Hly]].
  rewrite dot_reals. eexists. split; [reflexivity|].
  pose proof (dot_bound lx ly). lra.
Qed.

Lemma nth_map_lt {A B : Type} (f : A -> B) (l : list A) (d : A) (d' : B)
  (n : nat) :
  n < length l -> nth n (map f l) d' = f (nth n l d).
Proof.
  revert n. induction l as [|x l IH]; intros [|n] H; simpl in *;
    try lia; [reflexivity|]. apply IH. lia.
Qed.

Lemma entry_similarity self x y p q :
  p < length x -> q < length y ->
  entry (similarity self x y) p q =
  div (dot (nth p x []) (nth q y [])) (Fin (temperature self)).
Proof.
  intros Hp Hq. unfold entry, similarity, div_scalar, matmul_T.
  rewrite map_map.
  rewrite (@nth_map_lt _ _ _ x [] [] p Hp).
  rewrite map_map.
  now rewrite (@nth_map_lt _ _ _ y [] NaN q Hq).
Qed.

(** The anchors are rows of the contrast matrix. *)
Lemma anchor_in_contrast self features :
  1 <= nth 1 (shape features) 0 ->
  incl (anchor_of self features) (contrast_of features).
Proof.
  intros HV. unfold anchor_of.
  destruct (String.eqb _ _); [|apply incl_refl].
  unfold contrast_of, unbind1.
  destruct (nth 1 (shape features) 0) as [|V]; [lia|].
  cbn [seq map concat]. intros r Hr. apply in_or_app. now left.
Qed.

Lemma bounded_similarity self features (c : R) p q :
  let N := nth 0 (shape features) 0 in
  let V := nth 1 (shape features) 0 in
  1 <= V -> finite_tensor features ->
  bounded_rows c (contrast_of features) ->
  (0 < temperature self)%R ->
  p < anchor_count_of self V * N -> q < V * N ->
  exists x, entry (similarity_of self features) p q = Fin x /\
            (- (c * c / temperature self) <= x
             <= c * c / temperature self)%R.
Proof.
  intros N V HV Hfin Hrows HT Hp Hq.
  pose proof (length_anchor_of self features) as HlenA.
  pose proof (length_contrast_of features) as HlenC.
  fold N V in HlenA, HlenC.
  unfold similarity_of.
  rewrite entry_similarity by (rewrite ?HlenA, ?HlenC; assumption).
  assert (Hy : In (nth q (contrast_of features) []) (contrast_of features))
    by (apply nth_In; now rewrite HlenC).
  assert (Hx : In (nth p (anchor_of self features) [])
                  (contrast_of features)).
  { apply (anchor_in_contrast self features HV). apply nth_In.
    now rewrite HlenA. }
  pose proof (contrast_of_finite Hfin) as Hcf.
  unfold bounded_rows in Hrows. rewrite Forall_forall in Hcf, Hrows.
  destruct (@dot_bounded _ _ c (Hcf _ Hx) (Hcf _ Hy) (Hrows _ Hx)
              (Hrows _ Hy)) as [d [-> Hd]].
  rewrite div_Fin by lra. eexists. split; [reflexivity|].
  unfold Rdiv. assert (0 < / temperature self)%R
    by now apply Rinv_0_lt_compat.
  split; nra.
Qed.

Lemma max_row_bound (l : list float) (hi : R) :
  l <> [] ->
  (forall x, In x l -> exists v, x = Fin v /\ (v <= hi)%R) ->
  exists mx, max_row l = Fin mx /\ (mx <= hi)%R.
Proof.
  destruct l as [|x l]; [congruence|]. intros _ H. simpl.
  destruct (H x (or_introl eq_refl)) as [v [-> Hv]].
  assert (Hl : forall y, In y l -> exists w, y = Fin w /\ (w <= hi)%R)
    by (intros y Hy; apply H; now right).
  clear H. revert v Hv.
  induction l as [|y l IH]; intros v Hv; simpl; [eauto|].
  destruct (Hl y (or_introl eq_refl)) as [w [-> Hw]]. simpl.
  apply IH.
  - intros z Hz. apply Hl. now right.
  - now apply Rmax_lub.
Qed.

(** A row whose entries lie in [-b, b] with [b <= 40] survives: its logits
    are at least -80. *)
Lemma bounded_row_survives (M : nat) (a : nat -> nat -> float) (p : nat)
  (b : R) :
  2 <= M -> p < M -> (b <= 40)%R ->
  (forall q, q < M -> exists x, a p q = Fin x /\ (- b <= x <= b)%R) ->
  row_survives M a p.
Proof.
  intros HM Hp Hb Ha.
  destruct (@max_row_bound (map (a p) (seq 0 M)) b) as [mx [Hmx Hle]].
  - destruct M; [lia|]. discriminate.
  - intros x Hx. apply in_map_iff in Hx as [q [<- Hq]]. apply in_seq in Hq.
    destruct (Ha q) as [v [-> Hv]]; [lia|]. exists v. split; [reflexivity|lra].
  - set (q := if p =? 0 then 1 else 0).
    assert (Hq : q < M) by (unfold q; destruct (p =? 0); lia).
    assert (Hne : q <> p) by (unfold q; destruct (Nat.eqb_spec p 0); lia).
    exists q. split; [assumption|]. split; [assumption|].
    destruct (Ha q Hq) as [x [Hx Hxb]].
    unfold logit, row_max. rewrite Hmx, Hx. cbn [sub neg add].
    apply exp_survives_above. lra.
Qed.

(** With embeddings of norm at most [c] and [c^2 <= 40 * temperature],
    every anchor row survives. *)
Lemma bounded_rows_survive self features (c : R) :
  let N := nth 0 (shape features) 0 in
  let V := nth 1 (shape features) 0 in
  1 <= N -> 2 <= V -> finite_tensor features ->
  bounded_rows c (contrast_of features) ->
  (0 < temperature self)%R -> (c * c <= 40 * temperature self)%R ->
  forall p, p < anchor_count_of self V * N ->
    row_survives (V * N) (entry (similarity_of self features)) p.
Proof.
  intros N V HN HV Hfin Hrows HT Hc p Hp.
  assert (HV1 : 1 <= V) by lia.
  pose proof (anchor_count_le self HV1) as Hle.
  apply bounded_row_survives with (b := (c * c / temperature self)%R).
  - nia.
  - nia.
  - apply Rmult_le_reg_r with (temperature self); [assumption|].
    unfold Rdiv. rewrite Rmult_assoc, Rinv_l by lra. lra.
  - intros q Hq. now apply bounded_similarity.
Qed.

(** With two or more views per sample, no explicit mask and embeddings of
    Euclidean norm at most [c], where [c^2 <= 40 * temperature], the loss
    of a non-empty batch is a finite number that is at least 0, with or
    without labels: no row of the mask is left without a positive and no
    row underflows. *)
Lemma bounded_rows_loss_finite self features labels (c : R) :
  let N := nth 0 (shape features) 0 in
  let V := nth 1 (shape features) 0 in
  viewable features -> 1 <= N -> 2 <= V -> known_mode self ->
  finite_tensor features -> bounded_rows c (contrast_of features) ->
  (0 < temperature self)%R -> (c * c <= 40 * temperature self)%R ->
  (0 < base_temperature self)%R ->
  (forall l, labels = Some l -> length l = N) ->
  exists r, forward self features labels None = Return (Fin r) /\
            (0 <= r)%R.
Proof.
  intros N V Hv HN HV Hmode Hfin Hrows HT Hc HbT Hlab.
  assert (HV1 : 1 <= V) by lia.
  assert (HB : exists B, select_mask N labels None = Return B /\
                         binary_mask N B /\
                         (forall i, i < N -> entry B i i = one)).
  { destruct labels as [l|]; simpl.
    - rewrite (Hlab l eq_refl), Nat.eqb_refl. simpl. exists (eq_T l).
      rewrite <- (Hlab l eq_refl).
      split; [reflexivity|]. split; [apply binary_mask_eq_T|].
      intros i Hi. now apply eq_T_diagonal.
    - exists (eye N). split; [reflexivity|]. split; [apply binary_mask_eye|].
      intros i Hi. now apply eye_diagonal. }
  destruct HB as [B [Hsel [Hbin Hdiag]]].
  assert (Hvalid : valid_mask N (anchor_count_of self V) V B).
  { apply valid_mask_views; auto. now apply anchor_count_le. }
  assert (HT' : temperature self <> 0%R) by lra.
  assert (HbT' : base_temperature self <> 0%R) by lra.
  destruct (@forward_valid_input self features B Hv HN HV1 Hmode
              Hfin HT' Hbin Hvalid) as [HA [HAM [Ha [Hb [Hself Hpos]]]]].
  rewrite (@forward_closed_form self features labels None B Hv HN HV1 Hmode
             HbT' Hsel (proj1 Hbin)).
  fold N V.
  destruct (@mean_loss_sign self (anchor_count_of self V * N) (V * N)
              (entry (similarity_of self features)) (tiled N (entry B)))
    as [_ [Hsurv _]]; try assumption.
  { apply Rlt_le. now apply Rdiv_lt_0_compat. }
  destruct Hsurv as [r [Hr Hr0]].
  { now apply bounded_rows_survive with (c := c). }
  exists r. now rewrite Hr.
Qed.

(** With two or more views per sample, no explicit mask and embeddings of
    Euclidean norm at most [c], where [c^2 <= 40 * temperature] (unit
    embeddings and a temperature of at least 0.025, the default 0.07
    included), the loss of a non-empty batch is a finite number, with or
    without labels: neither NaN nor an error comes out.  The temperatures
    are taken between 1/1000 and 1000, which keeps every intermediate value
    of the computation far inside the range of single precision. *)
Theorem multi_view_loss_finite (self : SupConLoss) (features : Tensor)
  (labels : option (list Z)) (c : R) :
  let N := nth 0 (shape features) 0 in
  let V := nth 1 (shape features) 0 in
  viewable features -> 1 <= N -> 2 <= V -> known_mode self ->
  finite_tensor features -> bounded_rows c (contrast_of features) ->
  (1 / 1000 <= temperature self <= 1000)%R ->
  (c * c <= 40 * temperature self)%R ->
  (1 / 1000 <= base_temperature self)%R ->
  (forall l, labels = Some l -> length l = N) ->
  exists r, forward self features labels None = Return (Fin r).
Proof.
  intros N V Hv HN HV Hmode Hfin Hrows HT Hc HbT Hlab.
  destruct (@bounded_rows_loss_finite self features labels c)
    as [r [Hr _]]; try assumption; try lra.
  now exists r.
Qed.

(** Rows that hold 1 or -1 only have norm 1. *)
Lemma bounded_rows_signs (m : matrix) :
  Forall (fun v => v = [Fin 1] \/ v = [Fin (-1)]) m -> bounded_rows 1 m.
Proof.
  intros H. unfold bounded_rows. eapply Forall_impl; [|exact H].
  intros v [-> | ->].
  - change [Fin 1] with (map Fin [1%R]). rewrite norm2_reals. eexists.
    split; [reflexivity|]. simpl.
    replace (1 * 1 + 0)%R with 1%R by lra. rewrite sqrt_1. lra.
  - change [Fin (-1)] with (map Fin [(-1)%R]). rewrite norm2_reals. eexists.
    split; [reflexivity|]. simpl.
    replace (-1 * -1 + 0)%R with 1%R by lra. rewrite sqrt_1. lra.
Qed.

Lemma multi_view_loss_finite_witness :
  exists r,
    forward SupConLoss_default
            (mkTensor [2; 3; 1]
               [Fin 1; Fin 1; Fin 1; Fin (-1); Fin (-1); Fin (-1)])
            (Some [5; 5]%Z) None = Return (Fin r).
Proof.
  apply (@multi_view_loss_finite SupConLoss_default
           (mkTensor [2; 3; 1]
              [Fin 1; Fin 1; Fin 1; Fin (-1); Fin (-1); Fin (-1)])
           (Some [5; 5]%Z) 1).
  - left; reflexivity.
  - simpl; lia.
  - simpl; lia.
  - left; reflexivity.
  - repeat constructor.
  - apply bounded_rows_signs. cbn.
    repeat (apply Forall_cons;
            [(left; reflexivity) || (right; reflexivity)|]).
    apply Forall_nil.
  - simpl; lra.
  - simpl; lra.
  - simpl; lra.
  - intros l H. injection H as <-. reflexivity.
Defined.


(** ** The number of positives of a row *)

Lemma Rsum_app (l1 l2 : list R) : Rsum (l1 ++ l2) = (Rsum l1 + Rsum l2)%R.
Proof. induction l1 as [|x l IH]; simpl; [lra|]. rewrite IH. lra. Qed.

Lemma map_seq_shift {A : Type} (f : nat -> A) (k s n : nat) :
  map f (seq (s + k) n) = map (fun q => f (q + k)) (seq s n).
Proof.
  revert s. induction n as [|n IH]; intros s; simpl; [reflexivity|].
  f_equal. apply (IH (S s)).
Qed.

Lemma Rsum_periodic (g : nat -> R) (N V : nat) :
  Rsum (map (fun q => g (q mod N)) (seq 0 (V * N))) =
  (INR V * Rsum (map g (seq 0 N)))%R.
Proof.
  induction V as [|V IH].
  - simpl. lra.
  - replace (S V * N) with (N + V * N) by lia.
    rewrite seq_app, map_app, Rsum_app. rewrite S_INR.
    assert (E1 : map (fun q => g (q mod N)) (seq 0 N) = map g (seq 0 N)).
    { apply map_ext_in. intros q Hq. apply in_seq in Hq.
      rewrite Nat.mod_small by lia. reflexivity. }
    rewrite E1.
    rewrite (map_seq_shift (fun q => g (q mod N)) N 0 (V * N)).
    assert (E2 : map (fun q => g ((q + N) mod N)) (seq 0 (V * N)) =
                 map (fun q => g (q mod N)) (seq 0 (V * N))).
    { apply map_ext. intros q.
      replace (q + N) with (q + 1 * N) by lia.
      now rewrite Nat.Div0.mod_add. }
    rewrite E2, IH. lra.
Qed.

Lemma Rsum_count (x : Z) (l : list Z) :
  Rsum (map (fun j => indicator (Z.eqb x (nth j l 0%Z))) (seq 0 (length l))) =
  INR (count_occ Z.eq_dec l x).
Proof.
  rewrite <- (map_map (fun j => nth j l 0%Z) (fun y => indicator (Z.eqb x y))).
  rewrite <- (list_eq_map_seq l 0%Z).
  induction l as [|y l IH]; [reflexivity|].
  cbn [map Rsum fold_right count_occ]. fold (Rsum (map (fun y => indicator (Z.eqb x y)) l)).
  rewrite IH. destruct (Z.eq_dec y x) as [->|Hne].
  - rewrite Z.eqb_refl, S_INR. simpl. lra.
  - destruct (Z.eqb_spec x y); [congruence|]. simpl. lra.
Qed.

(** Row sum of the mask tiled from a 0/1 base mask with ones on its
    diagonal. *)
Lemma tiled_row_sum (b : nat -> nat -> bool) (N V p : nat) :
  p < V * N -> b (p mod N) (p mod N) = true ->
  Rsum (map (fun q => indicator (b (p mod N) (q mod N) && negb (q =? p)))
            (seq 0 (V * N))) =
  (INR V * Rsum (map (fun j => indicator (b (p mod N) j)) (seq 0 N)) - 1)%R.
Proof.
  intros Hp Hdiag.
  rewrite <- (Rsum_periodic (fun j => indicator (b (p mod N) j))).
  assert (E : forall l,
    Rsum (map (fun q => indicator (b (p mod N) (q mod N) && negb (q =? p))) l)
    = (Rsum (map (fun q => indicator (b (p mod N) (q mod N))) l)
       - Rsum (map (fun q => indicator (q =? p)) l))%R).
  { induction l as [|q l IH]; simpl; [lra|].
    fold (Rsum (map (fun q => indicator (b (p mod N) (q mod N)
                                         && negb (q =? p))) l)).
    fold (Rsum (map (fun q => indicator (b (p mod N) (q mod N))) l)).
    fold (Rsum (map (fun q => indicator (q =? p)) l)).
    rewrite IH. destruct (Nat.eqb_spec q p) as [->|Hne].
    - rewrite Hdiag. simpl. lra.
    - destruct (b (p mod N) (q mod N)); simpl; lra. }
  rewrite E, Rsum_single.
  destruct (Nat.leb_spec 0 p); [|lia].
  destruct (Nat.ltb_spec p (0 + V * N)); [|lia]. simpl. lra.
Qed.

(** Every row of the mask counts its positives: with labels, [V] times the
    number of samples that carry the label of the row's sample, minus the
    row itself; without labels, the [V - 1] other views of the sample. *)
Theorem mask_row_sums (V : nat) (labels : list Z) (p : nat) :
  let N := length labels in
  p < V * N ->
  (exists mask,
     build_mask N V (Some labels) = Return mask /\
     sum (nth p mask []) =
     Fin (INR V * INR (count_occ Z.eq_dec labels (nth (p mod N) labels 0%Z))
          - 1)) /\
  (exists mask,
     build_mask N V None = Return mask /\
     sum (nth p mask []) = Fin (INR V - 1)).
Proof.
  intros N Hp. split.
  - unfold N in *. rewrite build_mask_labels. eexists. split; [reflexivity|].
    rewrite row_tab by assumption.
    rewrite (sum_Fin (fun q => indicator
      (Z.eqb (nth (p mod length labels) labels 0%Z)
             (nth (q mod length labels) labels 0%Z) && negb (q =? p)))).
    f_equal.
    rewrite (tiled_row_sum
               (fun i j => Z.eqb (nth i labels 0%Z) (nth j labels 0%Z)))
      by (auto using Z.eqb_refl).
    now rewrite Rsum_count.
  - rewrite build_mask_identity. eexists. split; [reflexivity|].
    rewrite row_tab by assumption.
    rewrite (sum_Fin (fun q => indicator
      ((p mod N =? q mod N) && negb (q =? p)))).
    f_equal.
    rewrite (tiled_row_sum (fun i j => i =? j))
      by (auto using Nat.eqb_refl).
    erewrite map_ext.
    2:{ intros j. rewrite Nat.eqb_sym. reflexivity. }
    rewrite Rsum_single.
    assert (HN : p mod N < N) by (apply Nat.mod_upper_bound; lia).
    destruct (Nat.leb_spec 0 (p mod N)); [|lia].
    destruct (Nat.ltb_spec (p mod N) (0 + N)); [|lia]. simpl. lra.
Qed.

Lemma mask_row_sums_witness :
  exists mask,
    build_mask 3 2 (Some [4; 9; 4]%Z) = Return mask /\
    sum (nth 5 mask []) =
    Fin (INR 2 * INR (count_occ Z.eq_dec [4; 9; 4]%Z 4%Z) - 1).
Proof.
  destruct (@mask_row_sums 2 [4; 9; 4]%Z 5) as [H _]; [simpl; lia|].
  exact H.
Defined.

(** * [calculate_accuracy] on two classes *)

Module BinaryAccuracy.
Import Accuracy.

Lemma expand_map {A B : Type} (f : A -> B) (k : nat) (l : list A) :
  expand k (map f l) = map f (expand k l).
Proof.
  unfold expand. rewrite length_map. destruct (length l =? k); [reflexivity|].
  destruct l as [|x l]; [reflexivity|]. simpl. now rewrite map_repeat.
Qed.

Lemma Forall_expand {A : Type} (P : A -> Prop) (k : nat) (l : list A) :
  Forall P l -> Forall P (expand k l).
Proof.
  intros H. unfold expand. destruct (length l =? k); [assumption|].
  destruct H as [|x l Hx _]; [constructor|].
  apply Forall_forall. intros y Hy. apply repeat_spec in Hy. now subst.
Qed.

Lemma zip_with_maps {A A' B B' C : Type} (f : A' -> B' -> C)
  (g : A -> A') (h : B -> B') (a : list A) (b : list B) :
  zip_with f (map g a) (map h b) = zip_with (fun x y => f (g x) (h y)) a b.
Proof.
  revert b. induction a as [|x a IH]; intros [|y b]; simpl; try reflexivity.
  now rewrite IH.
Qed.

Lemma zip_with_ext_Forall {A B C : Type} (f g : A -> B -> C)
  (P : A -> Prop) (Q : B -> Prop) (a : list A) (b : list B) :
  (forall x y, P x -> Q y -> f x y = g x y) ->
  Forall P a -> Forall Q b -> zip_with f a b = zip_with g a b.
Proof.
  intros Hfg Ha. revert b. induction Ha as [|x a Hx _ IH]; intros b Hb;
    [reflexivity|].
  destruct Hb as [|y b Hy Hb]; [reflexivity|]. simpl.
  rewrite Hfg by assumption. now rewrite IH.
Qed.

Lemma argmax_two_classes (output : list (list Q)) :
  Forall (fun row => length row = 2) output ->
  exists idx, sequence (map argmax output) = Return idx /\
              length idx = length output /\
              Forall (fun i => i = 0 \/ i = 1) idx.
Proof.
  induction 1 as [|row output Hrow _ [idx [Hidx [Hlen Hall]]]].
  - exists []. repeat split; constructor.
  - destruct row as [|x [|y [|z row]]]; try discriminate.
    exists ((if Qle_bool y x then 0 else 1) :: idx).
    split; [|split].
    + cbn [map sequence argmax argmax_from]. rewrite Hidx.
      now destruct (Qle_bool y x).
    + simpl. now rewrite Hlen.
    + constructor; [destruct (Qle_bool y x); auto|assumption].
Qed.

(** On scores over two classes and targets that are 0 or 1,
    [calculate_accuracy] is the top-1 accuracy: the comparison with the
    fixed value 1 is right for binary classification. *)
Theorem binary_accuracy_is_top1 (output : list (list Q)) (target : list Z) :
  Forall (fun row => length row = 2) output ->
  Forall (fun t => t = 0%Z \/ t = 1%Z) target ->
  calculate_accuracy output target = top1_accuracy output target.
Proof.
  intros Hout Htgt.
  destruct (argmax_two_classes Hout) as [idx [Hidx [_ Hall]]].
  unfold calculate_accuracy, top1_accuracy. rewrite Hidx. cbn [bind].
  unfold broadcast1. rewrite !length_map.
  destruct (bcast_len (length target) (length idx)) as [k|]; [|reflexivity].
  cbn [bind]. do 2 f_equal. f_equal.
  rewrite !expand_map, zip_with_maps.
  apply zip_with_ext_Forall
    with (P := fun t => t = 0%Z \/ t = 1%Z) (Q := fun i => i = 0 \/ i = 1).
  - intros t i [-> | ->] [-> | ->]; reflexivity.
  - now apply Forall_expand.
  - now apply Forall_expand.
Qed.

Lemma binary_accuracy_is_top1_witness :
  calculate_accuracy [[1 # 5; 4 # 5]; [9 # 10; 1 # 10]] [1; 1]%Z =
  top1_accuracy [[1 # 5; 4 # 5]; [9 # 10; 1 # 10]] [1; 1]%Z.
Proof.
  apply (@binary_accuracy_is_top1 [[1 # 5; 4 # 5]; [9 # 10; 1 # 10]]
           [1; 1]%Z).
  - repeat constructor.
  - repeat constructor; now right.
Defined.

End BinaryAccuracy.

(** * [EarlyStopping] *)

(** The class adds two doubles in [best_score + delta]; the sum is exact
    here.  The properties below do not depend on how that sum is rounded:
    they rest on the order of the calls, on comparisons with NaN, on a
    loss strictly above the best one, or on a bound that a sum rounded to
    the nearest double satisfies as well. *)

(** [x < y] on numbers that may be infinite or NaN: false when either side
    is NaN. *)
Definition float_lt (x y : float) : bool :=
  match x, y with
  | Fin a, Fin b => if Rlt_dec a b then true else false
  | NInf, Fin _ | NInf, PInf | Fin _, PInf => true
  | _, _ => false
  end.

Module EarlyStop.

Section WithModel.

(** What [model.state_dict()] holds. *)
Variable StateDict : Type.

(** The lines written through [trace_func]. *)
Inductive message : Type :=
| CounterMessage (counter patience : Z)
| LossDecreased (val_loss_min val_loss : float).

(** The object, with the file at [path] ([checkpoint]: what was saved last,
    if anything) and the lines printed so far ([printed]). *)
Record EarlyStopping : Type := mkEarlyStopping {
  patience : Z;
  verbose : bool;
  counter : Z;
  best_score : option float;
  early_stop : bool;
  val_loss_min : float;
  delta : R;
  checkpoint : option StateDict;
  printed : list message
}.

(** [EarlyStopping(patience, verbose, delta)]; [np.Inf] is [PInf]. *)
Definition init (patience : Z) (verbose : bool) (delta : R) : EarlyStopping :=
  mkEarlyStopping patience verbose 0 None false PInf delta None [].

Definition save_checkpoint (self : EarlyStopping) (val_loss : float)
  (model : StateDict) : EarlyStopping :=
  let printed' :=
    if verbose self
    then printed self ++ [LossDecreased (val_loss_min self) val_loss]
    else printed self in
  mkEarlyStopping (patience self) (verbose self) (counter self)
    (best_score self) (early_stop self) val_loss (delta self)
    (Some model) printed'.

Definition set_best_score (self : EarlyStopping) (score : float)
  : EarlyStopping :=
  mkEarlyStopping (patience self) (verbose self) (counter self)
    (Some score) (early_stop self) (val_loss_min self) (delta self)
    (checkpoint self) (printed self).

Definition set_counter (self : EarlyStopping) (c : Z) : EarlyStopping :=
  mkEarlyStopping (patience self) (verbose self) c
    (best_score self) (early_stop self) (val_loss_min self) (delta self)
    (checkpoint self) (printed self).

(** [self.counter += 1] followed by the call of [trace_func] *)
Definition count_up (self : EarlyStopping) : EarlyStopping :=
  mkEarlyStopping (patience self) (verbose self) (counter self + 1)
    (best_score self) (early_stop self) (val_loss_min self) (delta self)
    (checkpoint self)
    (printed self ++ [CounterMessage (counter self + 1) (patience self)]).

Definition set_early_stop (self : EarlyStopping) : EarlyStopping :=
  mkEarlyStopping (patience self) (verbose self) (counter self)
    (best_score self) true (val_loss_min self) (delta self)
    (checkpoint self) (printed self).

(** [EarlyStopping.__call__(val_loss, model)] *)
Definition call (self : EarlyStopping) (val_loss : float) (model : StateDict)
  : EarlyStopping :=
  let score := neg val_loss in
  match best_score self with
  | None =>
      let self := set_best_score self score in
      save_checkpoint self val_loss model
  | Some best =>
      if float_lt score (add best (Fin (delta self))) then
        let self := count_up self in
        if (patience self <=? counter self)%Z then set_early_stop self
        else self
      else
        let self := set_best_score self score in
        let self := save_checkpoint self val_loss model in
        set_counter self 0
  end.

(** One call per epoch, as in the loop of [main] without its [break]. *)
Definition run (self : EarlyStopping) (epochs : list (float * StateDict))
  : EarlyStopping :=
  fold_left (fun es e => call es (fst e) (snd e)) epochs self.

Lemma call_no_improvement self best val_loss model :
  best_score self = Some best ->
  float_lt (neg val_loss) (add best (Fin (delta self))) = true ->
  call self val_loss model =
  (if (patience self <=? counter self + 1)%Z
   then set_early_stop (count_up self) else count_up self).
Proof.
  intros Hb Hn. unfold call. rewrite Hb, Hn. reflexivity.
Qed.

Lemma run_no_improvement (losses : list (float * StateDict)) :
  forall self best,
    best_score self = Some best ->
    Forall (fun e => float_lt (neg (fst e)) (add best (Fin (delta self)))
                     = true) losses ->
    let self' := run self losses in
    best_score self' = Some best /\
    checkpoint self' = checkpoint self /\
    val_loss_min self' = val_loss_min self /\
    delta self' = delta self /\ patience self' = patience self /\
    counter self' = (counter self + Z.of_nat (length losses))%Z /\
    early_stop self' =
      early_stop self
      || (negb (length losses =? 0)
          && (patience self <=? counter self + Z.of_nat (length losses))%Z).
Proof.
  induction losses as [|[l m] losses IH]; intros self best Hb Hall.
  - cbv zeta. cbn [run fold_left length Nat.eqb negb andb].
    rewrite orb_false_r. repeat split; auto; lia.
  - inversion Hall as [|? ? Hl Hrest]; subst. cbn [fst] in Hl.
    cbv zeta. cbn [run fold_left fst snd].
    rewrite (call_no_improvement self l m Hb Hl).
    set (self1 := if (patience self <=? counter self + 1)%Z
                  then set_early_stop (count_up self) else count_up self).
    assert (H1 : best_score self1 = Some best /\
                 checkpoint self1 = checkpoint self /\
                 val_loss_min self1 = val_loss_min self /\
                 delta self1 = delta self /\ patience self1 = patience self /\
                 counter self1 = (counter self + 1)%Z /\
                 early_stop self1 =
                   early_stop self || (patience self <=? counter self + 1)%Z).
    { unfold self1. destruct (patience self <=? counter self + 1)%Z; simpl;
        repeat split; auto; now rewrite ?orb_true_r, ?orb_false_r. }
    destruct H1 as [Hb1 [Hc1 [Hv1 [Hd1 [Hp1 [Hn1 He1]]]]]].
    destruct (IH self1 best Hb1) as [Hb' [Hc' [Hv' [Hd' [Hp' [Hn' He']]]]]].
    { rewrite Hd1. exact Hrest. }
    fold (run self1 losses).
    repeat split; try congruence.
    + rewrite Hn', Hn1. cbn [length]. lia.
    + rewrite He', He1, Hp1, Hn1. cbn [length].
      replace (counter self + 1 + Z.of_nat (length losses))%Z
        with (counter self + Z.of_nat (S (length losses)))%Z by lia.
      destruct (early_stop self); [reflexivity|]. cbn [orb negb Nat.eqb andb].
      destruct (Z.leb_spec (patience self) (counter self + 1));
        destruct (Z.leb_spec (patience self)
                    (counter self + Z.of_nat (S (length losses))));
        destruct (length losses =? 0) eqn:E; simpl; try reflexivity; try lia.
      apply Nat.eqb_eq in E. rewrite E in *. simpl in *. lia.
Qed.

(** A finite validation loss strictly above the loss of the best score
    [best] (the score is minus the loss). *)
Definition worse (best : float) (val_loss : float) : Prop :=
  exists b l, best = Fin b /\ val_loss = Fin l /\ (- b < l)%R.

(** With [delta >= 0] a worse loss is below [best + delta], and stays below
    it when the sum is rounded up or down to a number that is not below
    [best]. *)
Lemma worse_below_threshold (d : R) (best val_loss : float) :
  (0 <= d)%R -> worse best val_loss ->
  float_lt (neg val_loss) best = true /\
  float_lt (neg val_loss) (add best (Fin d)) = true.
Proof.
  intros Hd [b [l [-> [-> Hlt]]]]. simpl.
  destruct (Rlt_dec (- l) b); [|lra].
  destruct (Rlt_dec (- l) (b + d)); [|lra]. split; reflexivity.
Qed.

(** After an improvement (counter 0, no stop requested) and with
    [delta >= 0], [k] calls in a row with a loss strictly above the loss of
    the best score leave the best score and the checkpoint alone, bring the
    counter to [k], and request the stop exactly when [k] has reached
    [patience] (for [k >= 1]). *)
Theorem stop_after_patience (self : EarlyStopping) (best : float)
  (losses : list (float * StateDict)) :
  best_score self = Some best -> counter self = 0%Z ->
  early_stop self = false -> losses <> [] -> (0 <= delta self)%R ->
  Forall (fun e => worse best (fst e)) losses ->
  let self' := run self losses in
  best_score self' = Some best /\
  checkpoint self' = checkpoint self /\
  counter self' = Z.of_nat (length losses) /\
  (early_stop self' = true <-> (patience self <= Z.of_nat (length losses))%Z).
Proof.
  intros Hb Hc He Hne Hd Hall.
  assert (Hall' : Forall (fun e => float_lt (neg (fst e))
                                     (add best (Fin (delta self))) = true)
                         losses).
  { eapply Forall_impl; [|exact Hall]. intros e Hw.
    now apply worse_below_threshold. }
  destruct (run_no_improvement self Hb Hall')
    as [Hb' [Hc' [_ [_ [_ [Hn' He']]]]]].
  cbn zeta. repeat split; try assumption.
  - rewrite Hn', Hc. lia.
  - rewrite He', He, Hc. destruct losses; [congruence|]. cbn [length
      Nat.eqb negb orb andb]. intros H. now apply Z.leb_le in H.
  - rewrite He', He, Hc. destruct losses; [congruence|]. cbn [length
      Nat.eqb negb orb andb]. intros H. now apply Z.leb_le.
Qed.

(** A state right after a first call with loss 1/2, with [delta = 1/10000]
    as in [main]. *)
Definition example_state (model : StateDict) : EarlyStopping :=
  call (init 2 false (1 / 10000)) (Fin (1 / 2)) model.

Lemma example_worse : worse (Fin (- (1 / 2))) (Fin 1).
Proof. exists (- (1 / 2))%R, 1%R. repeat split. lra. Qed.

End WithModel.

Lemma stop_after_patience_witness :
  early_stop (run (example_state tt) [(Fin 1, tt); (Fin 1, tt)]) = true.
Proof.
  destruct (@stop_after_patience unit (example_state tt) (Fin (- (1 / 2)))
              [(Fin 1, tt); (Fin 1, tt)]) as [_ [_ [_ H]]].
  - reflexivity.
  - reflexivity.
  - reflexivity.
  - discriminate.
  - simpl. lra.
  - repeat constructor; apply example_worse.
  - apply H. simpl. lia.
Defined.

End EarlyStop.

Module EarlyStopFacts.
Import EarlyStop.

Section WithModel.

Variable StateDict : Type.
Abbreviation ES := (EarlyStopping StateDict).

Lemma call_keeps_stop (self : ES) val_loss model :
  early_stop self = true -> early_stop (call self val_loss model) = true.
Proof.
  intros H. unfold call. destruct (best_score self); [|exact H].
  destruct (float_lt _ _); [|exact H].
  destruct (_ <=? _)%Z; [reflexivity|exact H].
Qed.

(** Once the stop is requested it stays requested, whatever is reported
    afterwards: a later improvement resets the counter and saves a
    checkpoint but does not withdraw the request. *)
Theorem early_stop_is_sticky (self : ES) (epochs : list (float * StateDict)) :
  early_stop self = true -> early_stop (run self epochs) = true.
Proof.
  revert self. induction epochs as [|e epochs IH]; intros self H;
    [exact H|].
  cbn [run fold_left]. apply IH. now apply call_keeps_stop.
Qed.

(** A NaN validation loss is taken for an improvement: its model replaces
    the checkpoint and the best score becomes NaN.  The call after it is
    taken for an improvement too, whatever its loss: its model replaces the
    checkpoint and the counter is back to 0. *)
Theorem nan_loss_is_saved (self : ES) (model : StateDict) :
  let after := call self NaN model in
  checkpoint after = Some model /\
  best_score after = Some NaN /\
  val_loss_min after = NaN /\
  forall val_loss model',
    let next := call after val_loss model' in
    checkpoint next = Some model' /\
    best_score next = Some (neg val_loss) /\
    val_loss_min next = val_loss /\
    counter next = 0%Z.
Proof.
  assert (H : checkpoint (call self NaN model) = Some model /\
              best_score (call self NaN model) = Some NaN /\
              val_loss_min (call self NaN model) = NaN).
  { unfold call. destruct (best_score self) as [best|]; [|now repeat split].
    assert (E : float_lt (neg NaN) (add best (Fin (delta self))) = false)
      by reflexivity.
    rewrite E. now repeat split. }
  destruct H as [Hc [Hb Hv]]. cbv zeta. repeat split; try assumption.
  all: unfold call at 1; rewrite Hb;
    assert (E : float_lt (neg val_loss)
                  (add NaN (Fin (delta (call self NaN model)))) = false)
      by (now destruct val_loss);
    rewrite E; reflexivity.
Qed.

(** What a run on finite losses keeps: the checkpoint is the model of one
    of the losses reported so far, and no reported loss is more than
    [delta] below the loss of the checkpoint. *)
Definition checkpoint_near_minimum_of (d : R) (seen : list (R * StateDict))
  (self : ES) : Prop :=
  exists l m,
    In (l, m) seen /\
    val_loss_min self = Fin l /\ checkpoint self = Some m /\
    best_score self = Some (Fin (- l)) /\ delta self = d /\
    forall l' m', In (l', m') seen -> (l - d <= l')%R.

Definition finite_epoch (e : R * StateDict) : float * StateDict :=
  (Fin (fst e), snd e).

Lemma call_near_minimum d seen (self : ES) l m :
  (0 <= d)%R -> checkpoint_near_minimum_of d seen self ->
  checkpoint_near_minimum_of d (seen ++ [(l, m)]) (call self (Fin l) m).
Proof.
  intros Hd [l0 [m0 [Hin [Hv [Hc [Hb [Hdel Hmin]]]]]]].
  unfold call. rewrite Hb, Hdel. cbn [neg add float_lt].
  destruct (Rlt_dec (- l) (- l0 + d)) as [Hlt|Hge].
  - exists l0, m0.
    assert (Hsame : forall s : ES,
              (s = count_up self \/ s = set_early_stop (count_up self)) ->
              In (l0, m0) (seen ++ [(l, m)]) /\
              val_loss_min s = Fin l0 /\ checkpoint s = Some m0 /\
              best_score s = Some (Fin (- l0)) /\ delta s = d /\
              forall l' m', In (l', m') (seen ++ [(l, m)]) ->
                            (l0 - d <= l')%R).
    { intros s Hs. split; [apply in_or_app; now left|].
      split; [destruct Hs; subst s; exact Hv|].
      split; [destruct Hs; subst s; exact Hc|].
      split; [destruct Hs; subst s; exact Hb|].
      split; [destruct Hs; subst s; exact Hdel|].
      intros l' m' Hin'. apply in_app_or in Hin' as [Hin'|[Heq|[]]].
      - now apply (Hmin l' m').
      - inversion Heq; subst. lra. }
    destruct (_ <=? _)%Z; apply Hsame; auto.
  - exists l, m. split; [apply in_or_app; right; now left|].
    repeat split; try assumption.
    intros l' m' Hin'. apply in_app_or in Hin' as [Hin'|[Heq|[]]].
    + pose proof (Hmin l' m' Hin'). lra.
    + inversion Heq; subst. lra.
Qed.

Lemma run_near_minimum d (epochs : list (R * StateDict)) :
  forall seen (self : ES),
    (0 <= d)%R -> checkpoint_near_minimum_of d seen self ->
    checkpoint_near_minimum_of d (seen ++ epochs)
      (run self (map finite_epoch epochs)).
Proof.
  induction epochs as [|[l m] epochs IH]; intros seen self Hd H.
  - now rewrite app_nil_r.
  - cbn [map run fold_left finite_epoch fst snd].
    replace (seen ++ (l, m) :: epochs) with ((seen ++ [(l, m)]) ++ epochs)
      by (now rewrite <- app_assoc).
    apply IH; [assumption|]. now apply call_near_minimum.
Qed.

(** From a new [EarlyStopping] with [delta >= 0], after any non-empty
    sequence of finite validation losses the checkpoint holds the model of
    one of the epochs, [val_loss_min] is the loss of that epoch, and no
    epoch had a loss more than [delta] below it. *)
Theorem checkpoint_near_minimum (p : Z) (v : bool) (d : R)
  (epochs : list (R * StateDict)) :
  (0 <= d)%R -> epochs <> [] ->
  let self := run (init StateDict p v d) (map finite_epoch epochs) in
  exists l m,
    In (l, m) epochs /\
    val_loss_min self = Fin l /\ checkpoint self = Some m /\
    forall l' m', In (l', m') epochs -> (l - d <= l')%R.
Proof.
  intros Hd Hne. destruct epochs as [|[l0 m0] epochs]; [congruence|].
  cbv zeta. cbn [map run fold_left finite_epoch fst snd].
  assert (H0 : checkpoint_near_minimum_of d [(l0, m0)]
                 (call (init StateDict p v d) (Fin l0) m0)).
  { exists l0, m0. repeat split; try (now left).
    intros l' m' [Heq|[]]. inversion Heq; subst. lra. }
  destruct (run_near_minimum epochs Hd H0)
    as [l [m [Hin [Hv [Hc [_ [_ Hmin]]]]]]].
  exists l, m. repeat split; assumption.
Qed.

End WithModel.

Lemma early_stop_is_sticky_witness :
  early_stop (run (set_early_stop (init unit 1 false 0)) [(Fin 0, tt)]) = true.
Proof.
  apply (@early_stop_is_sticky unit). reflexivity.
Defined.

Lemma checkpoint_near_minimum_witness :
  exists l m,
    In (l, m) [(3%R, 30); (1%R, 10); (2%R, 20)] /\
    val_loss_min (run (init nat 7 false 0)
                      (map (@finite_epoch nat)
                           [(3%R, 30); (1%R, 10); (2%R, 20)])) = Fin l /\
    checkpoint (run (init nat 7 false 0)
                    (map (@finite_epoch nat)
                         [(3%R, 30); (1%R, 10); (2%R, 20)])) = Some m /\
    forall l' m', In (l', m') [(3%R, 30); (1%R, 10); (2%R, 20)] ->
                  (l - 0 <= l')%R.
Proof.
  apply (@checkpoint_near_minimum nat 7 false 0
           [(3%R, 30); (1%R, 10); (2%R, 20)]); [lra|discriminate].
Defined.

End EarlyStopFacts.

(** * [MetricMonitor] *)

(** The class adds doubles in its running sum; the sum is exact here.  The
    properties below do not depend on the value of a finite sum. *)

Module Monitor.

(** One entry of [self.metrics] *)
Record metric : Type := mkMetric {
  val : float;
  count : nat;
  avg : float
}.

(** [self.metrics]: the entries in the order in which their names were
    first used, as the dictionary keeps them. *)
Definition MetricMonitor : Type := list (string * metric).

(** The value of the [defaultdict] for a name not seen yet *)
Definition default_metric : metric := mkMetric (Fin 0) 0 (Fin 0).

Definition reset : MetricMonitor := [].

Fixpoint lookup (name : string) (self : MetricMonitor) : option metric :=
  match self with
  | [] => None
  | (k, m) :: rest => if String.eqb k name then Some m else lookup name rest
  end.

(** The three assignments of [update] on one entry *)
Definition add_value (m : metric) (v : float) : metric :=
  let val' := add (val m) v in
  let count' := S (count m) in
  mkMetric val' count' (div val' (Fin (INR count'))).

(** [update(metric_name, val)]: the entry is created with the default when
    the name is new. *)
Fixpoint update (self : MetricMonitor) (metric_name : string) (v : float)
  : MetricMonitor :=
  match self with
  | [] => [(metric_name, add_value default_metric v)]
  | (k, m) :: rest =>
      if String.eqb k metric_name then (k, add_value m v) :: rest
      else (k, m) :: update rest metric_name v
  end.

(** [self.metrics[name]['avg']]: reading a name not seen yet creates its
    entry. *)
Definition read_avg (self : MetricMonitor) (name : string)
  : float * MetricMonitor :=
  match lookup name self with
  | Some m => (avg m, self)
  | None => (avg default_metric, self ++ [(name, default_metric)])
  end.

Definition updates (self : MetricMonitor) (us : list (string * float))
  : MetricMonitor :=
  fold_left (fun mm u => update mm (fst u) (snd u)) us self.

(** The values given for one name, in order *)
Definition values_of (name : string) (us : list (string * float))
  : list float :=
  map snd (filter (fun u => String.eqb (fst u) name) us).

Lemma lookup_update self k v name :
  lookup name (update self k v) =
  if String.eqb k name
  then Some (add_value (match lookup name self with
                        | Some m => m
                        | None => default_metric
                        end) v)
  else lookup name self.
Proof.
  induction self as [|[k' m] rest IH]; simpl.
  - destruct (String.eqb k name); reflexivity.
  - destruct (String.eqb_spec k' k) as [->|Hne]; simpl.
    + destruct (String.eqb k name); reflexivity.
    + rewrite IH. destruct (String.eqb_spec k' name) as [->|Hne'];
        [|reflexivity].
      destruct (String.eqb_spec k name); [congruence|reflexivity].
Qed.

Lemma lookup_updates name (us : list (string * float)) :
  forall self,
    lookup name (updates self us) =
    match values_of name us with
    | [] => lookup name self
    | vs => Some (fold_left add_value vs
                    (match lookup name self with
                     | Some m => m
                     | None => default_metric
                     end))
    end.
Proof.
  induction us as [|[k v] us IH]; intros self; [reflexivity|].
  cbn [updates fold_left fst snd]. fold (updates (update self k v) us).
  rewrite IH, lookup_update. unfold values_of. cbn [filter fst].
  destruct (String.eqb k name); cbn [map snd fold_left].
  - destruct (map snd (filter _ us)); reflexivity.
  - reflexivity.
Qed.

Lemma fold_add_value (vs : list float) :
  forall m,
    val (fold_left add_value vs m) = fold_left add vs (val m) /\
    count (fold_left add_value vs m) = count m + length vs /\
    (vs <> [] ->
     avg (fold_left add_value vs m) =
     div (fold_left add vs (val m)) (Fin (INR (count m + length vs)))).
Proof.
  induction vs as [|v vs IH]; intros m.
  - simpl. repeat split; [lia|congruence].
  - cbn [fold_left length]. destruct (IH (add_value m v)) as [Hv [Hc Ha]].
    cbn [add_value val count] in *.
    split; [exact Hv|]. split; [rewrite Hc; lia|]. intros _.
    destruct vs as [|w vs].
    + cbn [fold_left add_value avg length].
      now replace (count m + 1) with (S (count m)) by lia.
    + rewrite Ha by discriminate.
      now replace (S (count m) + length (w :: vs))
        with (count m + S (length (w :: vs))) by lia.
Qed.

Lemma fold_add_NaN (vs : list float) : fold_left add vs NaN = NaN.
Proof. induction vs as [|v vs IH]; [reflexivity|]. exact IH. Qed.

Lemma fold_add_NaN_member (vs : list float) (x : float) :
  In NaN vs -> fold_left add vs x = NaN.
Proof.
  revert x. induction vs as [|v vs IH]; intros x H; [contradiction|].
  cbn [fold_left]. destruct H as [->|H].
  - rewrite add_NaN_r. apply fold_add_NaN.
  - now apply IH.
Qed.

Lemma values_of_own (name : string) (vs : list float) :
  values_of name (map (fun v => (name, v)) vs) = vs.
Proof.
  unfold values_of. induction vs as [|v vs IH]; [reflexivity|].
  cbn [map filter fst]. rewrite String.eqb_refl. cbn [map snd].
  now f_equal.
Qed.

(** Starting from [reset], the updates of other metrics do not reach a
    metric: its entry is the one it has when its own updates are the only
    ones made.  A metric never updated has no entry; the entry of an
    updated metric has counted its updates, and its average is its sum
    divided by its count. *)
Theorem monitor_metrics_independent (us : list (string * float))
  (name : string) :
  lookup name (updates reset us) =
    lookup name
      (updates reset (map (fun v => (name, v)) (values_of name us))) /\
  (lookup name (updates reset us) = None <-> values_of name us = []) /\
  (forall m, lookup name (updates reset us) = Some m ->
     count m = length (values_of name us) /\
     avg m = div (val m) (Fin (INR (count m)))).
Proof.
  split; [|split].
  - now rewrite !lookup_updates, values_of_own.
  - rewrite lookup_updates. cbn [lookup reset].
    destruct (values_of name us); split; congruence.
  - intros m. rewrite lookup_updates. cbn [lookup reset].
    destruct (values_of name us) as [|v vs]; [discriminate|].
    intros H. injection H as <-.
    change (fold_left add_value vs (add_value default_metric v))
      with (fold_left add_value (v :: vs) default_metric).
    destruct (fold_add_value (v :: vs) default_metric) as [Hv [Hc Ha]].
    rewrite Ha by discriminate. now rewrite Hv, Hc.
Qed.

(** One NaN among the values of a metric makes its sum and its average NaN,
    whatever is added before or after. *)
Theorem monitor_nan_poisons (us : list (string * float)) (name : string) :
  In NaN (values_of name us) ->
  exists m, lookup name (updates reset us) = Some m /\
            val m = NaN /\ avg m = NaN /\
            count m = length (values_of name us).
Proof.
  intros Hin. rewrite lookup_updates. cbn [lookup reset].
  destruct (values_of name us) as [|v vs] eqn:E; [contradiction|].
  eexists. split; [reflexivity|].
  destruct (fold_add_value (v :: vs) default_metric) as [Hv [Hc Ha]].
  rewrite Hv, Hc, Ha by discriminate.
  rewrite (fold_add_NaN_member _ _ Hin). repeat split.
Qed.

Lemma monitor_nan_poisons_witness :
  exists m,
    lookup "Loss" (updates reset [("Loss", Fin 1); ("Loss", NaN)]) = Some m /\
    val m = NaN /\ avg m = NaN /\
    count m = length (values_of "Loss" [("Loss", Fin 1); ("Loss", NaN)]).
Proof.
  apply (@monitor_nan_poisons [("Loss", Fin 1); ("Loss", NaN)] "Loss").
  right; left; reflexivity.
Defined.

End Monitor.

(** * The classifiers: [LinearClassifier.forward] and [Model.forward] *)

Module Classifier.

(** Column [j] of a matrix *)
Definition column (j : nat) (m : matrix) : list float :=
  map (fun r => nth j r NaN) m.

(** One entry [e] of the softmax of a slice, as the library computes it:
    the maximum of the slice is subtracted before the exponential. *)
Definition softmax_entry (slice : list float) (e : float) : float :=
  let m := max_row slice in
  div (exp (sub e m)) (sum (map (fun y => exp (sub y m)) slice)).

(** [torch.nn.functional.softmax(x, dim=0)] of a matrix: the softmax of
    every column. *)
Definition softmax0 (x : matrix) : matrix :=
  map (fun r =>
         map (fun j => softmax_entry (column j x) (nth j r NaN))
             (seq 0 (length r)))
      x.

(** [torch.nn.functional.softmax(x, dim=1)]: the softmax of every row. *)
Definition softmax1 (x : matrix) : matrix :=
  map (fun r => map (softmax_entry r) r) x.

(** [LinearClassifier.forward]; [fc] is the linear layer. *)
Definition LinearClassifier_forward (fc : matrix -> matrix) (x : matrix)
  : matrix :=
  let x := fc x in
  let probs := softmax0 x in
  probs.

(** The end of [Model.forward] of the classification notebook, from the
    flattened features on; [fc1] and [fc2] are the two linear layers. *)
Definition Model_forward_tail (fc1 fc2 : matrix -> matrix) (x : matrix)
  : matrix :=
  let x := fc1 x in
  let x := fc2 x in
  softmax1 x.

Definition Rsum_list (l : list R) : R := fold_right Rplus 0%R l.

Lemma Rsum_list_div {A : Type} (f : A -> R) (S : R) (l : list A) :
  Rsum_list (map (fun r => (f r / S)%R) l) = (Rsum_list (map f l) / S)%R.
Proof.
  unfold Rsum_list. induction l as [|x l IH]; simpl.
  - unfold Rdiv. lra.
  - rewrite IH. unfold Rdiv. lra.
Qed.

Lemma exp32_nonneg v : (0 <= exp32 v)%R.
Proof.
  pose proof (exp_pos v).
  destruct (exp32_cases v) as [[E _]|[E _]]; rewrite E; lra.
Qed.

Lemma exp32_0 : exp32 0 = 1%R.
Proof.
  assert (Hu : (exp_underflow < 1)%R).
  { unfold exp_underflow.
    assert (H1 : (1 < 2 ^ 150)%R) by (apply Rlt_pow_R1; [lra|lia]).
    assert (H2 : (/ 2 ^ 150 < / 1)%R)
      by (apply Rinv_lt_contravar; lra).
    rewrite Rinv_1 in H2. exact H2. }
  destruct (exp32_cases 0) as [[_ H]|[E _]]; rewrite exp_0 in *; [lra|].
  exact E.
Qed.

Lemma Rmax_row_In (x : R) (r : list R) : In (Rmax_row x r) (x :: r).
Proof.
  unfold Rmax_row. revert x. induction r as [|y r IH]; intros x; simpl.
  - now left.
  - destruct (IH (Rmax x y)) as [H|H]; [|now right; right].
    rewrite <- H. unfold Rmax. destruct (Rle_dec x y); auto.
Qed.

(** The maximum of a non-empty finite slice is one of its entries. *)
Lemma max_row_In (l : list R) :
  l <> [] -> exists m, max_row (map Fin l) = Fin m /\ In m l.
Proof.
  destruct l as [|x r]; [congruence|]. intros _.
  exists (Rmax_row x r). split; [|apply Rmax_row_In].
  exact (max_row_Fin (fun y => y) x r (fun u v => eq_refl)).
Qed.

(** The exponentials of a slice shifted by one of its entries have a
    positive sum: the exponential of that entry is 1. *)
Lemma shifted_sum_pos (l : list R) (m : R) :
  In m l -> (0 < Rsum_list (map (fun y => exp32 (y + - m)) l))%R.
Proof.
  unfold Rsum_list. induction l as [|x l IH]; intros Hm; [contradiction|].
  simpl.
  assert (Hl : (0 <= fold_right Rplus 0 (map (fun y => exp32 (y + - m)) l))%R).
  { clear. induction l as [|y l IH]; simpl; [lra|].
    pose proof (exp32_nonneg (y + - m)). lra. }
  pose proof (exp32_nonneg (x + - m)) as Hx.
  destruct Hm as [->|Hm].
  - replace (m + - m)%R with 0%R by lra. rewrite exp32_0. lra.
  - specialize (IH Hm). lra.
Qed.

(** The softmax of a non-empty finite slice, in real numbers. *)
Lemma softmax_entry_reals (l : list R) :
  l <> [] ->
  exists m, In m l /\
    forall y, softmax_entry (map Fin l) (Fin y) =
              Fin (exp32 (y + - m)
                   / Rsum_list (map (fun y => exp32 (y + - m)) l)).
Proof.
  intros Hne. destruct (max_row_In Hne) as [m [Hmax Hm]].
  exists m. split; [assumption|]. intros y.
  unfold softmax_entry. rewrite Hmax, map_map. cbn [sub neg add].
  rewrite exp_Fin.
  erewrite map_ext.
  2:{ intros z. cbn [sub neg add]. rewrite exp_Fin. reflexivity. }
  rewrite (sum_map_Fin (fun z => exp32 (z + - m))).
  pose proof (shifted_sum_pos _ _ Hm) as Hpos. unfold Rsum_list in *.
  rewrite div_Fin by lra. reflexivity.
Qed.

(** The softmax of a non-empty finite slice sums to 1. *)
Lemma softmax_slice_sum (l : list R) :
  l <> [] -> sum (map (softmax_entry (map Fin l)) (map Fin l)) = Fin 1.
Proof.
  intros Hne. destruct (softmax_entry_reals Hne) as [m [Hm Hsoft]].
  rewrite map_map.
  erewrite map_ext. 2:{ intros y. rewrite Hsoft. reflexivity. }
  set (S := Rsum_list (map (fun y => exp32 (y + - m)) l)).
  rewrite (sum_map_Fin (fun y => (exp32 (y + - m) / S)%R)). f_equal.
  fold (Rsum_list (map (fun y => (exp32 (y + - m) / S)%R) l)).
  rewrite (Rsum_list_div (fun y => exp32 (y + - m))). fold S.
  pose proof (shifted_sum_pos _ _ Hm) as Hpos. fold S in Hpos.
  field. lra.
Qed.

Lemma nth_Fin (r : list R) (j : nat) :
  j < length r -> nth j (map Fin r) NaN = Fin (nth j r 0%R).
Proof.
  intros Hj. rewrite (nth_indep _ NaN (Fin 0)) by now rewrite length_map.
  apply map_nth.
Qed.

Lemma column_reals (L : list (list R)) (C j : nat) :
  Forall (fun r => length r = C) L -> j < C ->
  column j (map (map Fin) L) = map Fin (map (fun r => nth j r 0%R) L).
Proof.
  intros HL Hj. unfold column. rewrite !map_map.
  apply map_ext_in. intros r Hr. rewrite Forall_forall in HL.
  apply nth_Fin. rewrite (HL r Hr). lia.
Qed.

(** Column [j] of the softmax over dimension 0 is the softmax of column
    [j]. *)
Lemma softmax0_column (X : matrix) (C j : nat) :
  Forall (fun r => length r = C) X -> j < C ->
  column j (softmax0 X) = map (softmax_entry (column j X)) (column j X).
Proof.
  intros HX Hj. unfold column at 1 3, softmax0. rewrite !map_map.
  apply map_ext_in. intros r Hr.
  rewrite Forall_forall in HX. rewrite (HX r Hr).
  rewrite (nth_indep _ NaN
             (softmax_entry (column 0 X) (nth 0 r NaN)))
    by now rewrite length_map, length_seq.
  rewrite (map_nth (fun j => softmax_entry (column j X) (nth j r NaN))).
  now rewrite seq_nth by assumption.
Qed.

(** [LinearClassifier] normalizes over the batch, not over the classes: for
    finite logits of a non-empty batch, the outputs of every class sum to 1
    over the samples of the batch. *)
Theorem linear_classifier_columns_sum_to_one (fc : matrix -> matrix)
  (x : matrix) (logits : list (list R)) (C j : nat) :
  fc x = map (map Fin) logits ->
  logits <> [] -> Forall (fun r => length r = C) logits -> j < C ->
  sum (column j (LinearClassifier_forward fc x)) = Fin 1.
Proof.
  intros Hfc Hne HL Hj. unfold LinearClassifier_forward. rewrite Hfc.
  rewrite (@softmax0_column (map (map Fin) logits) C j).
  - rewrite (column_reals HL Hj). apply softmax_slice_sum.
    destruct logits; [congruence|discriminate].
  - apply Forall_forall. intros r Hr. apply in_map_iff in Hr as [r' [<- Hr']].
    rewrite Forall_forall in HL. rewrite length_map. now apply HL.
  - assumption.
Qed.

Lemma linear_classifier_columns_sum_to_one_witness :
  sum (column 1 (LinearClassifier_forward (fun m => m)
                   [[Fin 0; Fin 3]; [Fin 2; Fin 1]])) = Fin 1.
Proof.
  apply (@linear_classifier_columns_sum_to_one (fun m => m)
           [[Fin 0; Fin 3]; [Fin 2; Fin 1]] [[0; 3]; [2; 1]]%R 2 1).
  - reflexivity.
  - discriminate.
  - repeat constructor.
  - lia.
Defined.

(** For a batch of one sample [LinearClassifier] returns 1 for every class,
    whatever the finite logits are. *)
Theorem linear_classifier_single_sample (fc : matrix -> matrix) (x : matrix)
  (logits : list R) :
  fc x = [map Fin logits] ->
  LinearClassifier_forward fc x = [map (fun _ => Fin 1) logits].
Proof.
  intros Hfc. unfold LinearClassifier_forward. rewrite Hfc.
  unfold softmax0. cbn [map]. f_equal. rewrite length_map.
  rewrite (list_eq_map_seq logits 0%R) at 2. rewrite map_map.
  apply map_ext_in. intros j Hj. apply in_seq in Hj.
  unfold column. cbn [map]. rewrite nth_Fin by lia.
  unfold softmax_entry. cbn [max_row fold_left map sub neg add].
  rewrite exp_Fin. cbn [sum fold_right add zero].
  replace (nth j logits 0 + - nth j logits 0)%R with 0%R by lra.
  rewrite exp32_0, div_Fin by lra. f_equal. lra.
Qed.

Lemma linear_classifier_single_sample_witness :
  LinearClassifier_forward (fun m => m) [[Fin 5; Fin (-2); Fin 0]] =
  [[Fin 1; Fin 1; Fin 1]].
Proof.
  apply (@linear_classifier_single_sample (fun m => m)
           [[Fin 5; Fin (-2); Fin 0]] [5; -2; 0]%R).
  reflexivity.
Defined.

(** [Model.forward] of the classification notebook normalizes over the
    classes: for finite logits with at least one class, the outputs of
    every sample sum to 1. *)
Theorem model_rows_sum_to_one (fc1 fc2 : matrix -> matrix) (x : matrix)
  (logits : list (list R)) :
  fc2 (fc1 x) = map (map Fin) logits ->
  Forall (fun r => r <> []) logits ->
  Forall (fun row => sum row = Fin 1) (Model_forward_tail fc1 fc2 x).
Proof.
  intros Hfc Hne. unfold Model_forward_tail. rewrite Hfc.
  unfold softmax1. rewrite map_map. apply Forall_forall.
  intros row Hrow. apply in_map_iff in Hrow as [r [<- Hr]].
  rewrite Forall_forall in Hne. apply softmax_slice_sum. now apply Hne.
Qed.

Lemma model_rows_sum_to_one_witness :
  Forall (fun row => sum row = Fin 1)
         (Model_forward_tail (fun m => m) (fun m => m)
            [[Fin 0; Fin 3]; [Fin 2; Fin 1]]).
Proof.
  apply (@model_rows_sum_to_one (fun m => m) (fun m => m)
           [[Fin 0; Fin 3]; [Fin 2; Fin 1]] [[0; 3]; [2; 1]]%R).
  - reflexivity.
  - repeat constructor; discriminate.
Defined.

End Classifier.

(** * [pretraining]: one epoch *)

Module Epoch.

Section Pretraining.

Variable Image : Type.

(** The optimizer with its state; [lr] reads
    [optimizer.param_groups[0]['lr']]. *)
Variable Optimizer : Type.
Variable lr : Optimizer -> float.

(** [optimizer.zero_grad(); loss.backward(); optimizer.step()]: the weights
    and the optimizer state after one batch. *)
Variable learn :
  SupCon Image -> Optimizer -> list Image -> list Z ->
  SupCon Image * Optimizer.

Variable criterion : SupConLoss.
Variable method : string.

(** One element of [contrastive_loader]: [(data[0], data[1]), labels] *)
Definition batch : Type := (list Image * list Image * list Z)%type.

Definition batch_input (b : batch) : list Image := fst (fst b) ++ snd (fst b).

(** The loop of [pretraining] *)
Fixpoint pretraining_loop (model : SupCon Image) (optimizer : Optimizer)
  (metric_monitor : Monitor.MetricMonitor) (loader : list batch)
  : Step Image (SupCon Image * Optimizer * Monitor.MetricMonitor) :=
  match loader with
  | [] => ret (model, optimizer, metric_monitor)
  | b :: rest =>
      let '(data0, data1, labels) := b in
      bind_step
        (pretraining_step model criterion method data0 data1 labels)
        (fun loss =>
           let metric_monitor := Monitor.update metric_monitor "Loss" loss in
           let metric_monitor :=
             Monitor.update metric_monitor "Learning Rate" (lr optimizer) in
           let '(model, optimizer) :=
             learn model optimizer (data0 ++ data1) labels in
           pretraining_loop model optimizer metric_monitor rest)
  end.

(** [pretraining]: the two averages, with the model and the optimizer as
    the epoch leaves them. *)
Definition pretraining (model : SupCon Image) (optimizer : Optimizer)
  (contrastive_loader : list batch)
  : Step Image (float * float * SupCon Image * Optimizer) :=
  bind_step
    (pretraining_loop model optimizer Monitor.reset contrastive_loader)
    (fun '(model, optimizer, metric_monitor) =>
       let '(loss_avg, metric_monitor) :=
         Monitor.read_avg metric_monitor "Loss" in
       let '(lr_avg, _) := Monitor.read_avg metric_monitor "Learning Rate" in
       ret (loss_avg, lr_avg, model, optimizer)).

Lemma pretraining_step_trace model data0 data1 labels (tr : trace Image) :
  snd (pretraining_step model criterion method data0 data1 labels tr) =
  tr ++ [data0 ++ data1].
Proof.
  unfold pretraining_step, assemble, bind_step, call_model, lift.
  destruct (split2 _ _ _) as [[f1 f2]|e]; [|reflexivity].
  destruct (cat_views f1 f2); [|reflexivity].
  destruct (String.eqb method "SupCon"); [reflexivity|].
  destruct (String.eqb method "SimCLR"); reflexivity.
Qed.

Lemma pretraining_loop_cons model optimizer mm data0 data1 labels rest
  (tr : trace Image) :
  pretraining_loop model optimizer mm ((data0, data1, labels) :: rest) tr =
  match pretraining_step model criterion method data0 data1 labels tr with
  | (Return loss, tr1) =>
      pretraining_loop
        (fst (learn model optimizer (data0 ++ data1) labels))
        (snd (learn model optimizer (data0 ++ data1) labels))
        (Monitor.update (Monitor.update mm "Loss" loss)
           "Learning Rate" (lr optimizer))
        rest tr1
  | (Raise e, tr1) => (Raise e, tr1)
  end.
Proof.
  cbn [pretraining_loop]. unfold bind_step.
  destruct (pretraining_step _ _ _ _ _ _ _) as [[loss|e] tr1]; [|reflexivity].
  now destruct (learn _ _ _ _).
Qed.

Lemma pretraining_loop_trace (loader : list batch) :
  forall model optimizer mm (tr : trace Image),
  exists k,
    k <= length loader /\
    snd (pretraining_loop model optimizer mm loader tr) =
      tr ++ map batch_input (firstn k loader) /\
    (forall r, fst (pretraining_loop model optimizer mm loader tr) = Return r ->
               k = length loader).
Proof.
  induction loader as [|[[data0 data1] labels] rest IH];
    intros model optimizer mm tr.
  - exists 0. simpl. rewrite app_nil_r. auto.
  - rewrite pretraining_loop_cons.
    pose proof (pretraining_step_trace model data0 data1 labels tr) as Htr.
    destruct (pretraining_step model criterion method data0 data1 labels tr)
      as [[loss|e] tr'] eqn:Hstep; cbn [snd] in Htr; subst tr'.
    + destruct (learn model optimizer (data0 ++ data1) labels)
        as [model' optimizer']. cbn [fst snd].
      destruct (IH model' optimizer'
                  (Monitor.update (Monitor.update mm "Loss" loss)
                     "Learning Rate" (lr optimizer))
                  (tr ++ [data0 ++ data1])) as [k [Hk [Hsnd Hret]]].
      exists (S k). split; [simpl; lia|]. split.
      * rewrite Hsnd. cbn [firstn map]. rewrite <- app_assoc. reflexivity.
      * intros r Hr. simpl. f_equal. now apply (Hret r).
    + exists 1. split; [simpl; lia|]. split; [reflexivity|].
      intros r Hr. discriminate.
Qed.

(** Over an epoch the model is called once for every batch taken from the
    loader, in order, on the concatenation of the two views of the batch;
    when a batch fails no later batch is touched, and when the epoch
    returns every batch has been used. *)
Theorem pretraining_calls_model_once_per_batch (model : SupCon Image)
  (optimizer : Optimizer) (loader : list batch) (tr : trace Image) :
  exists k,
    k <= length loader /\
    snd (pretraining model optimizer loader tr) =
      tr ++ map batch_input (firstn k loader) /\
    (forall r, fst (pretraining model optimizer loader tr) = Return r ->
               k = length loader).
Proof.
  destruct (pretraining_loop_trace loader model optimizer Monitor.reset tr)
    as [k [Hk [Hsnd Hret]]].
  exists k. split; [assumption|].
  unfold pretraining, bind_step.
  destruct (pretraining_loop model optimizer Monitor.reset loader tr)
    as [[[[m o] mm]|e] tr'] eqn:Hloop; cbn [fst snd] in *.
  - destruct (Monitor.read_avg mm "Loss") as [l mm1].
    destruct (Monitor.read_avg mm1 "Learning Rate") as [r0 mm2].
    split; [exact Hsnd|]. intros r _. now apply (Hret (m, o, mm)).
  - split; [exact Hsnd|]. intros r Hr. discriminate.
Qed.

(** The method is checked inside the loop, after the model has been
    called.  With a method other than "SupCon" and "SimCLR", [pretraining]
    returns the averages 0 and 0 on an empty loader, without an error; on a
    loader whose first batch can be assembled it calls the model once, on
    that batch, and raises the [ValueError] on the method. *)
Theorem pretraining_unsupported_method (model : SupCon Image)
  (optimizer : Optimizer) (tr : trace Image) :
  method <> "SupCon" -> method <> "SimCLR" ->
  pretraining model optimizer [] tr =
    (Return (Fin 0, Fin 0, model, optimizer), tr) /\
  (forall data0 data1 labels rest,
     length (head model (encoder model (data0 ++ data1))) =
       length (data0 ++ data1) ->
     length data0 = length labels -> length data1 = length labels ->
     pretraining model optimizer ((data0, data1, labels) :: rest) tr =
       (Raise (ValueError
                 ("contrastive method not supported: " ++ method)%string),
        tr ++ [data0 ++ data1])).
Proof.
  intros Hsup Hsim. split; [reflexivity|].
  intros data0 data1 labels rest Hrows H0 H1.
  unfold pretraining, bind_step. rewrite pretraining_loop_cons.
  unfold pretraining_step, bind_step.
  rewrite (assemble_result model data0 data1 labels Hrows H0 H1).
  destruct (String.eqb_spec method "SupCon"); [contradiction|].
  destruct (String.eqb_spec method "SimCLR"); [contradiction|].
  reflexivity.
Qed.

End Pretraining.

(** A model that maps every image to the embedding (3, 4), an optimizer
    that is its learning rate, and a step that changes neither. *)
Definition still (model : SupCon nat) (optimizer : float) (data : list nat)
  (labels : list Z) : SupCon nat * float := (model, optimizer).

Lemma pretraining_unsupported_method_witness :
  pretraining (fun o : float => o) still SupConLoss_default "BYOL"
    constant_model (Fin (1 / 1000)) [([10], [11], [7%Z])] [] =
  (Raise (ValueError "contrastive method not supported: BYOL"), [[10; 11]]).
Proof.
  destruct (@pretraining_unsupported_method nat float (fun o => o) still
              SupConLoss_default "BYOL" constant_model (Fin (1 / 1000)) [])
    as [_ H]; [discriminate|discriminate|].
  apply (H [10] [11] [7%Z] []); reflexivity.
Defined.

End Epoch.

(** * Loading the checkpoint in [main]: the keys of the state dictionary *)

Module StateDictKeys.

(** [s.replace(old, new)] for a non-empty [old]: every occurrence of [old],
    found from left to right without overlap, becomes [new].  [skip]
    characters of an occurrence just replaced are still to be passed. *)
Fixpoint replace_from (skip : nat) (old new s : string) : string :=
  match s with
  | EmptyString => EmptyString
  | String c s' =>
      match skip with
      | S k => replace_from k old new s'
      | O =>
          if String.prefix old s
          then (new ++ replace_from (String.length old - 1) old new s')%string
          else String c (replace_from 0 old new s')
      end
  end.

Definition replace (old new s : string) : string := replace_from 0 old new s.

(** Does [old] occur in [s]? *)
Fixpoint contains (old s : string) : bool :=
  match s with
  | EmptyString => String.prefix old EmptyString
  | String _ s' => String.prefix old s || contains old s'
  end.

(** A dictionary: its items in insertion order, no key twice. *)
Definition dict (V : Type) : Type := list (string * V).

(** [d[k] = v] *)
Fixpoint dict_set {V : Type} (d : dict V) (k : string) (v : V) : dict V :=
  match d with
  | [] => [(k, v)]
  | (k', v') :: rest =>
      if String.eqb k' k then (k', v) :: rest
      else (k', v') :: dict_set rest k v
  end.

(** The loop over [state_dict.items()] of [main] *)
Definition rename_keys {V : Type} (state_dict : dict V) : dict V :=
  fold_left (fun new_state_dict kv =>
               let k := replace "module." "" (fst kv) in
               dict_set new_state_dict k (snd kv))
            state_dict [].

Lemma replace_absent (old new s : string) :
  contains old s = false -> replace old new s = s.
Proof.
  unfold replace. induction s as [|c s IH]; intros H; [reflexivity|].
  cbn [contains] in H. apply orb_false_iff in H as [Hp Hc].
  cbn [replace_from]. rewrite Hp. now rewrite IH.
Qed.

(** A key that starts with "module." and has no other occurrence of it
    loses exactly that prefix. *)
Lemma replace_module_prefix (k : string) :
  contains "module." k = false ->
  replace "module." "" ("module." ++ k)%string = k.
Proof.
  intros H. unfold replace.
  rewrite <- (replace_absent "module." "" k H) at 2.
  unfold replace. simpl.
  assert (E : String.prefix "" k = true) by now destruct k.
  now rewrite E.
Qed.

Fixpoint dict_keys {V : Type} (d : dict V) : list string :=
  match d with
  | [] => []
  | (k, _) :: rest => k :: dict_keys rest
  end.

Lemma dict_set_new {V : Type} (d : dict V) k v :
  ~ In k (dict_keys d) -> dict_set d k v = d ++ [(k, v)].
Proof.
  induction d as [|[k' v'] rest IH]; intros H; [reflexivity|].
  cbn [dict_set dict_keys] in *.
  destruct (String.eqb_spec k' k) as [->|Hne]; [elim H; now left|].
  rewrite IH; [reflexivity|]. intros Hin. apply H. now right.
Qed.

Lemma dict_keys_app {V : Type} (d1 d2 : dict V) :
  dict_keys (d1 ++ d2) = dict_keys d1 ++ dict_keys d2.
Proof.
  induction d1 as [|[k v] d1 IH]; [reflexivity|]. simpl. now rewrite IH.
Qed.

Lemma rename_keys_fold {V : Type} (f : string -> string) (items : dict V) :
  forall acc : dict V,
    NoDup (dict_keys acc ++ map f (dict_keys items)) ->
    fold_left (fun d kv => dict_set d (f (fst kv)) (snd kv)) items acc =
    acc ++ map (fun kv => (f (fst kv), snd kv)) items.
Proof.
  induction items as [|[k v] items IH]; intros acc Hnd.
  - now rewrite app_nil_r.
  - cbn [fold_left fst snd map dict_keys] in *.
    assert (Hk : ~ In (f k) (dict_keys acc)).
    { intros Hin. apply NoDup_remove_2 in Hnd. apply Hnd.
      apply in_or_app. now left. }
    rewrite dict_set_new by exact Hk. rewrite IH.
    + now rewrite <- app_assoc.
    + rewrite dict_keys_app, <- app_assoc. exact Hnd.
Qed.

(** A checkpoint saved from a wrapped model: every key is "module."
    followed by a name in which "module." does not occur, and the names
    differ.  The loop of [main] gives back the names, with their values, in
    the same order. *)
Theorem rename_keys_strips_module {V : Type} (named : dict V) :
  NoDup (dict_keys named) ->
  Forall (fun k => contains "module." k = false) (dict_keys named) ->
  rename_keys (map (fun kv => (("module." ++ fst kv)%string, snd kv)) named) = named.
Proof.
  intros Hnd Hfree. unfold rename_keys.
  assert (Hkeys : map (replace "module." "")
                    (dict_keys (map (fun kv : string * V =>
                                       (("module." ++ fst kv)%string,
                                        snd kv)) named))
                  = dict_keys named).
  { clear Hnd. induction named as [|[k v] named IH]; [reflexivity|].
    cbn [map dict_keys fst snd] in *. inversion Hfree; subst.
    rewrite replace_module_prefix by assumption. now rewrite IH. }
  rewrite (rename_keys_fold (replace "module." "")).
  - cbn [app]. rewrite map_map. cbn [fst snd].
    clear Hnd Hkeys. induction named as [|[k v] named IH]; [reflexivity|].
    cbn [map dict_keys fst snd] in *. inversion Hfree; subst.
    rewrite replace_module_prefix by assumption. now rewrite IH.
  - cbn [dict_keys app]. now rewrite Hkeys.
Qed.

Lemma rename_keys_strips_module_witness :
  rename_keys [("module.encoder.weight", 1); ("module.head.bias", 2)] =
  [("encoder.weight", 1); ("head.bias", 2)].
Proof.
  apply (@rename_keys_strips_module nat
           [("encoder.weight", 1); ("head.bias", 2)]).
  - repeat constructor; simpl; intuition discriminate.
  - repeat constructor.
Defined.

(** A checkpoint whose keys do not contain "module." comes out of the loop
    of [main] as it went in. *)
Theorem rename_keys_identity {V : Type} (state_dict : dict V) :
  NoDup (dict_keys state_dict) ->
  Forall (fun k => contains "module." k = false) (dict_keys state_dict) ->
  rename_keys state_dict = state_dict.
Proof.
  intros Hnd Hfree. unfold rename_keys.
  assert (Hkeys : map (replace "module." "") (dict_keys state_dict) =
                  dict_keys state_dict).
  { clear Hnd. induction state_dict as [|[k v] d IH]; [reflexivity|].
    cbn [map dict_keys] in *. inversion Hfree; subst.
    rewrite replace_absent by assumption. now rewrite IH. }
  rewrite (rename_keys_fold (replace "module." "")).
  - cbn [app]. clear Hnd Hkeys.
    induction state_dict as [|[k v] d IH]; [reflexivity|].
    cbn [map dict_keys fst snd] in *. inversion Hfree; subst.
    rewrite replace_absent by assumption. now rewrite IH.
  - cbn [dict_keys app]. now rewrite Hkeys.
Qed.

Lemma rename_keys_identity_witness :
  rename_keys [("encoder.weight", 1); ("head.bias", 2)] =
  [("encoder.weight", 1); ("head.bias", 2)].
Proof.
  apply (@rename_keys_identity nat [("encoder.weight", 1); ("head.bias", 2)]).
  - repeat constructor; simpl; intuition discriminate.
  - repeat constructor.
Defined.

End StateDictKeys.
